(** * PyNAM [run.py]: scheduler, analyser, merger and finaliser

  A shallow embedding of the pipeline driver of PyNAM ([src/run.py]):
  - [parse_parameters], [validate_parameters]: the command line;
  - [create_networks]: the names of the job files;
  - [execute_networks]: the bounded process scheduler and the single-job
    path with its output file names;
  - [analyse_output]: the per-job analyser filling the result tables;
  - [append_analysis]: the merger of result-table mappings;
  - [finalize_analysis]: the finaliser sorting every table.

  Python dictionaries keyed by experiment name are finite maps
  ([gmap string _]); exceptions are the [Raise] case of a small error
  monad; the sub-processes of the scheduler are driven by a discrete clock
  that advances by one at every [time.sleep]. *)

From Stdlib Require Import ZArith Lia Ascii.
From stdpp Require Import base option list sorting strings pretty gmap fin_maps.

Set Warnings "-register-all".

Local Open Scope Z_scope.
Local Open Scope string_scope.
Local Open Scope list_scope.
Local Open Scope nat_scope.

(** ** Python values shared by all components *)

Module Py.

(** The exceptions the modelled code can raise. *)
Inductive exn : Type :=
| IndexError
| KeyError
| ValueError
| TypeError
| IOError.

(** A computation either returns a value or raises. *)
Inductive result (A : Type) : Type :=
| Ok (a : A)
| Raise (e : exn).
Arguments Ok {A} a.
Arguments Raise {A} e.

#[global] Instance result_ret : MRet result := @Ok.
#[global] Instance result_bind : MBind result :=
  λ A B f m, match m with Ok a => f a | Raise e => Raise e end.
#[global] Instance result_fmap : FMap result :=
  λ A B f m, match m with Ok a => Ok (f a) | Raise e => Raise e end.

Definition raised {A} (m : result A) : Prop := ∃ e, m = Raise e.

(** [s.endswith(suffix)]. *)
Definition endswith (s suffix : string) : bool :=
  (String.length suffix <=? String.length s) &&
  String.eqb
    (String.substring (String.length s - String.length suffix)
       (String.length suffix) s)
    suffix.

(** [s.startswith(prefix)]. *)
Definition startswith (s pre : string) : bool := String.prefix pre s.

(** [s[:-n]] for a positive literal [n]: the string without its last [n]
    characters, empty when it has fewer. *)
Definition drop_last (n : nat) (s : string) : string :=
  String.substring 0 (String.length s - n) s.

(** [l.pop()]: the last element and the list without it. *)
Definition pop {A} (l : list A) : option (A * list A) :=
  match reverse l with
  | [] => None
  | x :: r => Some (x, reverse r)
  end.

End Py.
Export Py.


(** ** Numbers and arrays *)

(** The program computes with Python floats and NumPy [float64] cells.
    Their arithmetic is not part of the program: it is an interface, and
    every statement below holds for each implementation of it. [f_eqb] is
    [==], [f_leb] is the order [np.lexsort] sorts by, [f_of_nat] converts
    a count, [np_mean] and [np_std] are NumPy's reductions. *)
Class Number (F : Type) : Type := {
  f_zero : F;
  f_inf : F;
  f_of_nat : nat → F;
  f_add : F → F → F;
  f_sub : F → F → F;
  f_mul : F → F → F;
  f_div : F → F → F;
  f_eqb : F → F → bool;
  f_leb : F → F → bool;
  np_mean : list F → F;
  np_std : list F → F
}.

(** What a sort needs of the order: any two cells compare, transitively. *)
Class NumberOrder (F : Type) `{Number F} : Prop := {
  f_leb_total : ∀ x y : F, f_leb x y = true ∨ f_leb y x = true;
  f_leb_trans : ∀ x y z : F,
    f_leb x y = true → f_leb y z = true → f_leb x z = true
}.

#[global] Instance number_inhabited `{Number F} : Inhabited F :=
  populate f_zero.

Module NumPy.
Section Arrays.
Context {F : Type} `{Number F}.

(** An [ndarray] of one or of two dimensions; the second kind carries its
    number of columns, which an array without rows still has. *)
Inductive ndarray : Type :=
| Arr1 (v : list F)
| Arr2 (ncols : nat) (rows : list (list F)).

(** [np.zeros(n)] and [np.zeros((n, c))]. *)
Definition zeros1 (n : nat) : list F := replicate n f_zero.
Definition zeros (n c : nat) : ndarray := Arr2 c (replicate n (zeros1 c)).

(** [sum(xs)]: Python adds from the left, starting at 0. *)
Definition py_sum (xs : list F) : F := foldl f_add f_zero xs.

(** [v[i] = x] on a one-dimensional array. *)
Definition set_item (v : list F) (i : nat) (x : F) : result (list F) :=
  if i <? length v then Ok (<[i := x]> v) else Raise IndexError.

(** [a[i] = v] on a two-dimensional array: the row must exist, and the
    vector must have the width of the array or one cell. *)
Definition set_row (a : ndarray) (i : nat) (v : list F) : result ndarray :=
  match a with
  | Arr1 _ => Raise ValueError
  | Arr2 c rows =>
      if i <? length rows then
        if length v =? c then Ok (Arr2 c (<[i := v]> rows))
        else match v with
             | [x] => Ok (Arr2 c (<[i := replicate c x]> rows))
             | _ => Raise ValueError
             end
      else Raise IndexError
  end.

(** [a[:n, :]]. *)
Definition slice_to (a : ndarray) (n : nat) : result ndarray :=
  match a with
  | Arr1 _ => Raise IndexError
  | Arr2 c rows => Ok (Arr2 c (take n rows))
  end.

(** A row of the source stretched to the width [c1] of the target. *)
Definition broadcast_row (c1 c2 : nat) (r : list F) : list F :=
  if c2 =? c1 then r
  else match r with
       | x :: _ => replicate c1 x
       | [] => []
       end.

(** [a[lo:hi, :] = src]. Slice bounds are clipped to the array. The source
    must have the shape of the slice, except that a dimension of size one
    is stretched (broadcast) to the size of the slice, whatever that is,
    zero included. *)
Definition assign_rows (a : ndarray) (lo hi : nat) (src : ndarray)
    : result ndarray :=
  match a, src with
  | Arr2 c1 rows1, Arr2 c2 rows2 =>
      let lo' := lo `min` length rows1 in
      let hi' := hi `min` length rows1 in
      let t := hi' - lo' in
      let s := length rows2 in
      if ((s =? t) || (s =? 1)) && ((c2 =? c1) || (c2 =? 1)) then
        let src_rows :=
          if s =? t then rows2 else replicate t (default [] (head rows2)) in
        Ok (Arr2 c1 (take lo' rows1 ++
                     map (broadcast_row c1 c2) src_rows ++
                     drop hi' rows1))
      else Raise ValueError
  | _, _ => Raise IndexError
  end.

(** A stable sort, by insertion: an element goes in front of the first one
    that is not smaller, so equal elements keep their order. NumPy sorts
    with a stable merge sort; the result of a stable sort does not depend
    on the algorithm. *)
Fixpoint insert_stable {A} (le : A → A → bool) (x : A) (l : list A) : list A :=
  match l with
  | [] => [x]
  | y :: l' => if le x y then x :: l else y :: insert_stable le x l'
  end.

Fixpoint sort_stable {A} (le : A → A → bool) (l : list A) : list A :=
  match l with
  | [] => []
  | x :: l' => insert_stable le x (sort_stable le l')
  end.

(** [np.lexsort(keys)]: an indirect stable sort on every key in turn, from
    the first key to the last, so that the last key is the primary one.
    Without keys NumPy raises. *)
Definition lexsort (keys : list (list F)) : result (list nat) :=
  match keys with
  | [] => Raise TypeError
  | k :: _ =>
      Ok (foldl (λ perm key,
                   sort_stable (λ i j, f_leb (key !!! i) (key !!! j)) perm)
                (seq 0 (length k)) keys)
  end.

(** Column [j] of a list of rows. *)
Definition column (j : nat) (rows : list (list F)) : list F :=
  map (λ r, r !!! j) rows.

(** [a[:, 0:dims].T]: the first [dims] columns, as far as there are. *)
Definition key_columns (c dims : nat) (rows : list (list F)) : list (list F) :=
  map (λ j, column j rows) (seq 0 (dims `min` c)).

(** [a[perm]]: the rows in the order of the index array. *)
Definition take_rows (rows : list (list F)) (perm : list nat) : list (list F) :=
  map (λ i, rows !!! i) perm.

End Arrays.
Arguments ndarray F : clear implicits.
End NumPy.

(** ** Result tables: analyser, merger, finaliser *)

Module Analysis.
Import NumPy.
Section Tables.
Context {F : Type} `{Number F}.

(** The entry [result[name]] of the result mapping. *)
Record table : Type := {
  keys : list string;
  dims : nat;
  simulator : string;
  time : gmap string F;
  data : ndarray F;
  idx : nat
}.

(** The same entry once [finalize_analysis] has deleted ["idx"]. *)
Record final_table : Type := {
  final_keys : list string;
  final_dims : nat;
  final_simulator : string;
  final_time : gmap string F;
  final_data : ndarray F
}.

(** *** The analyser: [analyse_output] *)

(** A parameter value: a number or a nested dictionary. *)
Inductive pyval : Type :=
| PNum (x : F)
| PDict (d : list (string * pyval)).

(** [d[key]] on a dictionary given by its items. *)
Fixpoint dict_get (d : list (string * pyval)) (key : string) : result pyval :=
  match d with
  | [] => Raise KeyError
  | (k, v) :: d' => if String.eqb k key then Ok v else dict_get d' key
  end.

(** [value[part]]: only a dictionary can be subscripted. *)
Definition subscript (value : pyval) (part : string) : result pyval :=
  match value with
  | PNum _ => Raise TypeError
  | PDict d => dict_get d part
  end.

(** A number where one is needed. *)
Definition number (value : pyval) : result F :=
  match value with
  | PNum x => Ok x
  | PDict _ => Raise TypeError
  end.

(** [key.split('.')]. *)
Fixpoint split_dots (s : string) : list string :=
  match s with
  | EmptyString => [EmptyString]
  | String c s' =>
      if Ascii.eqb c "."%char then EmptyString :: split_dots s'
      else match split_dots s' with
           | part :: parts => String c part :: parts
           | [] => [String c EmptyString]
           end
  end.

(** One element of the list [errs] of an analysis. *)
Record error_count : Type := { fp : F; fn : F }.

(** [analysis["meta_data"]]. *)
Record meta_data : Type := {
  experiment_name : string;
  meta_keys : list string;
  meta_simulator : string;
  experiment_size : nat;
  output_params : list (string * pyval)
}.

(** An analysis instance: its dictionaries, and what its three methods
    [calculate_storage_capactiy], [calculate_max_storage_capacity] and
    [calculate_latencies] return. *)
Record instance : Type := {
  meta : meta_data;
  data_params : list (string * pyval);
  topology_params : list (string * pyval);
  input_params : list (string * pyval);
  storage_capacity : F * list error_count;
  max_storage_capacity : F * list error_count;
  latencies : list F
}.

(** The argument [output] of [analyse_output], with the analysis instances
    that [pool.build_analysis] makes of it. *)
Record job_output : Type := {
  times : gmap string F;
  analysis_instances : list instance
}.

(** Lines 374-389: the entry created for a new experiment name. *)
Definition metric_keys : list string :=
  ["I"; "I_n"; "I_ref"; "fp"; "fp_n"; "fp_ref"; "fp_ref_n"; "fn"; "fn_n";
   "lat_avg"; "lat_std"; "n_lat_inv"].

Definition zero_time : gmap string F :=
  <["total" := f_zero]> (<["sim" := f_zero]> (<["initialize" := f_zero]>
    (<["finalize" := f_zero]> ∅))).

Definition new_table (m : meta_data) : table :=
  let keys := meta_keys m ++ metric_keys in
  {| keys := keys;
     dims := length (meta_keys m);
     simulator := meta_simulator m;
     time := zero_time;
     data := zeros (experiment_size m) (length keys);
     idx := 0 |}.

(** Lines 394-396: [for key in times: time[key] = time[key] + t]. *)
Definition add_times (times acc : gmap string F) : result (gmap string F) :=
  map_fold (λ key t r,
              acc ← r;
              match acc !! key with
              | Some old => Ok (<[key := f_add old t]> acc)
              | None => Raise KeyError
              end)
           (Ok acc) times.

(** Lines 399-404: the dictionary [params]. *)
Definition params (a : instance) : pyval :=
  PDict [("data", PDict (data_params a));
         ("topology", PDict (topology_params a));
         ("input", PDict (input_params a));
         ("output", PDict (output_params (meta a)))].

(** Lines 407-411: the value of a varied parameter. *)
Definition resolve (a : instance) (key : string) : result F :=
  value ← foldl (λ value part, v ← value; subscript v part)
                (Ok (params a)) (split_dots key);
  number value.

(** Lines 406-411: [for j, key in enumerate(keys): values[j] = ...]. *)
Fixpoint store_params (a : instance) (j : nat) (ks : list string)
    (values : list F) : result (list F) :=
  match ks with
  | [] => Ok values
  | key :: ks' =>
      value ← resolve a key;
      values ← set_item values j value;
      store_params a (S j) ks' values
  end.

(** Lines 424-431: the latencies that are not [np.inf], the number of
    those that are, and mean and deviation of the former. *)
Definition latencies_valid (a : instance) : list F :=
  filter (λ x, f_eqb x f_inf = false) (latencies a).

Definition latencies_invalid_count (a : instance) : nat :=
  length (latencies a) - length (latencies_valid a).

Definition latency_mean (a : instance) : F :=
  if 0 <? length (latencies_valid a) then np_mean (latencies_valid a)
  else f_inf.

Definition latency_std (a : instance) : F :=
  if 0 <? length (latencies_valid a) then np_std (latencies_valid a)
  else f_zero.

(** Lines 436-437: the two normalisers. *)
Definition norm_fp (n_samples n_bits_out n_ones_out : F) : F :=
  f_mul n_samples (f_sub n_bits_out n_ones_out).

Definition norm_fn (n_samples n_ones_out : F) : F :=
  f_mul n_samples n_ones_out.

(** [0.0 if d == 0.0 else x / float(d)]. *)
Definition ratio (x d : F) : F :=
  if f_eqb d f_zero then f_zero else f_div x d.

(** Lines 417-449: the twelve metrics, in the order of [metric_keys]. *)
Definition metrics (a : instance) (n_samples n_bits_out n_ones_out : F)
    : list F :=
  let '(I_, errs) := storage_capacity a in
  let '(I_ref, errs_ref) := max_storage_capacity a in
  let fp_sum := py_sum (map fp errs) in
  let fp_ref := py_sum (map fp errs_ref) in
  let fn_sum := py_sum (map fn errs) in
  let nfp := norm_fp n_samples n_bits_out n_ones_out in
  let nfn := norm_fn n_samples n_ones_out in
  [I_; ratio I_ I_ref; I_ref;
   fp_sum; ratio fp_sum nfp;
   fp_ref; ratio fp_ref nfp;
   fn_sum; ratio fn_sum nfn;
   latency_mean a; latency_std a; f_of_nat (latencies_invalid_count a)].

(** Lines 438-449: [values[offs + k] = ...] for the twelve metrics. *)
Fixpoint store_metrics (offs : nat) (ms : list F) (values : list F)
    : result (list F) :=
  match ms with
  | [] => Ok values
  | m :: ms' =>
      values ← set_item values offs m;
      store_metrics (S offs) ms' values
  end.

(** Lines 405-449: the row of one analysis instance for the table [t]. *)
Definition instance_values (t : table) (a : instance) : result (list F) :=
  values ← store_params a 0 (meta_keys (meta a)) (zeros1 (length (keys t)));
  n_samples ← dict_get (data_params a) "n_samples" ≫= number;
  n_bits_out ← dict_get (data_params a) "n_bits_out" ≫= number;
  n_ones_out ← dict_get (data_params a) "n_ones_out" ≫= number;
  store_metrics (dims t) (metrics a n_samples n_bits_out n_ones_out) values.

(** The body of the loop over the analysis instances, for instance [i]. *)
Definition analyse_instance (ts : gmap string F) (i : nat) (a : instance)
    (result : gmap string table) : Py.result (gmap string table) :=
  let name := experiment_name (meta a) in
  let t := default (new_table (meta a)) (result !! name) in
  tm ← (if i =? 0 then add_times ts (time t) else Ok (time t));
  values ← instance_values t a;
  d ← set_row (data t) (idx t) values;
  Ok (<[name := {| keys := keys t; dims := dims t;
                   simulator := simulator t; time := tm;
                   data := d; idx := idx t + 1 |}]> result).

(** [for i, analysis in enumerate(analysis_instances)]. *)
Fixpoint analyse_from (ts : gmap string F) (i : nat) (l : list instance)
    (result : gmap string table) : Py.result (gmap string table) :=
  match l with
  | [] => Ok result
  | a :: l' =>
      result ← analyse_instance ts i a result;
      analyse_from ts (S i) l' result
  end.

(** [analyse_output(output, result)]. *)
Definition analyse_output (output : job_output)
    (result : gmap string table) : Py.result (gmap string table) :=
  analyse_from (times output) 0 (analysis_instances output) result.

(** [analyse_output_files]: all job outputs into one mapping. *)
Definition analyse_outputs (outputs : list job_output)
    : Py.result (gmap string table) :=
  foldl (λ r output, result ← r; analyse_output output result)
        (Ok ∅) outputs.

(** *** The merger: [append_analysis] *)

(** Lines 471-476, for an experiment present in both mappings. *)
Definition append_table (t1 t2 : table) : result table :=
  src ← slice_to (data t2) (idx t2);
  d ← assign_rows (data t1) (idx t1) (idx t1 + idx t2) src;
  Ok {| keys := keys t1; dims := dims t1; simulator := simulator t1;
        time := time t1; data := d; idx := idx t1 + idx t2 |}.

(** What [append_analysis] does to the entry of one experiment. *)
Definition append_entry (experiment : string) (part : table)
    (analysis : gmap string table) : result (gmap string table) :=
  if startswith experiment "__" then Ok analysis
  else match analysis !! experiment with
       | None => Ok (<[experiment := part]> analysis)
       | Some t =>
           t' ← append_table t part;
           Ok (<[experiment := t']> analysis)
       end.

(** [append_analysis(analysis, analysis_part)]. The entries adopted from
    [analysis_part] are shared with it in Python; the model is of one use
    of each mapping, as in [analysis_join_output_files]. *)
Definition append_analysis (analysis analysis_part : gmap string table)
    : result (gmap string table) :=
  map_fold (λ experiment part r,
              analysis ← r; append_entry experiment part analysis)
           (Ok analysis) analysis_part.

(** Lines 510-514: the parts of all files joined from the empty mapping. *)
Definition join_parts (parts : list (gmap string table))
    : result (gmap string table) :=
  foldl (λ r part, analysis ← r; append_analysis analysis part)
        (Ok ∅) parts.

(** *** The finaliser: [finalize_analysis] *)

(** Lines 484-487: the data sorted on its first [dims] columns. *)
Definition sort_data (dims : nat) (a : ndarray F) : result (ndarray F) :=
  let '(c, rows) :=
    match a with
    | Arr1 v => (length v, [v])
    | Arr2 c rows => (c, rows)
    end in
  perm ← lexsort (key_columns c dims rows);
  Ok (Arr2 c (take_rows rows perm)).

(** Lines 488-491: the single row that is printed; [data[0]] needs a row.
    The text printed is not modelled. *)
Definition summary_row (a : ndarray F) : result (list F) :=
  match a with
  | Arr1 v => Ok v
  | Arr2 _ [] => Raise IndexError
  | Arr2 _ (r :: _) => Ok r
  end.

Definition finalize_table (res : table) : result final_table :=
  d ← (if 0 <? dims res then sort_data (dims res) (data res)
       else Ok (data res));
  _ ← (if idx res =? 1 then summary_row d else Ok []);
  Ok {| final_keys := keys res; final_dims := dims res;
        final_simulator := simulator res; final_time := time res;
        final_data := d |}.

(** [finalize_analysis(result)]. *)
Definition finalize_analysis (result : gmap string table)
    : Py.result (gmap string final_table) :=
  map_fold (λ name res r,
              final ← r;
              t ← finalize_table res;
              Ok (<[name := t]> final))
           (Ok ∅) result.

End Tables.
Arguments table F : clear implicits.
Arguments final_table F : clear implicits.
Arguments pyval F : clear implicits.
Arguments error_count F : clear implicits.
Arguments meta_data F : clear implicits.
Arguments instance F : clear implicits.
Arguments job_output F : clear implicits.
End Analysis.

(** ** The command line: [parse_parameters], [validate_parameters] *)

Module Cli.

(** What the program writes to its standard output. The usage text of
    lines 52-111, the list of the detected simulators and the hint of
    [short_help] stand for themselves; every other line is kept. *)
Inductive printed : Type :=
| Usage
| Simulators
| ShortHelp
| Line (s : string).

(** A piece of the program returns a value, leaves through
    [sys.exit(code)], or raises. *)
Inductive completion (A : Type) : Type :=
| Returns (a : A)
| SysExit (code : Z)
| Throws (e : exn).
Arguments Returns {A} a.
Arguments SysExit {A} code.
Arguments Throws {A} e.

(** The lines printed, and how the piece ended. *)
Definition run (A : Type) : Type := (list printed * completion A)%type.

#[global] Instance run_ret : MRet run := λ A a, ([], Returns a).
#[global] Instance run_bind : MBind run :=
  λ A B f m,
    match m.2 with
    | Returns a => (m.1 ++ (f a).1, (f a).2)
    | SysExit code => (m.1, SysExit code)
    | Throws e => (m.1, Throws e)
    end.

Definition print (s : string) : run () := ([Line s], Returns ()).

Definition sys_exit {A} (code : Z) : run A := ([], SysExit code).

(** [if c: body], where the body ends the program or falls through. *)
Definition when (c : bool) (body : run ()) : run () :=
  if c then body else mret ().

(** The double quote character of the messages. *)
Definition dq : string := String (ascii_of_nat 34) EmptyString.

(** Lines 51-115. *)
Definition help {A} : run A :=
  ([Usage;
    Line "<SIMULATOR> may be one of the following, these simulators have been";
    Line "auto-detected on your system:";
    Simulators], Returns ()) ;; sys_exit 1.

(** Lines 117-119. *)
Definition short_help {A} : run A :=
  ([ShortHelp], Returns ()) ;; sys_exit 1.

(** A value of the dictionary of parameters: a string or a list of
    strings. *)
Inductive value : Type :=
| Str (s : string)
| Strs (l : list string).

(** The dictionary of parameters is a [gmap string value]. *)

Definition modes : list string :=
  ["process"; "process-keep"; "create"; "exec"; "analyse"; "analyse-exec";
   "analyse-join"].

(** [str(l)] for a list of strings without quotes or escapes. *)
Definition str_list (l : list string) : string :=
  "[" +:+ String.concat ", " (map (λ s, "'" +:+ s +:+ "'") l) +:+ "]".

(** [s[n:]]. *)
Definition drop_first (n : nat) (s : string) : string :=
  String.substring n (String.length s - n) s.

(** [mode in l] for a list of literals. *)
Definition among (mode : string) (l : list string) : bool :=
  existsb (String.eqb mode) l.

(** Lines 121-201; [argv] is [sys.argv]. *)
Definition parse_parameters (argv : list string) : run (gmap string value) :=
  let n := length argv in
  when (n =? 1)
    (print "Error: At least one argument is required" ;; short_help) ;;
  when ((2 <=? n) && startswith (argv !!! 1) "--")
    (when (String.eqb (argv !!! 1) "-h" || String.eqb (argv !!! 1) "--help")
       help ;;
     print "Error: Invalid arguments" ;; short_help) ;;
  if n =? 2 then
    mret {[ "mode" := Str "process"; "simulator" := Str (argv !!! 1);
            "experiment" := Str "experiment.json" ]}
  else if (n =? 3) && negb (startswith (argv !!! 2) "--") then
    mret {[ "mode" := Str "process"; "simulator" := Str (argv !!! 1);
            "experiment" := Str (argv !!! 2) ]}
  else
    when ((n <? 3) || negb (startswith (argv !!! 2) "--"))
      (print "Error: Invalid arguments" ;; short_help) ;;
    let mode := drop_first 2 (argv !!! 2) in
    when (negb (among mode modes))
      (print ("Error: Processing mode must be one of " +:+ str_list modes
              +:+ ", but " +:+ dq +:+ mode +:+ dq +:+ " was given") ;;
       short_help) ;;
    when (n <? 4)
      (print ("Error: At least one argument is required for mode " +:+ dq
              +:+ mode +:+ dq) ;;
       short_help) ;;
    if among mode ["process"; "process-keep"; "create"] then
      if negb (n =? 4) then
        print ("Error: Mode " +:+ dq +:+ mode +:+ dq
               +:+ " requires exactly one argument") ;;
        short_help
      else
        mret {[ "mode" := Str mode; "simulator" := Str (argv !!! 1);
                "experiment" := Str (argv !!! 3) ]}
    else if among mode ["exec"; "analyse-exec"] then
      mret {[ "mode" := Str mode; "simulator" := Str (argv !!! 1);
              "files" := Strs (drop 3 argv) ]}
    else if among mode ["analyse"; "analyse-join"] then
      mret {[ "mode" := Str mode; "target" := Str (argv !!! 1);
              "files" := Strs (drop 3 argv) ]}
    else short_help.

(** [params[key]]. *)
Definition item (p : gmap string value) (key : string) : run value :=
  match p !! key with
  | Some v => mret v
  | None => ([], Throws KeyError)
  end.

(** Lines 205-209: the list [files]. An element is what was stored under
    ["experiment"], followed by the elements of the list under ["files"];
    a list can only be extended by a list. *)
Definition named_files (p : gmap string value) : run (list value) :=
  let files := match p !! "experiment" with
               | Some v => [v]
               | None => []
               end in
  match p !! "files" with
  | Some (Strs l) => mret (files ++ map Str l)
  | Some (Str _) => ([], Throws TypeError)
  | None => mret files
  end.

(** Lines 210-213; [os.path.isfile] takes a string. *)
Fixpoint check_files (isfile : string → bool) (files : list value) : run () :=
  match files with
  | [] => mret ()
  | Str fn :: files' =>
      when (negb (isfile fn))
        (print ("Error: Specified file " +:+ dq +:+ fn +:+ dq
                +:+ " does not exist.") ;;
         short_help) ;;
      check_files isfile files'
  | Strs _ :: _ => ([], Throws TypeError)
  end.

(** Lines 203-213. *)
Definition validate_parameters (isfile : string → bool) (p : gmap string value)
    : run () :=
  files ← named_files p; check_files isfile files.

End Cli.

(** ** The job files: [create_networks] *)

Module Creator.

(** [os.path.basename] on a POSIX system: what follows the last slash. *)
Fixpoint basename (p : string) : string :=
  match p with
  | EmptyString => EmptyString
  | String c p' =>
      match String.index 0 "/" p' with
      | Some _ => basename p'
      | None => if Ascii.eqb c "/" then p' else p
      end
  end.

(** [os.path.join(a, b)] on a POSIX system. *)
Definition join (a b : string) : string :=
  if startswith b "/" then b
  else if String.eqb a "" || endswith a "/" then a +:+ b
  else a +:+ "/" +:+ b.

(** [str(i)] for an index. *)
Definition str (i : nat) : string := pretty i.

(** Lines 234-236: the base name of the experiment file up to its first
    dot. *)
Definition experiment_name (experiment_file : string) : string :=
  let experiment_name := basename experiment_file in
  match String.index 0 "." experiment_name with
  | Some k => String.substring 0 k experiment_name
  | None => experiment_name
  end.

(** Lines 252-256: the two file names of pool [i]. *)
Definition in_filename (path name : string) (i : nat) : string :=
  join path (name +:+ "_" +:+ str i +:+ ".in.gz").

Definition out_filename (path name : string) (i : nat) (analyse : bool)
    : string :=
  let out_ext := if analyse then ".out.mat" else ".out.gz" in
  join path (name +:+ "_" +:+ str i +:+ out_ext).

Section Create.
Context {P : Type}.

(** What [create_networks] consults: the file system, and the pools that
    [experiment.build] makes of the experiment read from a file, for a
    simulator and a seed. *)
Record host : Type := {
  isdir : string → bool;
  build : string → string → Z → list P
}.

Inductive effect : Type :=
| Makedirs (path : string)
| WriteObject (pool : P) (filename : string).

(** Lines 249-262: [for i, pool in enumerate(pools)], from index [i] on.
    Returns the writes and the two lists of names. *)
Fixpoint store_pools (path name : string) (analyse : bool) (i : nat)
    (pools : list P) : list effect * (list string * list string) :=
  match pools with
  | [] => ([], ([], []))
  | pool :: pools' =>
      let '(tr, (input_files, output_files)) :=
        store_pools path name analyse (S i) pools' in
      (WriteObject pool (in_filename path name i) :: tr,
       (in_filename path name i :: input_files,
        out_filename path name i analyse :: output_files))
  end.

(** [create_networks(experiment_file, simulator, path, analyse)]: the
    effects, and the pair of lists returned. *)
Definition create_networks (h : host)
    (experiment_file simulator path : string) (analyse : bool)
    : list effect * (list string * list string) :=
  let name := experiment_name experiment_file in
  let seed := 1437243%Z in
  let pools := build h experiment_file simulator seed in
  let made :=
    if negb (String.eqb path "") && negb (isdir h path)
    then [Makedirs path] else [] in
  let '(tr, files) := store_pools path name analyse 0 pools in
  (made ++ tr, files).

End Create.
Arguments host P : clear implicits.
Arguments effect P : clear implicits.
End Creator.
(** ** The bounded process scheduler: [execute_networks] *)

Module Scheduler.

(** What the scheduler consults outside the program: the machine, the
    [pynnless] name normalisation and the behaviour of a child process
    started with a given command line (how many polling rounds it runs and
    its exit status). *)
Record host : Type := {
  cpu_count : nat;
  sys_executable : string;
  script : string;
  normalized_simulator_name : string → string;
  worker_duration : list string → nat;
  worker_status : list string → Z
}.

(** A [subprocess.Popen] handle. [pid] numbers the handles in launch order,
    [finish] is the clock value from which [poll()] reports [returncode]. *)
Record process : Type := {
  pid : nat;
  args : list string;
  finish : nat;
  returncode : Z
}.

(** Externally visible actions, in program order. *)
Inductive effect : Type :=
| Popen (p : nat) (cmd : list string) (t : nat)
| Exited (p : nat) (rc : Z) (t : nat)
| ReadObject (f : string)
| Simulate (f : string)
| AnalyseOutput
| Savemat (f : string)
| WriteObject (f : string).

(** The local variables of the scheduling loop, the clock and the trace. *)
Record state : Type := {
  cmds : list (list string);
  processes : list process;
  had_error : bool;
  clock : nat;
  launched : nat;
  trace : list effect
}.

(** [process.poll()]: [None] while the child is running. *)
Definition poll (now : nat) (p : process) : option Z :=
  if finish p <=? now then Some (returncode p) else None.

(** Lines 270-274: the concurrency limit. *)
Definition concurrency (h : host) (simulator : string) : nat :=
  if String.eqb (normalized_simulator_name h simulator) "nmpm1"
  then 1
  else cpu_count h.

(** Lines 277-279: one command line per input file. *)
Definition commands (h : host) (input_files : list string)
    (simulator : string) (analyse : bool) : list (list string) :=
  let mode := if analyse then "--analyse-exec" else "--exec" in
  map (λ x, [sys_executable h; script h; simulator; mode; x]) input_files.

Definition initial (cs : list (list string)) : state :=
  {| cmds := cs; processes := []; had_error := false;
     clock := 0; launched := 0; trace := [] |}.

(** Line 282: the loop condition. *)
Definition running (s : state) : bool :=
  ((0 <? length (cmds s)) || (0 <? length (processes s)))
  && negb ((length (processes s) =? 0) && had_error s).

(** Lines 285-289: launch at most one new worker. *)
Definition spawn (h : host) (c : nat) (s : state) : state :=
  if (length (processes s) <? c) && negb (had_error s)
     && (0 <? length (cmds s))
  then
    match pop (cmds s) with
    | Some (cmd, rest) =>
        let p := {| pid := launched s; args := cmd;
                    finish := clock s + worker_duration h cmd;
                    returncode := worker_status h cmd |} in
        {| cmds := rest; processes := processes s ++ [p];
           had_error := had_error s; clock := clock s;
           launched := S (launched s);
           trace := trace s ++ [Popen (pid p) cmd (clock s)] |}
    | None => s
    end
  else s.

(** Lines 292-297: [for i, process in enumerate(processes)] with
    [del processes[i]] in the body. The list iterator advances its index
    after every element, so the element that slides into the freed slot
    is not visited in this round: after a deletion the next handle is
    kept unpolled. Returns the remaining handles, whether a non-zero
    return code was seen, and the exits observed. *)
Fixpoint poll_all (now : nat) (ps : list process)
    : list process * bool * list effect :=
  match ps with
  | [] => ([], false, [])
  | p :: rest =>
      match poll now p with
      | None =>
          let '(ps', e, tr) := poll_all now rest in (p :: ps', e, tr)
      | Some rc =>
          let failed := negb (rc =? 0)%Z in
          match rest with
          | [] => ([], failed, [Exited (pid p) rc now])
          | q :: rest' =>
              let '(ps', e, tr) := poll_all now rest' in
              (q :: ps', failed || e, Exited (pid p) rc now :: tr)
          end
      end
  end.

Definition check (s : state) : state :=
  let '(ps, e, tr) := poll_all (clock s) (processes s) in
  {| cmds := cmds s; processes := ps; had_error := had_error s || e;
     clock := clock s; launched := launched s; trace := trace s ++ tr |}.

(** Line 300: [time.sleep(0.1)] is one tick of the clock. *)
Definition sleep (s : state) : state :=
  {| cmds := cmds s; processes := processes s; had_error := had_error s;
     clock := S (clock s); launched := launched s; trace := trace s |}.

Definition iteration (h : host) (c : nat) (s : state) : state :=
  sleep (check (spawn h c s)).

(** The [while] loop; [None] when the fuel does not suffice. *)
Fixpoint loop (fuel : nat) (h : host) (c : nat) (s : state) : option state :=
  if running s then
    match fuel with
    | 0 => None
    | S fuel' => loop fuel' h c (iteration h c s)
    end
  else Some s.

(** The states at the program points of the loop: the loop head, after
    the launch step and after the polling step of every iteration. *)
Fixpoint snapshots (fuel : nat) (h : host) (c : nat) (s : state) : list state :=
  s ::
  (if running s then
     match fuel with
     | 0 => []
     | S fuel' =>
         spawn h c s :: check (spawn h c s) ::
         snapshots fuel' h c (iteration h c s)
     end
   else []).

(** Lines 311-314 and 343: the output file of the single-job path. *)
Definition output_file (input_file : string) (analyse : bool) : string :=
  let output_file :=
    if endswith input_file ".in.gz"
    then drop_last 6 input_file +:+ ".out.gz"
    else input_file +:+ ".out.gz" in
  if analyse then drop_last 7 output_file +:+ ".out.mat" else output_file.

Section SingleJob.
Context {F : Type} `{Number F}.

(** What the single-job path consults outside the program. [unreadable]
    is the exception that [read_object] raises on a job file, if any;
    [simulation] is what [sim.run] and [sim.get_time_info] give for a
    simulator and the network of a job file, as [analyse_output] takes it,
    or the exception they raise; [unwritable] is the exception that the
    write of an output file raises, if any. *)
Record job_host : Type := {
  unreadable : string → option exn;
  simulation : string → string → result (Analysis.job_output F);
  unwritable : string → option exn
}.

(** The end of the single-job path: the write, then [return True]. *)
Definition written (jh : job_host) (output_file : string) : result bool :=
  match unwritable jh output_file with
  | Some e => Raise e
  | None => Ok true
  end.

(** Lines 308-353: the single-job path. An exception ends it where it is
    raised: by [read_object] (line 318), by the simulation (lines 328-330),
    by [times["sim"]] or [times["total"]] (line 331), by the inline
    [analyse_output] (line 344) or by the write (lines 349-351). *)
Definition execute_network (jh : job_host) (input_file simulator : string)
    (analyse : bool) : result bool * list effect :=
  let output_file := output_file input_file analyse in
  match unreadable jh input_file with
  | Some e => (Raise e, [ReadObject input_file])
  | None =>
      match simulation jh simulator input_file with
      | Raise e => (Raise e, [ReadObject input_file; Simulate input_file])
      | Ok output =>
          match Analysis.times output !! "sim",
                Analysis.times output !! "total" with
          | Some _, Some _ =>
              if analyse then
                match Analysis.analyse_output output ∅ with
                | Raise e =>
                    (Raise e, [ReadObject input_file; Simulate input_file;
                               AnalyseOutput])
                | Ok _ =>
                    (written jh output_file,
                     [ReadObject input_file; Simulate input_file;
                      AnalyseOutput; Savemat output_file])
                end
              else
                (written jh output_file,
                 [ReadObject input_file; Simulate input_file;
                  WriteObject output_file])
          | _, _ =>
              (Raise KeyError, [ReadObject input_file; Simulate input_file])
          end
      end
  end.

(** [execute_networks(input_files, simulator, analyse)]: the returned
    value (or exception) and the trace of effects. *)
Definition execute_networks (fuel : nat) (h : host) (jh : job_host)
    (input_files : list string) (simulator : string) (analyse : bool)
    : option (result bool * list effect) :=
  if 1 <? length input_files then
    s ← loop fuel h (concurrency h simulator)
           (initial (commands h input_files simulator analyse));
    Some (Ok (negb (had_error s)), trace s)
  else
    match input_files with
    | [] => Some (Raise IndexError, [])
    | input_file :: _ =>
        Some (execute_network jh input_file simulator analyse)
    end.

End SingleJob.
Arguments job_host F : clear implicits.

End Scheduler.

(** ** Concrete inputs used to run the definitions *)

Module Demo.
Import Scheduler.

Definition last_arg (cmd : list string) : string := default "" (last cmd).

(** A host with two processing units, on which a worker runs for as many
    rounds as its file name has characters and the job [b.in.gz] fails. *)
Definition host2 : host :=
  {| cpu_count := 2;
     sys_executable := "python";
     script := "run.py";
     normalized_simulator_name := λ s, s;
     worker_duration := λ cmd, String.length (last_arg cmd);
     worker_status := λ cmd,
       if String.eqb (last_arg cmd) "b.in.gz" then 1%Z else 0%Z |}.

Definition batch : list string := ["a.in.gz"; "b.in.gz"; "c.in.gz"].

End Demo.

(** An implementation of the number interface on which the definitions can
    be run: the integers with a largest element [Inf]. Sums, differences
    and products of integers are exact; quotients, means and deviations
    are rounded down. *)
Module Exact.

Inductive xnum : Type :=
| Fin (z : Z)
| Inf.

Definition lift2 (op : Z → Z → Z) (a b : xnum) : xnum :=
  match a, b with
  | Fin x, Fin y => Fin (op x y)
  | _, _ => Inf
  end.

Definition xeqb (a b : xnum) : bool :=
  match a, b with
  | Fin x, Fin y => (x =? y)%Z
  | Inf, Inf => true
  | _, _ => false
  end.

Definition xleb (a b : xnum) : bool :=
  match a, b with
  | Fin x, Fin y => (x <=? y)%Z
  | _, Inf => true
  | Inf, Fin _ => false
  end.

Definition xsum (l : list xnum) : xnum := foldl (lift2 Z.add) (Fin 0) l.

Definition xmean (l : list xnum) : xnum :=
  lift2 Z.div (xsum l) (Fin (Z.of_nat (length l))).

Definition xsqrt (a : xnum) : xnum :=
  match a with
  | Fin x => Fin (Z.sqrt x)
  | Inf => Inf
  end.

Definition xstd (l : list xnum) : xnum :=
  let m := xmean l in
  xsqrt (xmean (map (λ x, let d := lift2 Z.sub x m in lift2 Z.mul d d) l)).

#[global] Instance xnum_number : Number xnum :=
  {| f_zero := Fin 0;
     f_inf := Inf;
     f_of_nat := λ n, Fin (Z.of_nat n);
     f_add := lift2 Z.add;
     f_sub := lift2 Z.sub;
     f_mul := lift2 Z.mul;
     f_div := lift2 Z.div;
     f_eqb := xeqb;
     f_leb := xleb;
     np_mean := xmean;
     np_std := xstd |}.

End Exact.

(** Result tables over the exact numbers. *)
Module DemoTables.
Import NumPy Analysis Exact.

(** A row: the values of the varied parameters followed by twelve metric
    cells, all holding [m]. *)
Definition row (ps : list nat) (m : nat) : list xnum :=
  map (λ p, Fin (Z.of_nat p)) ps ++ replicate 12 (Fin (Z.of_nat m)).

Definition timing (total : nat) : gmap string xnum :=
  <["total" := Fin (Z.of_nat total)]> (<["sim" := Fin 0]> (<["initialize" := Fin 0]>
    (<["finalize" := Fin 0]> ∅))).

(** A table with the varied parameters [ks], the declared size [n], the
    rows [rows] filled in and the remaining rows zero. *)
Definition table_of (ks : list string) (n total : nat)
    (rows : list (list xnum)) : table xnum :=
  {| keys := ks ++ metric_keys;
     dims := length ks;
     simulator := "nest";
     time := timing total;
     data := Arr2 (length ks + 12)
               (rows ++ replicate (n - length rows) (zeros1 (length ks + 12)));
     idx := length rows |}.

Definition final_of (ks : list string) (total : nat)
    (rows : list (list xnum)) : final_table xnum :=
  {| final_keys := ks ++ metric_keys;
     final_dims := length ks;
     final_simulator := "nest";
     final_time := timing total;
     final_data := Arr2 (length ks + 12) rows |}.

(** One varied parameter with the values 3, 1, 2. *)
Definition unsorted : table xnum :=
  table_of ["data.n_ones_in"] 3 5 [row [3] 30; row [1] 10; row [2] 20].

(** Two varied parameters: the rows (1, 2) and (2, 1). *)
Definition two_keys : table xnum :=
  table_of ["data.n_bits_in"; "data.n_ones_in"] 2 5
    [row [1; 2] 10; row [2; 1] 20].

(** A table of declared size 3 with two rows filled in. *)
Definition partly_filled : table xnum :=
  table_of ["data.n_ones_in"] 3 5 [row [3] 30; row [1] 10].

(** Two files with one row each for the same experiment, the values 2 and
    1 of the varied parameter, and different timings. *)
Definition file_two : gmap string (table xnum) :=
  {["exp" := table_of ["data.n_ones_in"] 2 5 [row [2] 20]]}.

Definition file_one : gmap string (table xnum) :=
  {["exp" := table_of ["data.n_ones_in"] 2 7 [row [1] 10]]}.

(** Two files with one row each for the same experiment and the same value
    of the varied parameter: a repeated measurement, with different
    metrics. Keys and timings agree. *)
Definition repeat_ten : gmap string (table xnum) :=
  {["exp" := table_of ["data.n_ones_in"] 2 5 [row [1] 10]]}.

Definition repeat_twenty : gmap string (table xnum) :=
  {["exp" := table_of ["data.n_ones_in"] 2 5 [row [1] 20]]}.

End DemoTables.

(** Job outputs over the exact numbers. *)
Module DemoJobs.
Import NumPy Analysis Exact.

Definition demo_meta : meta_data xnum :=
  {| experiment_name := "exp";
     meta_keys := ["data.n_ones_in"];
     meta_simulator := "nest";
     experiment_size := 2;
     output_params := [] |}.

(** An ordinary instance: capacity and reference capacity 14, normalisers
    120 and 40, latencies 2 and 4 and one that is infinite. *)
Definition plain (n_ones_in : Z) : instance xnum :=
  {| meta := demo_meta;
     data_params := [("n_ones_in", PNum (Fin n_ones_in));
                     ("n_samples", PNum (Fin 10));
                     ("n_bits_out", PNum (Fin 16));
                     ("n_ones_out", PNum (Fin 4))];
     topology_params := [];
     input_params := [];
     storage_capacity := (Fin 14, [{| fp := Fin 100; fn := Fin 40 |};
                                   {| fp := Fin 20; fn := Fin 0 |}]);
     max_storage_capacity := (Fin 14, [{| fp := Fin 0; fn := Fin 0 |}]);
     latencies := [Fin 2; Inf; Fin 4] |}.

(** An instance in all four edge cases: reference capacity 0, no samples,
    and no finite latency. *)
Definition degenerate (n_ones_in : Z) : instance xnum :=
  {| meta := demo_meta;
     data_params := [("n_ones_in", PNum (Fin n_ones_in));
                     ("n_samples", PNum (Fin 0));
                     ("n_bits_out", PNum (Fin 16));
                     ("n_ones_out", PNum (Fin 4))];
     topology_params := [];
     input_params := [];
     storage_capacity := (Fin 0, [{| fp := Fin 1; fn := Fin 2 |}]);
     max_storage_capacity := (Fin 0, [{| fp := Fin 5; fn := Fin 0 |}]);
     latencies := [Inf; Inf] |}.

Definition job_times : gmap string xnum :=
  <["total" := Fin 9]> (<["sim" := Fin 5]> (<["initialize" := Fin 3]>
    (<["finalize" := Fin 1]> ∅))).

(** A job whose output demultiplexes into two instances. *)
Definition job : job_output xnum :=
  {| times := job_times;
     analysis_instances := [plain 3%Z; degenerate 1%Z] |}.

End DemoJobs.

(** A command line for the mode [exec] and a file system that holds the
    first of its two job files only. *)
Module DemoCli.
Import Cli.

Definition exec_line : list string :=
  ["run.py"; "nest"; "--exec"; "a.in.gz"; "b.in.gz"].

Definition exec_params : gmap string value :=
  {[ "mode" := Str "exec"; "simulator" := Str "nest";
     "files" := Strs ["a.in.gz"; "b.in.gz"] ]}.

Definition only_a (fn : string) : bool := String.eqb fn "a.in.gz".

End DemoCli.

(** Environments of the single-job path over the exact numbers. *)
Module DemoHost.
Import NumPy Analysis Scheduler Exact DemoJobs.

(** Every job file is read, simulates to the job of [DemoJobs] and is
    written. *)
Definition quiet : job_host xnum :=
  {| unreadable := λ _, None;
     simulation := λ _ _, Ok job;
     unwritable := λ _, None |}.

(** A job whose timings have a fifth key, which [analyse_output] does not
    accept. *)
Definition broken : job_output xnum :=
  {| times := <["load" := Fin 1]> job_times;
     analysis_instances := [plain 3%Z] |}.

(** The job file [gone.in.gz] cannot be read, the simulation of
    [odd.in.gz] gives the job [broken], and the disk is full for
    [full.out.gz]. *)
Definition flaky : job_host xnum :=
  {| unreadable := λ f,
       if String.eqb f "gone.in.gz" then Some IOError else None;
     simulation := λ _ f,
       if String.eqb f "odd.in.gz" then Ok broken else Ok job;
     unwritable := λ f,
       if String.eqb f "full.out.gz" then Some IOError else None |}.

End DemoHost.

(** More job outputs over the exact numbers. *)
Module DemoMore.
Import NumPy Analysis Exact DemoJobs.

(** Three instances of an experiment of declared size 2. *)
Definition crowded : job_output xnum :=
  {| times := job_times;
     analysis_instances := [plain 3%Z; plain 2%Z; plain 1%Z] |}.

(** A job whose timings have a fifth key. *)
Definition odd_times : gmap string xnum := <["load" := Fin 1]> job_times.

Definition odd_job : job_output xnum :=
  {| times := odd_times; analysis_instances := [plain 3%Z] |}.

(** Two jobs with one instance each of the same experiment. *)
Definition first_job : job_output xnum :=
  {| times := job_times; analysis_instances := [plain 3%Z] |}.

Definition second_job : job_output xnum :=
  {| times := job_times; analysis_instances := [degenerate 1%Z] |}.

(** A file with a table for another experiment than [DemoTables.file_one]. *)
Definition other_file : gmap string (table xnum) :=
  {["other" := DemoTables.table_of ["data.n_bits_in"] 3 4
                 [DemoTables.row [8] 80]]}.

End DemoMore.

(** * Auxiliary notions for the proofs *)

Module SchedulerAux.
Import Scheduler.

(** Rounds a handle may still need, plus one for reaping it. *)
Definition weight (now : nat) (ps : list process) : nat :=
  sum_list_with (λ X, S (finish X - now)) ps.

(** An upper bound on the iterations the loop still performs. *)
Definition remaining (h : host) (s : state) : nat :=
  sum_list_with (λ cmd, worker_duration h cmd + 2) (cmds s)
  + weight (clock s) (processes s).

(** The handle [subprocess.Popen] yields for [cmd] launched at time [t]. *)
Definition started (h : host) (p : nat) (cmd : list string) (t : nat) : process :=
  {| pid := p; args := cmd; finish := t + worker_duration h cmd;
     returncode := worker_status h cmd |}.

(** A worker was seen to exit with a non-zero status. *)
Definition failure (ev : effect) : Prop :=
  ∃ p rc t, ev = Exited p rc t ∧ rc ≠ 0%Z.

(** A worker was launched. *)
Definition launch (ev : effect) : Prop :=
  ∃ p cmd t, ev = Popen p cmd t.

(** No launch is recorded after a failure. *)
Definition no_launch_after_failure (tr : list effect) : Prop :=
  ∀ i j ev ev',
    tr !! i = Some ev → failure ev → tr !! j = Some ev' → launch ev' → j < i.

(** Every launched worker was reaped after it had run to completion, with
    its own exit status. *)
Definition all_completed (h : host) (tr : list effect) : Prop :=
  ∀ p cmd t,
    Popen p cmd t ∈ tr →
    ∃ t', t + worker_duration h cmd ≤ t' ∧ Exited p (worker_status h cmd) t' ∈ tr.

(** The loop invariant relating the local variables to the trace, for the
    batch of commands [cs]. *)
Record inv (h : host) (cs : list (list string)) (s : state) : Prop := {
  inv_error : had_error s = true ↔ ∃ ev, ev ∈ trace s ∧ failure ev;
  inv_procs : ∀ X, X ∈ processes s →
    ∃ t, Popen (pid X) (args X) t ∈ trace s ∧ X = started h (pid X) (args X) t;
  inv_launched : ∀ p cmd t, Popen p cmd t ∈ trace s →
    started h p cmd t ∈ processes s ∨
    ∃ t', t + worker_duration h cmd ≤ t' ∧
          Exited p (worker_status h cmd) t' ∈ trace s;
  inv_exited : ∀ p rc t', Exited p rc t' ∈ trace s →
    ∃ cmd t, Popen p cmd t ∈ trace s ∧ rc = worker_status h cmd;
  inv_batch : ∀ cmd, cmd ∈ cs ↔ cmd ∈ cmds s ∨ ∃ p t, Popen p cmd t ∈ trace s;
  inv_order : no_launch_after_failure (trace s)
}.

End SchedulerAux.

Module AnalysisAux.
Import NumPy Analysis.

(** The order after a pass of a stable sort by [le]: [le] decides, and the
    order [R] the list was in before remains among the elements that [le]
    does not tell apart. *)
Definition refined {A} (le : A → A → bool) (R : relation A) : relation A :=
  λ x y, le x y = true ∧ (le y x = true → R x y).

Section Orders.
Context {F : Type} `{Number F}.

(** Rows compared on column [j]. *)
Definition col_leb (j : nat) (r1 r2 : list F) : bool :=
  f_leb (r1 !!! j) (r2 !!! j).

(** One pass of the lexsort seen on the rows themselves. *)
Definition sort_by_column (j : nat) (rows : list (list F)) : list (list F) :=
  sort_stable (col_leb j) rows.

(** The order [np.lexsort] establishes on the first [d] columns: column
    [d - 1] decides, among rows that agree on it column [d - 2], and so on
    down to column 0. *)
Fixpoint key_le (d : nat) (r1 r2 : list F) : Prop :=
  match d with
  | 0 => True
  | S d' =>
      col_leb d' r1 r2 = true ∧ (col_leb d' r2 r1 = true → key_le d' r1 r2)
  end.

(** The rows agree, as far as the order can tell, on the first [d]
    columns. *)
Fixpoint same_key (d : nat) (r1 r2 : list F) : bool :=
  match d with
  | 0 => true
  | S d' => col_leb d' r1 r2 && col_leb d' r2 r1 && same_key d' r1 r2
  end.

(** The order of the specification on the first [d] columns, starting at
    column [j]: column [j] decides, among rows that agree on it column
    [j + 1], and so on. [claimed_leb 0 d] makes the first column the
    primary key. *)
Fixpoint claimed_leb (j d : nat) (r1 r2 : list F) : bool :=
  match d with
  | 0 => true
  | S d' =>
      col_leb j r1 r2 && (negb (col_leb j r2 r1) || claimed_leb (S j) d' r1 r2)
  end.

(** A list is in the claimed order when each row is below all later ones. *)
Fixpoint claimed_sorted (d : nat) (rows : list (list F)) : bool :=
  match rows with
  | [] => true
  | r :: rows' =>
      forallb (claimed_leb 0 d r) rows' && claimed_sorted d rows'
  end.

(** A table [finalize_table] accepts: with varied parameters the array has
    a column, and a table of one valid row has a row. *)
Definition finalizable (res : table F) : Prop :=
  match data res with
  | Arr1 v => 0 < dims res → 0 < length v
  | Arr2 c rows => (0 < dims res → 0 < c) ∧ (idx res = 1 → rows ≠ [])
  end.

(** What [append_analysis] makes of the entries of one experiment name in
    the two mappings. *)
Definition merge_entry (name : string) (o1 o2 : option (table F))
    : result (option (table F)) :=
  match o2 with
  | None => Ok o1
  | Some t2 =>
      if startswith name "__" then Ok o1
      else match o1 with
           | None => Ok (Some t2)
           | Some t1 => Some <$> append_table t1 t2
           end
  end.

(** The rows of a two-dimensional array. *)
Definition rows_of (a : ndarray F) : list (list F) :=
  match a with
  | Arr1 _ => []
  | Arr2 _ rows => rows
  end.

(** The metric cells of the row [values] of the instance [a], in a table
    with [d] varied parameters, in the four edge cases, each stated on what
    the instance holds: the reference capacity is zero; the product
    [n_samples * (n_bits_out - n_ones_out)] is zero; the product
    [n_samples * n_ones_out] is zero; every latency equals [np.inf], which
    is how the program tells a latency that is not finite (a latency is a
    duration or [np.inf]). *)
Definition edge_cases (d : nat) (a : instance F) (values : list F) : Prop :=
  ∃ n_samples n_bits_out n_ones_out,
    dict_get (data_params a) "n_samples" ≫= number = Ok n_samples ∧
    dict_get (data_params a) "n_bits_out" ≫= number = Ok n_bits_out ∧
    dict_get (data_params a) "n_ones_out" ≫= number = Ok n_ones_out ∧
    (f_eqb (max_storage_capacity a).1 f_zero = true →
     values !! (d + 1) = Some f_zero) ∧
    (f_eqb (f_mul n_samples (f_sub n_bits_out n_ones_out)) f_zero = true →
     values !! (d + 4) = Some f_zero ∧ values !! (d + 6) = Some f_zero) ∧
    (f_eqb (f_mul n_samples n_ones_out) f_zero = true →
     values !! (d + 8) = Some f_zero) ∧
    (Forall (λ x, f_eqb x f_inf = true) (latencies a) →
     values !! (d + 9) = Some f_inf ∧
     values !! (d + 10) = Some f_zero ∧
     values !! (d + 11) = Some (f_of_nat (length (latencies a)))).

(** The tables of [result] are still there in [result'], with the rows
    below their cursor unchanged. *)
Definition extends (result result' : gmap string (table F)) : Prop :=
  ∀ name t,
    result !! name = Some t →
    ∃ t', result' !! name = Some t' ∧ dims t' = dims t ∧ idx t ≤ idx t' ∧
          ∀ r, r < idx t → rows_of (data t') !! r = rows_of (data t) !! r.

(** The timing accumulator of an experiment before a call: the one of its
    table, or zeros when the table is yet to be created. *)
Definition time_before (result : gmap string (table F)) (name : string)
    : gmap string F :=
  match result !! name with
  | Some t => time t
  | None => zero_time
  end.

End Orders.
End AnalysisAux.

Module MergeAux.
Import NumPy Analysis AnalysisAux.
Section Groupings.
Context {F : Type} `{Number F}.

(** A way of merging the parts of several files: a part is taken up from
    the empty mapping, as [analysis_join_output_files] takes up the first
    file, and two merged groups are merged by another call. Every part is
    read from its file and merged once, so that the table a merge adopts
    from a part, and mutates afterwards, is seen by no other merge. *)
Inductive grouping : Type :=
| Part (m : gmap string (table F))
| Merge (l r : grouping).

Fixpoint parts_of (g : grouping) : list (gmap string (table F)) :=
  match g with
  | Part m => [m]
  | Merge l r => parts_of l ++ parts_of r
  end.

Fixpoint join (g : grouping) : result (gmap string (table F)) :=
  match g with
  | Part m => append_analysis ∅ m
  | Merge l r => a ← join l; b ← join r; append_analysis a b
  end.

(** The grouping [join_parts] follows: the parts from left to right. *)
Fixpoint left_deep (g : grouping) (parts : list (gmap string (table F)))
    : grouping :=
  match parts with
  | [] => g
  | m :: parts' => left_deep (Merge g (Part m)) parts'
  end.

(** [join] seen at one experiment name. *)
Fixpoint join_entry (name : string) (g : grouping)
    : result (option (table F)) :=
  match g with
  | Part m => merge_entry name None (m !! name)
  | Merge l r =>
      o1 ← join_entry name l; o2 ← join_entry name r; merge_entry name o1 o2
  end.

(** The tables the parts hold for an experiment name; none for a name that
    [append_analysis] skips. *)
Definition tables_of (name : string) (parts : list (gmap string (table F)))
    : list (table F) :=
  if startswith name "__" then [] else omap (λ m, m !! name) parts.

(** The rows below the cursor. *)
Definition valid_rows (t : table F) : list (list F) :=
  take (idx t) (rows_of (data t)).

(** A table as [analyse_output] leaves it: a matrix of [n] rows and [c]
    columns whose rows from the cursor on are zero. *)
Definition well_filled (n c : nat) (t : table F) : Prop :=
  ∃ rows,
    data t = Arr2 c (rows ++ replicate (n - length rows) (zeros1 c)) ∧
    idx t = length rows ∧ length rows ≤ n.

(** The tables of one experiment can be merged in any order: they have the
    same keys, the same number of varied parameters, matrices of the same
    shape filled as above, and together no more rows than declared. *)
Definition compatible (ts : list (table F)) : Prop :=
  ∃ ks d n c,
    d ≤ c ∧
    Forall (λ t, keys t = ks ∧ dims t = d ∧ well_filled n c t) ts ∧
    sum_list_with idx ts ≤ n.

(** The table the merges arrive at for the tables [ts] of one name, taken
    in this order. *)
Definition merged (n c : nat) (ts : list (table F)) : option (table F) :=
  match ts with
  | [] => None
  | t :: _ =>
      let rows := ts ≫= valid_rows in
      Some {| keys := keys t; dims := dims t; simulator := simulator t;
              time := time t;
              data := Arr2 c (rows ++ replicate (n - length rows) (zeros1 c));
              idx := length rows |}
  end.

(** Two final tables agree up to the order of rows: same keys, same number
    of varied parameters, the same rows; and the same matrix when rows that
    agree on the varied parameters are equal. *)
Definition same_final (f1 f2 : final_table F) : Prop :=
  final_keys f1 = final_keys f2 ∧
  final_dims f1 = final_dims f2 ∧
  ∃ c rows1 rows2,
    final_data f1 = Arr2 c rows1 ∧ final_data f2 = Arr2 c rows2 ∧
    rows1 ≡ₚ rows2 ∧
    ((∀ r r', r ∈ rows1 → r' ∈ rows1 →
              same_key (final_dims f1) r r' = true → r = r') →
     rows1 = rows2).

End Groupings.
Arguments grouping F : clear implicits.
End MergeAux.

Module CliAux.
Import Cli.

(** The command lines the usage text documents, with the dictionary each
    stands for. The first argument of every form is one that does not
    start with two dashes. *)
Inductive accepted : list string → gmap string value → Prop :=
| accepted_default prog simulator :
    accepted [prog; simulator]
      {[ "mode" := Str "process"; "simulator" := Str simulator;
         "experiment" := Str "experiment.json" ]}
| accepted_experiment prog simulator experiment :
    startswith experiment "--" = false →
    accepted [prog; simulator; experiment]
      {[ "mode" := Str "process"; "simulator" := Str simulator;
         "experiment" := Str experiment ]}
| accepted_process prog simulator mode experiment :
    mode ∈ ["process"; "process-keep"; "create"] →
    accepted [prog; simulator; "--" +:+ mode; experiment]
      {[ "mode" := Str mode; "simulator" := Str simulator;
         "experiment" := Str experiment ]}
| accepted_exec prog simulator mode file files :
    mode ∈ ["exec"; "analyse-exec"] →
    accepted (prog :: simulator :: ("--" +:+ mode) :: file :: files)
      {[ "mode" := Str mode; "simulator" := Str simulator;
         "files" := Strs (file :: files) ]}
| accepted_analyse prog target mode file files :
    mode ∈ ["analyse"; "analyse-join"] →
    accepted (prog :: target :: ("--" +:+ mode) :: file :: files)
      {[ "mode" := Str mode; "target" := Str target;
         "files" := Strs (file :: files) ]}.

(** The four lines [help] prints. *)
Definition help_lines : list printed :=
  [Usage;
   Line "<SIMULATOR> may be one of the following, these simulators have been";
   Line "auto-detected on your system:";
   Simulators].

(** An error line followed by the hint of [short_help], and the exit. *)
Definition fail {A} (msg : string) : run A :=
  ([Line msg; ShortHelp], SysExit 1).

(** The files a dictionary of parameters names, for a dictionary that
    [parse_parameters] returns: the experiment, then the files. *)
Definition files_of (p : gmap string value) : list string :=
  match p !! "experiment" with
  | Some (Str e) => [e]
  | _ => []
  end ++
  match p !! "files" with
  | Some (Strs l) => l
  | _ => []
  end.

(** The line printed for a missing file. *)
Definition missing (fn : string) : printed :=
  Line ("Error: Specified file " +:+ dq +:+ fn +:+ dq +:+ " does not exist.").

End CliAux.

Module OrderAux.
Import Scheduler.

(** The command lines of the workers launched, with the numbers of their
    handles, in the order of the launches. *)
Fixpoint launches (tr : list effect) : list (nat * list string) :=
  match tr with
  | [] => []
  | Popen p cmd _ :: tr' => (p, cmd) :: launches tr'
  | _ :: tr' => launches tr'
  end.

(** A list with the positions of its elements. *)
Definition numbered {A} (l : list A) : list (nat * A) :=
  zip (seq 0 (length l)) l.

(** The loop invariant of the launches, for the batch of commands [cs]:
    the launches so far took the commands from the end of the list, one
    by one, and numbered them from zero. *)
Definition lifo (cs : list (list string)) (s : state) : Prop :=
  ∃ done,
    reverse cs = done ++ reverse (cmds s) ∧
    launches (trace s) = numbered done ∧
    launched s = length done.

End OrderAux.

Module AnalyserAux.
Import NumPy Analysis AnalysisAux.
Section Counting.
Context {F : Type} `{Number F}.

(** The instances of a list that belong to the experiment [name]. *)
Definition named (name : string) (l : list (instance F)) : list (instance F) :=
  filter (λ a, experiment_name (meta a) = name) l.

(** The table in which the rows of the experiment [name] start to be
    stored: the one [result] has, or else the one created for the first
    instance of the experiment; none if there is neither. *)
Definition start_table (result : gmap string (table F)) (name : string)
    (l : list (instance F)) : option (table F) :=
  match result !! name with
  | Some t => Some t
  | None => new_table ∘ meta <$> head (named name l)
  end.

(** The number of rows of the matrix of a table. *)
Definition size (t : table F) : nat := length (rows_of (data t)).

(** All instances of a list of jobs, in the order of the analysis. *)
Definition all_instances (outs : list (job_output F)) : list (instance F) :=
  outs ≫= analysis_instances.

(** The jobs whose timings go to the experiment [name]: those whose first
    instance belongs to it. *)
Definition timed (name : string) (outs : list (job_output F))
    : list (job_output F) :=
  filter (λ out, experiment_name ∘ meta <$> head (analysis_instances out)
                 = Some name) outs.

(** The timings of a list of jobs added to an accumulator, job by job. *)
Definition add_all_times (outs : list (job_output F)) (acc : gmap string F)
    : result (gmap string F) :=
  foldl (λ r out, acc ← r; add_times (times out) acc) (Ok acc) outs.

End Counting.
End AnalyserAux.

(** * Properties of the scheduler *)

Module SchedulerFacts.
Import Scheduler SchedulerAux.

(** Induction for functions that recurse on the tail and on the tail of
    the tail, as [poll_all] does. *)
Lemma list_tail_ind {A} (P : list A → Prop) :
  P [] → (∀ x l, P l → P (tail l) → P (x :: l)) → ∀ l, P l.
Proof.
  intros Hnil Hcons l.
  cut (P l ∧ P (tail l)); [tauto|].
  induction l as [|x l [IH1 IH2]]; simpl; auto.
Qed.

Lemma pop_Some {A} (l : list A) x r : pop l = Some (x, r) → l = r ++ [x].
Proof.
  unfold pop. intros H.
  destruct (reverse l) as [|y r'] eqn:E; [discriminate|].
  injection H as -> <-.
  rewrite <- (reverse_involutive l), E, reverse_cons. reflexivity.
Qed.

Lemma pop_None {A} (l : list A) : pop l = None → l = [].
Proof.
  unfold pop. destruct (reverse l) eqn:E; [|discriminate].
  intros _. rewrite <- (reverse_involutive l), E. reflexivity.
Qed.

(** *** One polling round *)

Section Poll.
Variable now : nat.

Lemma poll_all_sublist ps : sublist (poll_all now ps).1.1 ps.
Proof.
  induction ps as [|p rest IH1 IH2] using list_tail_ind; simpl.
  - constructor.
  - destruct (poll now p) as [rc|].
    + destruct rest as [|q rest']; simpl in *.
      * apply sublist_nil_l.
      * destruct (poll_all now rest') as [[ps' e] tr]; simpl in *.
        apply sublist_cons, sublist_skip, IH2.
    + destruct (poll_all now rest) as [[ps' e] tr]; simpl in *.
      apply sublist_skip, IH1.
Qed.

(** A handle is either kept or was seen to have finished. *)
Lemma poll_all_kept_or_exited ps X :
  X ∈ ps →
  X ∈ (poll_all now ps).1.1 ∨
  (finish X ≤ now ∧
   Exited (pid X) (returncode X) now ∈ (poll_all now ps).2).
Proof.
  induction ps as [|p rest IH1 IH2] using list_tail_ind; simpl.
  - intros H. inversion H.
  - intros HX. unfold poll.
    destruct (finish p <=? now) eqn:Hf.
    + apply Nat.leb_le in Hf.
      destruct rest as [|q rest']; simpl in *.
      * apply list_elem_of_singleton in HX as ->. right. split; [done|].
        apply list_elem_of_singleton. reflexivity.
      * destruct (poll_all now rest') as [[ps' e] tr]; simpl in *.
        apply elem_of_cons in HX as [->|HX].
        { right. split; [done|]. left. }
        apply elem_of_cons in HX as [->|HX]; [left; left|].
        destruct (IH2 HX) as [?|[? ?]]; [left; by right|].
        right. split; [done|]. by right.
    + destruct (poll_all now rest) as [[ps' e] tr]; simpl in *.
      apply elem_of_cons in HX as [->|HX]; [left; left|].
      destruct (IH1 HX) as [?|[? ?]]; [left; by right|by right].
Qed.

(** Only exits of finished handles are recorded. *)
Lemma poll_all_exits ps ev :
  ev ∈ (poll_all now ps).2 →
  ∃ X, X ∈ ps ∧ finish X ≤ now ∧ ev = Exited (pid X) (returncode X) now.
Proof.
  induction ps as [|p rest IH1 IH2] using list_tail_ind; simpl.
  - intros H. inversion H.
  - unfold poll. destruct (finish p <=? now) eqn:Hf.
    + apply Nat.leb_le in Hf.
      destruct rest as [|q rest']; simpl in *.
      * intros ->%list_elem_of_singleton. exists p. split; [left|done].
      * destruct (poll_all now rest') as [[ps' e] tr]; simpl in *.
        intros [->|Hev]%elem_of_cons.
        { exists p. split; [left|done]. }
        destruct (IH2 Hev) as (X & HX & ? & ?).
        exists X. split; [by do 2 right|done].
    + destruct (poll_all now rest) as [[ps' e] tr]; simpl in *.
      intros Hev. destruct (IH1 Hev) as (X & HX & ? & ?).
      exists X. split; [by right|done].
Qed.

(** The error flag of the round is raised exactly by a non-zero exit. *)
Lemma poll_all_failed ps :
  (poll_all now ps).1.2 = true ↔
  ∃ p rc t, Exited p rc t ∈ (poll_all now ps).2 ∧ rc ≠ 0%Z.
Proof.
  induction ps as [|p rest IH1 IH2] using list_tail_ind; simpl.
  - split; [discriminate|]. intros (? & ? & ? & H & _). inversion H.
  - destruct (poll now p) as [rc|].
    + destruct rest as [|q rest']; simpl in *.
      * rewrite negb_true_iff, Z.eqb_neq. split.
        { intros Hrc. exists (pid p), rc, now. split; [left|done]. }
        intros (? & ? & ? & H & Hne).
        apply list_elem_of_singleton in H. by simplify_eq.
      * destruct (poll_all now rest') as [[ps' e] tr]; simpl in *.
        rewrite orb_true_iff, negb_true_iff, Z.eqb_neq, IH2. split.
        { intros [Hrc|(p' & rc' & t' & H & Hne)].
          - exists (pid p), rc, now. split; [left|done].
          - exists p', rc', t'. split; [by right|done]. }
        intros (p' & rc' & t' & H & Hne).
        apply elem_of_cons in H as [H|H]; [left; by simplify_eq|].
        right. by exists p', rc', t'.
    + destruct (poll_all now rest) as [[ps' e] tr]; simpl in *. apply IH1.
Qed.

(** No launch is recorded by a polling round. *)
Lemma poll_all_no_popen ps p cmd t : Popen p cmd t ∉ (poll_all now ps).2.
Proof.
  intros H. apply poll_all_exits in H as (X & _ & _ & H). discriminate.
Qed.

End Poll.

(** *** Termination *)

Lemma weight_sublist now ps1 ps2 :
  sublist ps1 ps2 → weight now ps1 ≤ weight now ps2.
Proof. unfold weight. induction 1; simpl; lia. Qed.

Lemma weight_tick now ps : weight (S now) ps ≤ weight now ps.
Proof. unfold weight. induction ps; simpl; lia. Qed.

Lemma weight_app now ps1 ps2 :
  weight now (ps1 ++ ps2) = weight now ps1 + weight now ps2.
Proof. apply sum_list_with_app. Qed.

Lemma poll_all_progress now ps :
  ps ≠ [] → weight (S now) (poll_all now ps).1.1 < weight now ps.
Proof.
  destruct ps as [|X rest]; [done|]. intros _.
  pose proof (poll_all_sublist now (X :: rest)) as Hsub.
  simpl in *. unfold poll in *.
  destruct (finish X <=? now) eqn:Hf.
  - assert (sublist (poll_all now (X :: rest)).1.1 rest) as Hsub'.
    { simpl. unfold poll. rewrite Hf.
      destruct rest as [|q rest']; simpl; [constructor|].
      pose proof (poll_all_sublist now rest') as H.
      destruct (poll_all now rest') as [[ps' e] tr]; simpl in *.
      by apply sublist_skip. }
    simpl in Hsub'. unfold poll in Hsub'. rewrite Hf in Hsub'.
    apply (weight_sublist (S now)) in Hsub'.
    pose proof (weight_tick now rest).
    change (weight now (X :: rest)) with (S (finish X - now) + weight now rest).
    lia.
  - apply Nat.leb_gt in Hf.
    pose proof (poll_all_sublist now rest) as Hrest.
    destruct (poll_all now rest) as [[ps' e] tr]; simpl in *.
    apply (weight_sublist (S now)) in Hrest.
    pose proof (weight_tick now rest).
    change (weight (S now) (X :: ps'))
      with (S (finish X - S now) + weight (S now) ps').
    change (weight now (X :: rest)) with (S (finish X - now) + weight now rest).
    lia.
Qed.

Lemma check_processes s :
  processes (check s) = (poll_all (clock s) (processes s)).1.1.
Proof. unfold check. by destruct (poll_all _ _) as [[? ?] ?]. Qed.

Lemma check_trace s :
  trace (check s) = trace s ++ (poll_all (clock s) (processes s)).2.
Proof. unfold check. by destruct (poll_all _ _) as [[? ?] ?]. Qed.

Lemma check_had_error s :
  had_error (check s) = had_error s || (poll_all (clock s) (processes s)).1.2.
Proof. unfold check. by destruct (poll_all _ _) as [[? ?] ?]. Qed.

Lemma check_cmds s : cmds (check s) = cmds s.
Proof. unfold check. by destruct (poll_all _ _) as [[? ?] ?]. Qed.

Lemma check_clock s : clock (check s) = clock s.
Proof. unfold check. by destruct (poll_all _ _) as [[? ?] ?]. Qed.

(** What the launch step does, as a case distinction. *)
Lemma spawn_cases h c s :
  (spawn h c s = s ∧
   (c ≤ length (processes s) ∨ had_error s = true ∨ cmds s = [])) ∨
  (∃ cmd rest,
     cmds s = rest ++ [cmd] ∧ length (processes s) < c ∧
     had_error s = false ∧
     spawn h c s =
       {| cmds := rest;
          processes := processes s ++
            [{| pid := launched s; args := cmd;
                finish := clock s + worker_duration h cmd;
                returncode := worker_status h cmd |}];
          had_error := false; clock := clock s;
          launched := S (launched s);
          trace := trace s ++ [Popen (launched s) cmd (clock s)] |}).
Proof.
  unfold spawn.
  destruct (length (processes s) <? c) eqn:Hc; simpl;
    [apply Nat.ltb_lt in Hc|apply Nat.ltb_ge in Hc; by left; auto].
  destruct (had_error s) eqn:He; simpl; [left; auto|].
  destruct (0 <? length (cmds s)) eqn:Hl; simpl.
  - destruct (pop (cmds s)) as [[cmd rest]|] eqn:Hp.
    + right. exists cmd, rest. apply pop_Some in Hp. auto.
    + left. apply pop_None in Hp. auto.
  - left. split; [done|]. do 2 right.
    apply Nat.ltb_ge in Hl. destruct (cmds s); [done|simpl in Hl; lia].
Qed.

Lemma iteration_decreases h c s :
  1 ≤ c → running s = true → remaining h (iteration h c s) < remaining h s.
Proof.
  intros Hc Hrun. unfold iteration, remaining. simpl.
  rewrite check_cmds, check_clock, check_processes.
  destruct (spawn_cases h c s) as [[-> Hno]|(cmd & rest & Hcmds & _ & _ & ->)].
  - assert (processes s ≠ []) as Hne.
    { unfold running in Hrun. intros Hnil. rewrite Hnil in *. simpl in *.
      destruct Hno as [?|[He|Hn]];
        [lia|rewrite He in Hrun|rewrite Hn in Hrun];
        simpl in Hrun; rewrite ?andb_false_r in Hrun; done. }
    pose proof (poll_all_progress (clock s) _ Hne). lia.
  - simpl. rewrite Hcmds, sum_list_with_app. simpl.
    match goal with |- context [poll_all ?n ?ps] =>
      assert (ps ≠ []) as Hne by (by destruct (processes s));
      pose proof (poll_all_progress n ps Hne) as Hp
    end.
    rewrite weight_app in Hp. unfold weight at 3 in Hp. simpl in Hp. lia.
Qed.

Lemma loop_terminates h c fuel s :
  1 ≤ c → remaining h s ≤ fuel → is_Some (loop fuel h c s).
Proof.
  intros Hc. revert s. induction fuel as [|fuel IH]; intros s Hs; simpl.
  - destruct (running s) eqn:Hrun; [|by eexists].
    pose proof (iteration_decreases h c s Hc Hrun). lia.
  - destruct (running s) eqn:Hrun; [|by eexists].
    apply IH. pose proof (iteration_decreases h c s Hc Hrun). lia.
Qed.

(** *** The loop invariant *)

Section Invariant.
Variables (h : host) (cs : list (list string)).

Lemma failure_not_launch ev : failure ev → launch ev → False.
Proof. intros (? & ? & ? & -> & _) (? & ? & ? & ?). discriminate. Qed.

Lemma inv_initial : inv h cs (initial cs).
Proof.
  split; simpl.
  - split; [discriminate|]. intros (ev & H & _). inversion H.
  - intros X H. inversion H.
  - intros p cmd t H. inversion H.
  - intros p rc t H. inversion H.
  - intros cmd. split; [auto|]. intros [?|(? & ? & H)]; [done|inversion H].
  - intros i j ev ev' H. by rewrite lookup_nil in H.
Qed.

Lemma inv_sleep s : inv h cs s → inv h cs (sleep s).
Proof. intros []. by split. Qed.

Lemma inv_spawn c s : inv h cs s → inv h cs (spawn h c s).
Proof.
  intros [Herr Hprocs Hlaunched Hexited Hbatch Horder].
  destruct (spawn_cases h c s) as [[-> _]|(cmd & rest & Hcmds & _ & He & ->)];
    [by split|].
  assert (∀ ev, ev ∈ trace s → ¬ failure ev) as Hclean.
  { intros ev Hev Hf.
    assert (had_error s = true) by (apply Herr; eauto). congruence. }
  split; simpl.
  - split; [discriminate|]. intros (ev & Hev & Hf).
    apply elem_of_app in Hev as [Hev|Hev%list_elem_of_singleton].
    + by destruct (Hclean ev).
    + subst ev. destruct Hf as (? & ? & ? & ? & _). discriminate.
  - intros X [HX|HX%list_elem_of_singleton]%elem_of_app.
    + destruct (Hprocs X HX) as (t & ? & ?). exists t.
      split; [apply elem_of_app; by left|done].
    + subst X. exists (clock s). simpl.
      split; [apply elem_of_app; right; by apply list_elem_of_singleton|done].
  - intros p cmd' t [H|H%list_elem_of_singleton]%elem_of_app.
    + destruct (Hlaunched p cmd' t H) as [?|(t' & ? & ?)].
      * left. apply elem_of_app. by left.
      * right. exists t'. split; [done|]. apply elem_of_app. by left.
    + injection H as -> -> ->. left.
      apply elem_of_app. right. by apply list_elem_of_singleton.
  - intros p rc t' [H|H%list_elem_of_singleton]%elem_of_app; [|discriminate].
    destruct (Hexited p rc t' H) as (cmd' & t & ? & ?).
    exists cmd', t. split; [apply elem_of_app; by left|done].
  - intros cmd'. rewrite Hbatch, Hcmds. split.
    + intros [[?| ->%list_elem_of_singleton]%elem_of_app|(p & t & ?)].
      * by left.
      * right. exists (launched s), (clock s).
        apply elem_of_app. right. by apply list_elem_of_singleton.
      * right. exists p, t. apply elem_of_app. by left.
    + intros [?|(p & t & [?|H%list_elem_of_singleton]%elem_of_app)].
      * left. apply elem_of_app. by left.
      * right. by exists p, t.
      * injection H as -> -> ->. left.
        apply elem_of_app. right. by apply list_elem_of_singleton.
  - intros i j ev ev' Hi Hf Hj Hl.
    apply lookup_app_Some in Hi as [Hi|[_ Hi]].
    + destruct (Hclean ev); [|done]. by eapply list_elem_of_lookup_2.
    + apply list_lookup_singleton_Some in Hi as [_ <-].
      destruct Hf as (? & ? & ? & ? & _). discriminate.
Qed.

Lemma inv_check s : inv h cs s → inv h cs (check s).
Proof.
  intros [Herr Hprocs Hlaunched Hexited Hbatch Horder].
  split; rewrite ?check_trace, ?check_processes, ?check_had_error, ?check_cmds.
  - rewrite orb_true_iff, Herr, poll_all_failed. split.
    + intros [(ev & ? & ?)|(p & rc & t & ? & ?)].
      * exists ev. split; [apply elem_of_app; by left|done].
      * exists (Exited p rc t).
        split; [apply elem_of_app; by right|]. by exists p, rc, t.
    + intros (ev & [?|Hev]%elem_of_app & Hf); [left; by exists ev|].
      right. destruct Hf as (p & rc & t & -> & ?). by exists p, rc, t.
  - intros X HX.
    pose proof (elem_of_sublist _ _ _ HX
                  (poll_all_sublist (clock s) (processes s))).
    destruct (Hprocs X) as (t & ? & ?); [done|].
    exists t. split; [apply elem_of_app; by left|done].
  - intros p cmd t [H|H]%elem_of_app; [|by apply poll_all_no_popen in H].
    destruct (Hlaunched p cmd t H) as [HX|(t' & ? & ?)].
    + apply (poll_all_kept_or_exited (clock s)) in HX as [?|[Hfin Hex]];
        [by left|].
      right. exists (clock s). split; [done|]. apply elem_of_app. by right.
    + right. exists t'. split; [done|]. apply elem_of_app. by left.
  - intros p rc t' [H|H]%elem_of_app.
    + destruct (Hexited p rc t' H) as (cmd & t & ? & ?).
      exists cmd, t. split; [apply elem_of_app; by left|done].
    + apply poll_all_exits in H as (X & HX & _ & H). injection H as -> -> ->.
      destruct (Hprocs X HX) as (t & ? & HXeq).
      exists (args X), t. split; [apply elem_of_app; by left|].
      by rewrite HXeq at 1.
  - intros cmd. rewrite Hbatch. split.
    + intros [?|(p & t & ?)]; [by left|].
      right. exists p, t. apply elem_of_app. by left.
    + intros [?|(p & t & [?|H]%elem_of_app)]; [by left|right; by exists p, t|].
      by apply poll_all_no_popen in H.
  - intros i j ev ev' Hi Hf Hj Hl.
    apply lookup_app_Some in Hj as [Hj|[_ Hj]].
    + apply lookup_app_Some in Hi as [Hi|[Hlen _]]; [by eapply Horder|].
      apply lookup_lt_Some in Hj. lia.
    + destruct Hl as (p & cmd & t & ->).
      apply list_elem_of_lookup_2, poll_all_no_popen in Hj. done.
Qed.

Lemma inv_iteration c s : inv h cs s → inv h cs (iteration h c s).
Proof. intros. by apply inv_sleep, inv_check, inv_spawn. Qed.

Lemma inv_loop fuel c s s' :
  inv h cs s → loop fuel h c s = Some s' → inv h cs s' ∧ running s' = false.
Proof.
  revert s. induction fuel as [|fuel IH]; intros s Hinv; simpl;
    destruct (running s) eqn:Hrun; try discriminate.
  - intros [= <-]. done.
  - intros H. eapply IH; [|done]. by apply inv_iteration.
  - intros [= <-]. done.
Qed.

(** When the loop has stopped no handle is left. *)
Lemma stopped_drained s : running s = false → processes s = [].
Proof.
  unfold running. destruct (processes s) as [|X ps]; [done|]. simpl.
  rewrite orb_true_r. done.
Qed.

Lemma stopped_done s :
  running s = false → had_error s = false → cmds s = [].
Proof.
  intros Hrun He. pose proof (stopped_drained s Hrun) as Hp.
  unfold running in Hrun. rewrite Hp, He in Hrun. simpl in Hrun.
  destruct (cmds s); [done|]. simpl in Hrun. done.
Qed.

End Invariant.

(** *** The batch path as a whole *)

Lemma concurrency_pos h simulator :
  1 ≤ cpu_count h → 1 ≤ concurrency h simulator.
Proof. unfold concurrency. by destruct (String.eqb _ _). Qed.

(** With at least one processing unit the batch path returns, and the
    invariant holds of the state it stops in. *)
Lemma execute_networks_batch `{Number F} h (jh : job_host F) input_files
    simulator analyse :
  1 < length input_files → 1 ≤ cpu_count h →
  ∃ fuel s,
    execute_networks fuel h jh input_files simulator analyse
      = Some (Ok (negb (had_error s)), trace s) ∧
    inv h (commands h input_files simulator analyse) s ∧
    running s = false.
Proof.
  intros Hlen Hcpu.
  set (cs := commands h input_files simulator analyse).
  set (c := concurrency h simulator).
  destruct (loop_terminates h c (remaining h (initial cs)) (initial cs))
    as [s Hs]; [by apply concurrency_pos|done|].
  exists (remaining h (initial cs)), s.
  destruct (inv_loop h cs _ c _ _ (inv_initial h cs) Hs) as [Hinv Hrun].
  split; [|done].
  unfold execute_networks. apply Nat.ltb_lt in Hlen. rewrite Hlen.
  fold cs c. by rewrite Hs.
Qed.

Lemma inv_all_completed h cs s :
  inv h cs s → running s = false → all_completed h (trace s).
Proof.
  intros Hinv Hrun p cmd t Hp.
  destruct (inv_launched _ _ _ Hinv p cmd t Hp) as [HX|?]; [|done].
  rewrite (stopped_drained s Hrun) in HX. inversion HX.
Qed.

Lemma inv_success h cs s :
  inv h cs s → running s = false →
  negb (had_error s) = true ↔
  ∀ p cmd t, Popen p cmd t ∈ trace s → worker_status h cmd = 0%Z.
Proof.
  intros Hinv Hrun. rewrite negb_true_iff. split.
  - intros He p cmd t Hp.
    destruct (inv_all_completed h cs s Hinv Hrun p cmd t Hp) as (t' & _ & Hex).
    destruct (decide (worker_status h cmd = 0%Z)) as [|Hne]; [done|].
    assert (had_error s = true); [|congruence].
    apply (inv_error _ _ _ Hinv). eexists. split; [done|]. by eexists _, _, _.
  - intros Hall. destruct (had_error s) eqn:He; [|done].
    apply (inv_error _ _ _ Hinv) in He as (ev & Hev & p & rc & t & -> & Hrc).
    destruct (inv_exited _ _ _ Hinv p rc t Hev) as (cmd & t0 & Hp & ->).
    by apply Hall in Hp.
Qed.

(** *** Output file names *)

Lemma string_length_app (p s : string) :
  String.length (p +:+ s) = String.length p + String.length s.
Proof. induction p as [|a p IH]; simpl; [done|by rewrite IH]. Qed.

Lemma substring_all (s : string) : String.substring 0 (String.length s) s = s.
Proof. induction s as [|a s IH]; simpl; [done|by rewrite IH]. Qed.

Lemma substring_prefix_app (p s : string) :
  String.substring 0 (String.length p) (p +:+ s) = p.
Proof. induction p as [|a p IH]; simpl; [by destruct s|by rewrite IH]. Qed.

Lemma substring_suffix_app (p s : string) :
  String.substring (String.length p) (String.length s) (p +:+ s) = s.
Proof. induction p; simpl; [apply substring_all|done]. Qed.

Lemma substring_split (s : string) n :
  n ≤ String.length s →
  s = String.substring 0 n s +:+ String.substring n (String.length s - n) s.
Proof.
  revert n. induction s as [|a s IH]; intros [|n] Hn; simpl in *; try lia.
  - done.
  - by rewrite substring_all.
  - change (String a s = String a (String.substring 0 n s +:+
                       String.substring n (String.length s - n) s)).
    f_equal. apply IH. lia.
Qed.

Lemma endswith_app (p suffix : string) : endswith (p +:+ suffix) suffix = true.
Proof.
  unfold endswith. rewrite string_length_app.
  replace (String.length p + String.length suffix - String.length suffix)
    with (String.length p) by lia.
  rewrite substring_suffix_app, String.eqb_refl, andb_true_r.
  apply Nat.leb_le. lia.
Qed.

Lemma drop_last_app (p suffix : string) :
  drop_last (String.length suffix) (p +:+ suffix) = p.
Proof.
  unfold drop_last. rewrite string_length_app.
  replace (String.length p + String.length suffix - String.length suffix)
    with (String.length p) by lia.
  apply substring_prefix_app.
Qed.

Lemma endswith_inv (s suffix : string) :
  endswith s suffix = true → ∃ stem, s = stem +:+ suffix.
Proof.
  unfold endswith. intros [Hlen Heq]%andb_true_iff.
  apply Nat.leb_le in Hlen. apply String.eqb_eq in Heq.
  exists (String.substring 0 (String.length s - String.length suffix) s).
  pose proof (substring_split s (String.length s - String.length suffix)) as H.
  replace (String.length s - (String.length s - String.length suffix))
    with (String.length suffix) in H by lia.
  rewrite Heq in H. apply H. lia.
Qed.

Lemma output_file_stem stem analyse :
  output_file (stem +:+ ".in.gz") analyse
  = stem +:+ (if analyse then ".out.mat" else ".out.gz").
Proof.
  unfold output_file. rewrite endswith_app.
  pose proof (drop_last_app stem ".in.gz") as Hin. simpl in Hin. rewrite Hin.
  destruct analyse; [|done]. apply (f_equal (λ s, s +:+ ".out.mat")).
  apply (drop_last_app stem ".out.gz").
Qed.

Lemma output_file_other input_file analyse :
  endswith input_file ".in.gz" = false →
  output_file input_file analyse
  = input_file +:+ (if analyse then ".out.mat" else ".out.gz").
Proof.
  unfold output_file. intros ->.
  destruct analyse; [|done]. apply (f_equal (λ s, s +:+ ".out.mat")).
  apply (drop_last_app input_file ".out.gz").
Qed.

(** *** The launch bound *)

Lemma spawn_bound h c s :
  length (processes s) ≤ c → length (processes (spawn h c s)) ≤ c.
Proof.
  intros Hle.
  destruct (spawn_cases h c s) as [[-> _]|(cmd & rest & _ & Hlt & _ & ->)];
    [done|].
  simpl. rewrite length_app. simpl. lia.
Qed.

Lemma check_bound s : length (processes (check s)) ≤ length (processes s).
Proof. rewrite check_processes. apply sublist_length, poll_all_sublist. Qed.

Lemma snapshots_bound fuel h c s :
  length (processes s) ≤ c →
  Forall (λ s', length (processes s') ≤ c) (snapshots fuel h c s).
Proof.
  revert s. induction fuel as [|fuel IH]; intros s Hs; simpl.
  - constructor; [done|]. destruct (running s); constructor.
  - constructor; [done|]. destruct (running s); [|constructor].
    pose proof (spawn_bound h c s Hs) as Hsp.
    pose proof (check_bound (spawn h c s)) as Hch.
    constructor; [done|]. constructor; [lia|].
    apply IH. unfold iteration. simpl. lia.
Qed.

(** The state the loop stops in is the last of the program points. *)
Lemma loop_snapshots fuel h c s s' :
  loop fuel h c s = Some s' → s' ∈ snapshots fuel h c s.
Proof.
  revert s. induction fuel as [|fuel IH]; intros s; simpl;
    destruct (running s); try discriminate.
  - intros [= <-]. left.
  - intros H. do 3 right. by apply IH.
  - intros [= <-]. left.
Qed.

(** *** The scheduler's contract *)

(** Facts about the events of an explicit trace. *)
Ltac single_job_step :=
  match goal with
  | |- _ ∧ _ => split
  | |- _ ↔ _ => split
  | |- ∀ _, _ => intro
  | |- _ → _ => intro
  | |- ¬ _ => intro
  | H : _ ∧ _ |- _ => destruct H
  | H : ∃ _, _ |- _ => destruct H
  | H : _ ∈ _ :: _ |- _ => apply elem_of_cons in H as [H|H]
  | H : _ ∈ [] |- _ => by apply elem_of_nil in H
  | H : is_Some None |- _ => by destruct H
  | H : is_Some ?x, H' : ?x = None |- _ => rewrite H' in H
  | H : true = true → _ |- _ => specialize (H eq_refl)
  end.

Ltac single_job :=
  repeat single_job_step; simplify_eq; repeat single_job_step;
  try done; try congruence;
  try (by eexists; repeat split; eauto);
  eauto 10 using list_elem_of_here, list_elem_of_further.

(** C4. A batch of more than one job file on a host with at least one
    processing unit returns; the value returned is [true] exactly when
    every worker that was launched exited with status zero, which is the
    case exactly when every job of the batch exits with status zero. Every
    launched worker is waited for, and one non-zero exit status makes the
    batch report failure. *)
Theorem execute_networks_success_iff `{Number F} h (jh : job_host F)
    input_files simulator analyse :
  1 < length input_files → 1 ≤ cpu_count h →
  ∃ fuel b tr,
    execute_networks fuel h jh input_files simulator analyse
      = Some (Ok b, tr) ∧
    all_completed h tr ∧
    (b = true ↔ ∀ p cmd t, Popen p cmd t ∈ tr → worker_status h cmd = 0%Z) ∧
    (b = true ↔
     ∀ cmd, cmd ∈ commands h input_files simulator analyse →
            worker_status h cmd = 0%Z) ∧
    (∀ p rc t, Exited p rc t ∈ tr → rc ≠ 0%Z → b = false).
Proof.
  intros Hlen Hcpu.
  destruct (execute_networks_batch h jh input_files simulator analyse
              Hlen Hcpu) as (fuel & s & Hex & Hinv & Hrun).
  exists fuel, (negb (had_error s)), (trace s).
  pose proof (inv_success h _ s Hinv Hrun) as Hok.
  split; [done|]. split; [by eapply inv_all_completed|].
  split; [done|]. split.
  - rewrite Hok. split.
    + intros Hall cmd Hcmd.
      apply (inv_batch _ _ _ Hinv) in Hcmd as [Hcmd|(p & t & Hp)];
        [|by eapply Hall].
      rewrite (stopped_done s Hrun) in Hcmd; [inversion Hcmd|].
      apply negb_true_iff, Hok, Hall.
    + intros Hall p cmd t Hp. apply Hall, (inv_batch _ _ _ Hinv). eauto.
  - intros p rc t Hev Hrc. apply negb_false_iff, (inv_error _ _ _ Hinv).
    eexists. split; [done|]. by eexists _, _, _.
Qed.

(** Witness for C4: the three-job batch of [Demo] on its two-unit host. *)
Lemma execute_networks_success_iff_witness :
  ∃ fuel b tr,
    execute_networks fuel Demo.host2 DemoHost.quiet Demo.batch "nest" false
      = Some (Ok b, tr) ∧
    all_completed Demo.host2 tr ∧
    (b = true ↔
     ∀ p cmd t, Popen p cmd t ∈ tr → worker_status Demo.host2 cmd = 0%Z) ∧
    (b = true ↔
     ∀ cmd, cmd ∈ commands Demo.host2 Demo.batch "nest" false →
            worker_status Demo.host2 cmd = 0%Z) ∧
    (∀ p rc t, Exited p rc t ∈ tr → rc ≠ 0%Z → b = false).
Proof.
  apply (execute_networks_success_iff Demo.host2 DemoHost.quiet Demo.batch
           "nest" false);
    simpl; lia.
Defined.

(** C5. For a batch of more than one job file the loop runs under the limit
    [concurrency], which is 1 when the normalised simulator name is
    ["nmpm1"], whatever the number of processing units, and the number of
    processing units otherwise. *)
Theorem concurrency_limit `{Number F} fuel h (jh : job_host F) input_files
    simulator analyse :
  1 < length input_files →
  execute_networks fuel h jh input_files simulator analyse
  = (s ← loop fuel h (concurrency h simulator)
           (initial (commands h input_files simulator analyse));
     Some (Ok (negb (had_error s)), trace s)) ∧
  (normalized_simulator_name h simulator = "nmpm1" →
   concurrency h simulator = 1) ∧
  (normalized_simulator_name h simulator ≠ "nmpm1" →
   concurrency h simulator = cpu_count h).
Proof.
  intros Hlen. split; [|split].
  - unfold execute_networks. apply Nat.ltb_lt in Hlen. by rewrite Hlen.
  - unfold concurrency. by intros ->.
  - unfold concurrency. intros Hne. apply String.eqb_neq in Hne.
    by rewrite Hne.
Qed.

(** Witness for C5: on the two-unit host of [Demo] the hardware back-end
    gets the limit 1. *)
Lemma concurrency_limit_witness :
  execute_networks 40 Demo.host2 DemoHost.quiet Demo.batch "nmpm1" false
  = (s ← loop 40 Demo.host2 (concurrency Demo.host2 "nmpm1")
           (initial (commands Demo.host2 Demo.batch "nmpm1" false));
     Some (Ok (negb (had_error s)), trace s)) ∧
  (normalized_simulator_name Demo.host2 "nmpm1" = "nmpm1" →
   concurrency Demo.host2 "nmpm1" = 1) ∧
  (normalized_simulator_name Demo.host2 "nmpm1" ≠ "nmpm1" →
   concurrency Demo.host2 "nmpm1" = cpu_count Demo.host2).
Proof.
  apply (concurrency_limit 40 Demo.host2 DemoHost.quiet Demo.batch "nmpm1"
           false).
  simpl. lia.
Defined.

(** C6. At every program point of the scheduling loop (the loop head, after
    the launch step, after the polling step) the number of handles in
    [processes] is at most the limit [c], for every limit, every batch and
    every behaviour of the workers. *)
Theorem in_flight_bounded fuel h c cs :
  Forall (λ s, length (processes s) ≤ c) (snapshots fuel h c (initial cs)).
Proof. apply snapshots_bound. simpl. lia. Qed.

(** C7. A batch run on a host with at least one processing unit returns.
    In its trace no launch follows a non-zero exit, every launched worker
    is reaped only at or after the time it finishes and with its own exit
    status, and a non-zero exit makes the result [false]. In any state,
    once the error flag is set the launch step does nothing and the loop
    stops as soon as no handle is left. *)
Theorem failure_stops_launching `{Number F} h (jh : job_host F) input_files
    simulator analyse :
  1 < length input_files → 1 ≤ cpu_count h →
  (∃ fuel b tr,
     execute_networks fuel h jh input_files simulator analyse
       = Some (Ok b, tr) ∧
     no_launch_after_failure tr ∧
     all_completed h tr ∧
     ((∃ ev, ev ∈ tr ∧ failure ev) → b = false)) ∧
  (∀ c s, had_error s = true → spawn h c s = s) ∧
  (∀ s, had_error s = true → processes s = [] → running s = false).
Proof.
  intros Hlen Hcpu. split; [|split].
  - destruct (execute_networks_batch h jh input_files simulator analyse
                Hlen Hcpu) as (fuel & s & Hex & Hinv & Hrun).
    exists fuel, (negb (had_error s)), (trace s).
    split; [done|]. split; [apply (inv_order _ _ _ Hinv)|].
    split; [by eapply inv_all_completed|].
    intros Hf. by apply negb_false_iff, (inv_error _ _ _ Hinv).
  - intros c s He. unfold spawn. by rewrite He, andb_false_r.
  - intros s He Hp. unfold running. rewrite He, Hp. simpl.
    by rewrite andb_false_r.
Qed.

(** Witness for C7: the batch of [Demo], whose job [b.in.gz] fails. *)
Lemma failure_stops_launching_witness :
  (∃ fuel b tr,
     execute_networks fuel Demo.host2 DemoHost.quiet Demo.batch "nest" true
       = Some (Ok b, tr) ∧
     no_launch_after_failure tr ∧
     all_completed Demo.host2 tr ∧
     ((∃ ev, ev ∈ tr ∧ failure ev) → b = false)) ∧
  (∀ c s, had_error s = true → spawn Demo.host2 c s = s) ∧
  (∀ s, had_error s = true → processes s = [] → running s = false).
Proof.
  apply (failure_stops_launching Demo.host2 DemoHost.quiet Demo.batch "nest"
           true);
    simpl; lia.
Defined.

(** C10. With exactly one input file [execute_networks] returns for
    every fuel, and no process is launched, whatever the outcome. Every
    write it makes goes to the file [output_file input_file analyse], which
    is [stem.out.gz] for an input [stem.in.gz] and the input name followed
    by [.out.gz] for any other input, with [.out.mat] in place of
    [.out.gz] when the result is analysed first; with [analyse] the write
    is the [savemat] that follows the inline analysis, without it the
    [write_object]. A write is made only when the job file was read, the
    simulation gave an output with the timings [sim] and [total], and the
    inline analysis (if asked for) returned; the call returns [True]
    exactly when, besides, the write succeeds, and then the trace is the
    read, the simulation, the analysis if asked for, and the write. An
    exception of the read, of the simulation or of the inline analysis is
    passed on, and nothing is written. *)
Theorem single_job_output_file `{Number F} fuel h (jh : job_host F)
    input_file simulator (analyse : bool) :
  let ext := if analyse then ".out.mat" else ".out.gz" in
  let out := output_file input_file analyse in
  let ready :=
    unreadable jh input_file = None ∧
    ∃ output,
      simulation jh simulator input_file = Ok output ∧
      is_Some (Analysis.times output !! "sim") ∧
      is_Some (Analysis.times output !! "total") ∧
      (analyse = true →
       ∃ result, Analysis.analyse_output output ∅ = Ok result) in
  (∃ r tr,
     execute_networks fuel h jh [input_file] simulator analyse
       = Some (r, tr) ∧
     (∀ p cmd t, Popen p cmd t ∉ tr) ∧
     (∀ f, Savemat f ∈ tr →
           f = out ∧ analyse = true ∧ AnalyseOutput ∈ tr ∧ ready) ∧
     (∀ f, WriteObject f ∈ tr → f = out ∧ analyse = false ∧ ready) ∧
     (r = Ok true ↔ ready ∧ unwritable jh out = None) ∧
     (r = Ok true →
      tr = ReadObject input_file :: Simulate input_file ::
           (if analyse then [AnalyseOutput; Savemat out]
            else [WriteObject out])) ∧
     (∀ e, unreadable jh input_file = Some e → r = Raise e) ∧
     (∀ e, unreadable jh input_file = None →
           simulation jh simulator input_file = Raise e → r = Raise e) ∧
     (∀ output e,
        unreadable jh input_file = None →
        simulation jh simulator input_file = Ok output →
        is_Some (Analysis.times output !! "sim") →
        is_Some (Analysis.times output !! "total") →
        analyse = true →
        Analysis.analyse_output output ∅ = Raise e → r = Raise e)) ∧
  (∀ stem, input_file = stem +:+ ".in.gz" → out = stem +:+ ext) ∧
  ((∀ stem, input_file ≠ stem +:+ ".in.gz") → out = input_file +:+ ext).
Proof.
  cbv zeta. split; [|split].
  - exists (execute_network jh input_file simulator analyse).1,
           (execute_network jh input_file simulator analyse).2.
    split; [unfold execute_networks; simpl;
            by destruct (execute_network _ _ _ _)|].
    unfold execute_network, written.
    destruct (unreadable jh input_file) as [e0|] eqn:Hread; simpl;
      [single_job|].
    destruct (simulation jh simulator input_file) as [output|e1] eqn:Hsim;
      simpl; [|single_job].
    destruct (Analysis.times output !! "sim") as [t1|] eqn:Ht1; simpl;
      [|single_job].
    destruct (Analysis.times output !! "total") as [t2|] eqn:Ht2; simpl;
      [|single_job].
    destruct analyse; simpl.
    + destruct (Analysis.analyse_output output ∅) as [res|e2] eqn:Hres;
        simpl; [|single_job].
      destruct (unwritable jh _) as [e3|] eqn:Hw; simpl; single_job.
    + destruct (unwritable jh _) as [e3|] eqn:Hw; simpl; single_job.
  - intros stem ->. apply output_file_stem.
  - intros Hno. apply output_file_other.
    destruct (endswith input_file ".in.gz") eqn:He; [|done].
    apply endswith_inv in He as [stem ->]. by destruct (Hno stem).
Qed.

(** The error paths of the single-job path on the environment [flaky]: a
    job file that cannot be read, a job whose inline analysis raises (and
    which is written when it is not analysed), and a write that fails. *)
Example execute_networks_single_demo :
  execute_networks 0 Demo.host2 DemoHost.flaky ["gone.in.gz"] "nest" true
  = Some (Raise IOError, [ReadObject "gone.in.gz"]) ∧
  execute_networks 0 Demo.host2 DemoHost.flaky ["odd.in.gz"] "nest" true
  = Some (Raise KeyError,
          [ReadObject "odd.in.gz"; Simulate "odd.in.gz"; AnalyseOutput]) ∧
  execute_networks 0 Demo.host2 DemoHost.flaky ["odd.in.gz"] "nest" false
  = Some (Ok true,
          [ReadObject "odd.in.gz"; Simulate "odd.in.gz";
           WriteObject "odd.out.gz"]) ∧
  execute_networks 0 Demo.host2 DemoHost.flaky ["full.in.gz"] "nest" false
  = Some (Raise IOError,
          [ReadObject "full.in.gz"; Simulate "full.in.gz";
           WriteObject "full.out.gz"]) ∧
  execute_networks 0 Demo.host2 DemoHost.flaky ["a.in.gz"] "nest" true
  = Some (Ok true,
          [ReadObject "a.in.gz"; Simulate "a.in.gz"; AnalyseOutput;
           Savemat "a.out.mat"]).
Proof. vm_compute. done. Qed.

(** The scheduler on the batch of [Demo]: jobs are taken from the end of
    the list, one per round; the third job is launched in the round in
    which the failure of the second is then seen, and is waited for. *)
Example execute_networks_demo :
  execute_networks 40 Demo.host2 DemoHost.quiet Demo.batch "nest" false
  = Some (Ok false,
          [Popen 0 ["python"; "run.py"; "nest"; "--exec"; "c.in.gz"] 0;
           Popen 1 ["python"; "run.py"; "nest"; "--exec"; "b.in.gz"] 1;
           Exited 0 0 7;
           Popen 2 ["python"; "run.py"; "nest"; "--exec"; "a.in.gz"] 8;
           Exited 1 1 8; Exited 2 0 15]).
Proof. vm_compute. reflexivity. Qed.

(** With the hardware back-end the jobs run one after the other and the
    failure of the second keeps the third from being launched. *)
Example execute_networks_demo_exclusive :
  execute_networks 40 Demo.host2 DemoHost.quiet Demo.batch "nmpm1" false
  = Some (Ok false,
          [Popen 0 ["python"; "run.py"; "nmpm1"; "--exec"; "c.in.gz"] 0;
           Exited 0 0 7;
           Popen 1 ["python"; "run.py"; "nmpm1"; "--exec"; "b.in.gz"] 8;
           Exited 1 1 15]).
Proof. vm_compute. reflexivity. Qed.

Example output_file_demo :
  output_file "out/exp_0.in.gz" false = "out/exp_0.out.gz" ∧
  output_file "out/exp_0.in.gz" true = "out/exp_0.out.mat" ∧
  output_file "net.bin" true = "net.bin.out.mat".
Proof. vm_compute. done. Qed.
End SchedulerFacts.

(** * Properties of the stable sort and of [np.lexsort] *)

Module SortFacts.
Import NumPy Analysis AnalysisAux.

Section StableSort.
Context {A : Type} (le : A → A → bool).
Hypothesis le_total : ∀ x y, le x y = true ∨ le y x = true.
Hypothesis le_trans : ∀ x y z, le x y = true → le y z = true → le x z = true.

Lemma insert_stable_perm x l : insert_stable le x l ≡ₚ x :: l.
Proof.
  induction l as [|y l IH]; simpl; [done|].
  destruct (le x y); [done|]. rewrite IH. apply Permutation_swap.
Qed.

Lemma sort_stable_perm l : sort_stable le l ≡ₚ l.
Proof.
  induction l as [|x l IH]; simpl; [done|].
  by rewrite insert_stable_perm, IH.
Qed.

Lemma insert_stable_sorted (R : relation A) x s :
  StronglySorted (refined le R) s → Forall (R x) s →
  StronglySorted (refined le R) (insert_stable le x s).
Proof.
  induction s as [|y s IH]; simpl; intros Hs HR.
  - repeat constructor.
  - apply StronglySorted_inv in Hs as [Hs Hy].
    apply Forall_cons in HR as [HRy HRs].
    destruct (le x y) eqn:Hxy.
    + constructor; [by constructor|].
      constructor; [by split|].
      rewrite Forall_forall in Hy, HRs. apply Forall_forall. intros z Hz.
      destruct (Hy z Hz) as [Hyz _].
      split; [by eapply le_trans|]. intros _. by apply HRs.
    + assert (le y x = true) as Hyx by (by destruct (le_total x y); congruence).
      constructor; [by apply IH|].
      rewrite insert_stable_perm. constructor; [|done].
      split; [done|]. congruence.
Qed.

Lemma sort_stable_sorted (R : relation A) l :
  StronglySorted R l → StronglySorted (refined le R) (sort_stable le l).
Proof.
  induction l as [|x l IH]; simpl; intros Hl; [constructor|].
  apply StronglySorted_inv in Hl as [Hl Hx].
  apply insert_stable_sorted; [by apply IH|].
  by rewrite sort_stable_perm.
Qed.

(** Stability: the elements of a class that [le] does not tell apart stay
    in the order they had. *)
Lemma insert_stable_filter (P : A → bool) x s :
  (∀ a b, P a = true → P b = true → le a b = true) →
  filter (λ a, P a = true) (insert_stable le x s)
  = filter (λ a, P a = true) (x :: s).
Proof.
  intros HP. induction s as [|y s IH]; simpl; [done|].
  destruct (le x y) eqn:Hxy; [done|].
  rewrite filter_cons, IH, !filter_cons.
  destruct (decide (P y = true)) as [Hy|Hy],
           (decide (P x = true)) as [Hx|Hx]; try done.
  rewrite (HP x y Hx Hy) in Hxy. discriminate.
Qed.

Lemma sort_stable_filter (P : A → bool) l :
  (∀ a b, P a = true → P b = true → le a b = true) →
  filter (λ a, P a = true) (sort_stable le l) = filter (λ a, P a = true) l.
Proof.
  intros HP. induction l as [|x l IH]; simpl; [done|].
  rewrite insert_stable_filter, !filter_cons, IH by done. done.
Qed.

End StableSort.

Lemma sort_stable_ext {A} (le1 le2 : A → A → bool) l :
  (∀ a b, le1 a b = le2 a b) → sort_stable le1 l = sort_stable le2 l.
Proof.
  intros Hext. induction l as [|x l IH]; simpl; [done|]. rewrite IH.
  generalize (sort_stable le2 l). intros s.
  induction s as [|y s IHs]; simpl; [done|]. by rewrite Hext, IHs.
Qed.

(** Sorting indices by the keys they point to is sorting what they point
    to. *)
Lemma sort_stable_map {A B} (f : A → B) (le : B → B → bool) l :
  map f (sort_stable (λ a b, le (f a) (f b)) l) = sort_stable le (map f l).
Proof.
  induction l as [|x l IH]; simpl; [done|]. rewrite <- IH.
  generalize (sort_stable (λ a b, le (f a) (f b)) l). intros s.
  induction s as [|y s IHs]; simpl; [done|].
  destruct (le (f x) (f y)); simpl; [done|]. by rewrite IHs.
Qed.

End SortFacts.

(** * Properties of the finaliser *)

Module FinalizerFacts.
Import NumPy Analysis AnalysisAux SortFacts.

Section Finalizer.
Context {F : Type} `{NumberOrder F}.

Lemma col_leb_total j (r1 r2 : list F) :
  col_leb j r1 r2 = true ∨ col_leb j r2 r1 = true.
Proof. apply f_leb_total. Qed.

Lemma col_leb_trans j (r1 r2 r3 : list F) :
  col_leb j r1 r2 = true → col_leb j r2 r3 = true → col_leb j r1 r3 = true.
Proof. apply f_leb_trans. Qed.

Lemma col_leb_refl j (r : list F) : col_leb j r r = true.
Proof. by destruct (col_leb_total j r r). Qed.

(** *** The index array of [np.lexsort] and the rows it selects *)

Lemma column_lookup j (rows : list (list F)) i :
  column j rows !!! i = (rows !!! i) !!! j.
Proof.
  unfold column. revert i.
  induction rows as [|r rows IH]; intros [|i]; simpl; auto.
Qed.

Lemma column_length j (rows : list (list F)) :
  length (column j rows) = length rows.
Proof. apply length_map. Qed.

Lemma take_rows_seq (rows : list (list F)) :
  take_rows rows (seq 0 (length rows)) = rows.
Proof.
  unfold take_rows. induction rows as [|r rows IH]; simpl; [done|].
  f_equal. rewrite <- seq_shift, map_map. simpl. exact IH.
Qed.

(** The passes of the lexsort on the rows themselves. *)
Lemma take_rows_passes (rows : list (list F)) js perm :
  take_rows rows
    (foldl (λ perm key,
              sort_stable (λ i j, f_leb (key !!! i) (key !!! j)) perm)
           perm (map (λ j, column j rows) js))
  = foldl (λ rs j, sort_by_column j rs) (take_rows rows perm) js.
Proof.
  revert perm. induction js as [|j js IH]; intros perm; simpl; [done|].
  rewrite IH. f_equal. unfold sort_by_column, take_rows.
  rewrite <- (sort_stable_map (λ i, rows !!! i) (col_leb j)).
  f_equal. apply sort_stable_ext. intros a b.
  unfold col_leb. by rewrite !column_lookup.
Qed.

Lemma sort_data_rows d c (rows : list (list F)) :
  0 < d → 0 < c →
  sort_data d (Arr2 c rows)
  = Ok (Arr2 c (foldl (λ rs j, sort_by_column j rs) rows (seq 0 (d `min` c)))).
Proof.
  intros Hd Hc. unfold sort_data, key_columns.
  destruct (d `min` c) as [|m] eqn:Hm; [lia|].
  pose proof (take_rows_passes rows (seq 0 (S m)) (seq 0 (length rows))) as Hp.
  rewrite take_rows_seq in Hp. rewrite <- Hp.
  unfold lexsort. cbn [seq map]. by rewrite column_length.
Qed.

(** *** What the passes establish *)

Lemma passes_perm js (rows : list (list F)) :
  foldl (λ rs j, sort_by_column j rs) rows js ≡ₚ rows.
Proof.
  revert rows. induction js as [|j js IH]; intros rows; simpl; [done|].
  rewrite IH. apply sort_stable_perm.
Qed.

Lemma passes_S d (rows : list (list F)) :
  foldl (λ rs j, sort_by_column j rs) rows (seq 0 (S d))
  = sort_by_column d (foldl (λ rs j, sort_by_column j rs) rows (seq 0 d)).
Proof. by rewrite seq_S, foldl_app. Qed.

Lemma passes_sorted d (rows : list (list F)) :
  StronglySorted (key_le d)
    (foldl (λ rs j, sort_by_column j rs) rows (seq 0 d)).
Proof.
  induction d as [|d IH].
  - simpl. induction rows as [|r rows IHr]; constructor; [done|].
    by apply Forall_forall.
  - rewrite passes_S.
    apply (sort_stable_sorted (col_leb d) (col_leb_total d) (col_leb_trans d)
             (key_le d)), IH.
Qed.

Lemma passes_stable (P : list F → bool) d (rows : list (list F)) :
  (∀ j a b, j < d → P a = true → P b = true → col_leb j a b = true) →
  filter (λ r, P r = true) (foldl (λ rs j, sort_by_column j rs) rows (seq 0 d))
  = filter (λ r, P r = true) rows.
Proof.
  induction d as [|d IH]; intros HP; [done|].
  rewrite passes_S. unfold sort_by_column at 1.
  rewrite sort_stable_filter.
  - apply IH. intros j a b Hj. apply HP. lia.
  - intros a b. apply HP. lia.
Qed.

Lemma same_key_col d j (r0 r : list F) :
  same_key d r0 r = true → j < d →
  col_leb j r0 r = true ∧ col_leb j r r0 = true.
Proof.
  induction d as [|d IH]; simpl; [lia|].
  intros [[H1 H2]%andb_true_iff H3]%andb_true_iff Hj.
  destruct (decide (j = d)) as [->|]; [done|]. apply IH; [done|lia].
Qed.

Lemma passes_same_key r0 d (rows : list (list F)) :
  filter (λ r, same_key d r0 r = true)
    (foldl (λ rs j, sort_by_column j rs) rows (seq 0 d))
  = filter (λ r, same_key d r0 r = true) rows.
Proof.
  apply passes_stable. intros j a b Hj Ha Hb.
  destruct (same_key_col d j r0 a Ha Hj) as [_ Ha'].
  destruct (same_key_col d j r0 b Hb Hj) as [Hb' _].
  by eapply col_leb_trans.
Qed.

End Finalizer.

Section Mapping.
Context {F : Type} `{Number F}.

(** [finalize_analysis] finalises every table, and raises when one of them
    does. *)
Lemma finalize_analysis_spec (result : gmap string (table F)) :
  match finalize_analysis result with
  | Ok final =>
      ∀ name,
        match result !! name with
        | Some res => ∃ f, finalize_table res = Ok f ∧ final !! name = Some f
        | None => final !! name = None
        end
  | Raise _ => ∃ name res, result !! name = Some res ∧ raised (finalize_table res)
  end.
Proof.
  unfold finalize_analysis.
  apply (map_fold_weak_ind (λ r (m : gmap string (table F)),
    match r with
    | Ok final =>
        ∀ name,
          match m !! name with
          | Some res => ∃ f, finalize_table res = Ok f ∧ final !! name = Some f
          | None => final !! name = None
          end
    | Raise _ => ∃ name res, m !! name = Some res ∧ raised (finalize_table res)
    end)).
  - intros name. by rewrite !lookup_empty.
  - intros name res m [final|e] Hfresh IH; simpl.
    + destruct (finalize_table res) as [f|e] eqn:Hf; simpl.
      * intros name'. destruct (decide (name = name')) as [<-|Hne].
        { rewrite !lookup_insert_eq. by exists f. }
        rewrite !lookup_insert_ne by done. apply IH.
      * exists name, res. rewrite lookup_insert_eq. split; [done|by exists e].
    + destruct IH as (name' & res' & Hl & Hr). exists name', res'.
      split; [|done]. rewrite lookup_insert_ne; [done|]. congruence.
Qed.

Lemma finalize_analysis_returns (result : gmap string (table F)) :
  (∀ name res, result !! name = Some res → ∃ f, finalize_table res = Ok f) →
  ∃ final, finalize_analysis result = Ok final.
Proof.
  intros Hall. pose proof (finalize_analysis_spec result) as Hspec.
  destruct (finalize_analysis result) as [final|e]; [by exists final|].
  destruct Hspec as (name & res & Hl & e' & He).
  destruct (Hall name res Hl) as [f Hf]. congruence.
Qed.

End Mapping.

End FinalizerFacts.

(** The exact numbers are totally ordered. *)
Module ExactFacts.
Import Exact.

#[global] Instance xnum_order : NumberOrder xnum.
Proof.
  split.
  - intros [x|] [y|]; simpl; auto. destruct (Z.leb_spec x y); auto.
    right. apply Z.leb_le. lia.
  - intros [x|] [y|] [z|]; simpl; try done.
    rewrite !Z.leb_le. lia.
Qed.

End ExactFacts.

Module FinalizerClaims.
Import NumPy Analysis AnalysisAux SortFacts FinalizerFacts.

Section Claims.
Context {F : Type} `{NumberOrder F}.

Lemma finalize_table_sorted (res : table F) c rows :
  0 < dims res → 0 < c → data res = Arr2 c rows → (idx res = 1 → rows ≠ []) →
  finalize_table res
  = Ok {| final_keys := keys res; final_dims := dims res;
          final_simulator := simulator res; final_time := time res;
          final_data :=
            Arr2 c (foldl (λ rs j, sort_by_column j rs) rows
                          (seq 0 (dims res `min` c))) |}.
Proof.
  intros Hd Hc Hdata Hrows. unfold finalize_table.
  apply Nat.ltb_lt in Hd as Hd'. rewrite Hd', Hdata, sort_data_rows by done.
  simpl. destruct (idx res =? 1) eqn:Hidx; [|done].
  apply Nat.eqb_eq in Hidx.
  pose proof (passes_perm (seq 0 (dims res `min` c)) rows) as Hperm.
  destruct (foldl _ rows _) as [|r rs] eqn:Hs; [|done].
  apply Permutation_nil_l in Hperm. by destruct (Hrows Hidx).
Qed.

Lemma finalizable_returns (res : table F) :
  finalizable res → ∃ f, finalize_table res = Ok f.
Proof.
  unfold finalizable. destruct (data res) as [v|c rows] eqn:Hdata.
  - intros Hv. unfold finalize_table. rewrite Hdata.
    destruct (0 <? dims res) eqn:Hd.
    + apply Nat.ltb_lt in Hd.
      change (sort_data (dims res) (Arr1 v))
        with (sort_data (dims res) (Arr2 (length v) [v])).
      rewrite sort_data_rows by auto. simpl.
      pose proof (passes_perm (seq 0 (dims res `min` length v)) [v]) as Hperm.
      destruct (foldl _ [v] _) as [|r rs] eqn:Hs.
      { by apply Permutation_nil_l in Hperm. }
      destruct (idx res =? 1); by eexists.
    + simpl. destruct (idx res =? 1); by eexists.
  - intros [Hc Hrows]. destruct (0 <? dims res) eqn:Hd.
    + apply Nat.ltb_lt in Hd. eexists. by apply finalize_table_sorted; auto.
    + unfold finalize_table. rewrite Hd, Hdata. simpl.
      destruct (idx res =? 1) eqn:Hidx; [|by eexists].
      apply Nat.eqb_eq in Hidx. destruct rows; [by destruct Hrows|by eexists].
Qed.

(** C1, as amended. A mapping all of whose tables are well-formed is
    finalised without an exception, and every table with varied parameters
    keeps its keys, dims, simulator and timings while all rows of its data
    matrix (the unused ones included) are rearranged: the result holds the
    same rows, each row intact; it is ascending in the lexicographic order
    in which the last varied-parameter column is the primary key and the
    first one the least significant; and rows with equal varied-parameter
    values keep their relative order. *)
Theorem finalize_analysis_sorts (result : gmap string (table F)) :
  (∀ name res, result !! name = Some res → finalizable res) →
  ∃ final,
    finalize_analysis result = Ok final ∧
    ∀ name res c rows,
      result !! name = Some res →
      0 < dims res → dims res ≤ c → data res = Arr2 c rows →
      ∃ rows',
        final !! name
        = Some {| final_keys := keys res; final_dims := dims res;
                  final_simulator := simulator res; final_time := time res;
                  final_data := Arr2 c rows' |} ∧
        rows' ≡ₚ rows ∧
        StronglySorted (key_le (dims res)) rows' ∧
        ∀ r0, filter (λ r, same_key (dims res) r0 r = true) rows'
              = filter (λ r, same_key (dims res) r0 r = true) rows.
Proof.
  intros Hwf.
  destruct (finalize_analysis_returns result) as [final Hfinal].
  { intros name res Hres. by eapply finalizable_returns, Hwf. }
  exists final. split; [done|].
  intros name res c rows Hres Hd Hc Hdata.
  pose proof (finalize_analysis_spec result) as Hspec.
  rewrite Hfinal in Hspec. specialize (Hspec name). rewrite Hres in Hspec.
  destruct Hspec as (f & Hf & Hlookup).
  pose proof (Hwf name res Hres) as Hfin. unfold finalizable in Hfin.
  rewrite Hdata in Hfin. destruct Hfin as [Hc0 Hrows].
  rewrite (finalize_table_sorted res c rows) in Hf by auto.
  injection Hf as <-. replace (dims res `min` c) with (dims res) in * by lia.
  eexists. split; [done|]. split; [apply passes_perm|].
  split; [apply passes_sorted|]. intros r0. apply passes_same_key.
Qed.

End Claims.

Import Exact ExactFacts DemoTables.

(** Witness for C1: the table with the values 3, 1, 2. *)
Lemma finalize_analysis_sorts_witness :
  ∃ final,
    finalize_analysis {["exp" := unsorted]} = Ok final ∧
    ∀ name res c rows,
      ({["exp" := unsorted]} : gmap string (table xnum)) !! name = Some res →
      0 < dims res → dims res ≤ c → data res = Arr2 c rows →
      ∃ rows',
        final !! name
        = Some {| final_keys := keys res; final_dims := dims res;
                  final_simulator := simulator res; final_time := time res;
                  final_data := Arr2 c rows' |} ∧
        rows' ≡ₚ rows ∧
        StronglySorted (key_le (dims res)) rows' ∧
        ∀ r0, filter (λ r, same_key (dims res) r0 r = true) rows'
              = filter (λ r, same_key (dims res) r0 r = true) rows.
Proof.
  apply (finalize_analysis_sorts {["exp" := unsorted]}).
  intros name res [<- <-]%lookup_singleton_Some.
  split; [simpl; lia|]. intros _. discriminate.
Defined.

(** The example of the specification: one varied parameter with the values
    3, 1, 2 comes out as 1, 2, 3, each row with its own metric cells. *)
Example finalize_analysis_one_key :
  finalize_analysis {["exp" := unsorted]}
  = Ok {["exp" := final_of ["data.n_ones_in"] 5
                    [row [1] 10; row [2] 20; row [3] 30]]}.
Proof. vm_compute. reflexivity. Qed.

(** Counterexample to C1 as stated: with two varied parameters the rows
    (1, 2) and (2, 1), which are in the order the claim describes (first
    column primary), are put in the order (2, 1), (1, 2), which is not. *)
Lemma finalize_analysis_last_key_primary :
  0 < dims two_keys ∧
  data two_keys = Arr2 14 [row [1; 2] 10; row [2; 1] 20] ∧
  claimed_sorted 2 [row [1; 2] 10; row [2; 1] 20] = true ∧
  finalize_analysis {["exp" := two_keys]}
  = Ok {["exp" := final_of ["data.n_bits_in"; "data.n_ones_in"] 5
                    [row [2; 1] 20; row [1; 2] 10]]} ∧
  claimed_sorted 2 [row [2; 1] 20; row [1; 2] 10] = false.
Proof. vm_compute. repeat split; lia. Qed.

(** All rows of the matrix are sorted, not the first [idx] ones only: in a
    table of declared size 3 with two rows filled in, the unused zero row
    comes first. *)
Example finalize_analysis_unused_rows :
  idx partly_filled = 2 ∧
  finalize_analysis {["exp" := partly_filled]}
  = Ok {["exp" := final_of ["data.n_ones_in"] 5
                    [zeros1 13; row [1] 10; row [3] 30]]}.
Proof. vm_compute. done. Qed.

End FinalizerClaims.

(** * Properties of the merger *)

Module MergerFacts.
Import NumPy Analysis AnalysisAux.

Section Merger.
Context {F : Type} `{Number F}.

(** [append_analysis] works name by name, and raises when the entry of one
    name does. *)
Lemma append_analysis_spec (analysis part : gmap string (table F)) :
  match append_analysis analysis part with
  | Ok r =>
      ∀ name, merge_entry name (analysis !! name) (part !! name)
              = Ok (r !! name)
  | Raise _ =>
      ∃ name, raised (merge_entry name (analysis !! name) (part !! name))
  end.
Proof.
  unfold append_analysis.
  apply (map_fold_weak_ind (λ acc (m : gmap string (table F)),
    match acc with
    | Ok r =>
        ∀ name, merge_entry name (analysis !! name) (m !! name)
                = Ok (r !! name)
    | Raise _ =>
        ∃ name, raised (merge_entry name (analysis !! name) (m !! name))
    end)).
  - intros name. by rewrite lookup_empty.
  - intros i x m [r|e] Hfresh IH; simpl.
    + pose proof (IH i) as Hi. rewrite Hfresh in Hi. simpl in Hi.
      injection Hi as Hi.
      assert (∀ name, name ≠ i →
                merge_entry name (analysis !! name) (<[i:=x]> m !! name)
                = Ok (r !! name)) as Hother.
      { intros name Hne. rewrite lookup_insert_ne by done. apply IH. }
      unfold append_entry. destruct (startswith i "__") eqn:Hres.
      * intros name. destruct (decide (name = i)) as [->|Hne]; [|by apply Hother].
        rewrite lookup_insert_eq. simpl. by rewrite Hres, Hi.
      * rewrite <- Hi. destruct (analysis !! i) as [t|] eqn:Ha.
        -- destruct (append_table t x) as [t'|e] eqn:Happ; simpl.
           ++ intros name. destruct (decide (name = i)) as [->|Hne].
              ** rewrite !lookup_insert_eq, Ha. simpl. by rewrite Hres, Happ.
              ** rewrite (lookup_insert_ne r) by done. by apply Hother.
           ++ exists i. rewrite lookup_insert_eq, Ha. simpl.
              rewrite Hres, Happ. by exists e.
        -- intros name. destruct (decide (name = i)) as [->|Hne].
           ** rewrite !lookup_insert_eq, Ha. simpl. by rewrite Hres.
           ** rewrite (lookup_insert_ne r) by done. by apply Hother.
    + destruct IH as (name & e' & He). exists name.
      destruct (decide (name = i)) as [->|Hne].
      * rewrite Hfresh in He. discriminate.
      * rewrite lookup_insert_ne by done. by exists e'.
Qed.

Lemma append_analysis_Ok (analysis part r : gmap string (table F)) :
  append_analysis analysis part = Ok r ↔
  ∀ name, merge_entry name (analysis !! name) (part !! name) = Ok (r !! name).
Proof.
  pose proof (append_analysis_spec analysis part) as Hspec. split.
  - intros Hr. by rewrite Hr in Hspec.
  - intros Hall. destruct (append_analysis analysis part) as [r'|e].
    + f_equal. apply map_eq. intros name.
      specialize (Hspec name). rewrite Hall in Hspec. by injection Hspec.
    + destruct Hspec as (name & e' & He). rewrite Hall in He. discriminate.
Qed.

Lemma append_analysis_raised (analysis part : gmap string (table F)) name :
  raised (merge_entry name (analysis !! name) (part !! name)) →
  raised (append_analysis analysis part).
Proof.
  intros [e He]. pose proof (append_analysis_spec analysis part) as Hspec.
  destruct (append_analysis analysis part) as [r|e']; [|by exists e'].
  rewrite Hspec in He. discriminate.
Qed.

(** *** Capacity *)

(** What the call does when the rows do not fit. For an experiment in
    both mappings, with two-dimensional data and a source table that holds
    its [idx] rows: when the rows left in the destination are fewer than
    the rows to copy, the call raises (NumPy cannot fit the rows into the
    clipped slice) if there are two or more rows to copy. With one row to
    copy the same assignment does not raise: NumPy broadcasts the row into
    the empty slice, so the table is returned with its data unchanged and
    its cursor advanced by one, past the declared size. *)
Theorem append_analysis_capacity (analysis part : gmap string (table F))
    name t1 t2 c1 rows1 c2 rows2 :
  analysis !! name = Some t1 → part !! name = Some t2 →
  startswith name "__" = false →
  data t1 = Arr2 c1 rows1 → data t2 = Arr2 c2 rows2 →
  idx t2 ≤ length rows2 →
  length rows1 - idx t1 < idx t2 →
  (2 ≤ idx t2 → raised (append_analysis analysis part)) ∧
  (idx t2 = 1 → c2 = c1 ∨ c2 = 1 →
   append_table t1 t2
   = Ok {| keys := keys t1; dims := dims t1; simulator := simulator t1;
           time := time t1; data := data t1; idx := idx t1 + 1 |}).
Proof.
  intros Ha Hp Hname Hd1 Hd2 Hsrc Hcap. split.
  - intros Hidx. apply (append_analysis_raised _ _ name).
    rewrite Ha, Hp. simpl. rewrite Hname.
    unfold append_table. rewrite Hd1, Hd2. simpl.
    rewrite length_take.
    replace (idx t2 `min` length rows2) with (idx t2) by lia.
    destruct (idx t2 =? _) eqn:E1; [apply Nat.eqb_eq in E1; lia|].
    destruct (idx t2 =? 1) eqn:E2; [apply Nat.eqb_eq in E2; lia|].
    simpl. by exists ValueError.
  - intros Hidx Hcols. unfold append_table. rewrite Hd1, Hd2, Hidx. simpl.
    rewrite length_take.
    assert (1 `min` length rows2 = 1) as -> by lia.
    assert (idx t1 `min` length rows1 = length rows1) as -> by lia.
    assert ((idx t1 + 1) `min` length rows1 = length rows1) as -> by lia.
    rewrite Nat.sub_diag. simpl.
    assert ((c2 =? c1) || (c2 =? 1) = true) as ->.
    { apply orb_true_iff. destruct Hcols as [->| ->];
        [left|right]; apply Nat.eqb_refl. }
    simpl. by rewrite firstn_all, skipn_all, app_nil_r.
Qed.

End Merger.

Import Exact DemoTables.

(** A full table of two rows and a part with two rows: the call
    raises. *)
Lemma append_analysis_capacity_witness :
  let full := table_of ["data.n_ones_in"] 2 5 [row [1] 10; row [2] 20] in
  let more := table_of ["data.n_ones_in"] 2 7 [row [3] 30; row [4] 40] in
  (2 ≤ idx more →
   raised (append_analysis {["exp" := full]} {["exp" := more]})) ∧
  (idx more = 1 → 13 = 13 ∨ 13 = 1 →
   append_table full more
   = Ok {| keys := keys full; dims := dims full; simulator := simulator full;
           time := time full; data := data full; idx := idx full + 1 |}).
Proof.
  intros full more.
  apply (append_analysis_capacity {["exp" := full]} {["exp" := more]}
           "exp" full more 13
           [row [1] 10; row [2] 20] 13 [row [3] 30; row [4] 40]);
    try reflexivity; simpl; lia.
Defined.

(** C3, a defect of the code. The claim holds of a part with two or more
    rows ([append_analysis_capacity]) and of the analyser, whose write of a
    row into a full table raises; it fails of a part with one row. Here
    the destination has declared size 1 and is full and the part brings
    one row: one row is more than the zero rows left, yet the call of
    [append_analysis], whose documentation says that it appends the part,
    raises no exception, returns the destination without the row of the
    part, and sets the cursor to 2, past the only row of the matrix. *)
Lemma append_analysis_drops_row :
  let full := table_of ["data.n_ones_in"] 1 5 [row [1] 10] in
  let one := table_of ["data.n_ones_in"] 1 7 [row [2] 20] in
  1 ≤ idx one ∧
  length (rows_of (data full)) - idx full < idx one ∧
  append_analysis {["exp" := full]} {["exp" := one]}
  = Ok {["exp" := {| keys := keys full; dims := dims full;
                     simulator := simulator full; time := time full;
                     data := data full; idx := 2 |}]}.
Proof. vm_compute. repeat split; lia. Qed.

(** The sibling paths on the same full table: a part with two rows is
    refused, and so is a row of the analyser. *)
Example full_table_refused :
  let full := table_of ["data.n_ones_in"] 1 5 [row [1] 10] in
  let two := table_of ["data.n_ones_in"] 2 7 [row [2] 20; row [3] 30] in
  append_analysis {["exp" := full]} {["exp" := two]} = Raise ValueError ∧
  analyse_output DemoJobs.job {["exp" := full]} = Raise IndexError.
Proof. vm_compute. done. Qed.

End MergerFacts.

(** * Properties of the analyser *)

Module AnalyserFacts.
Import NumPy Analysis AnalysisAux.

Section Analyser.
Context {F : Type} `{Number F}.

Lemma bind_Ok {A B} (m : result A) (f : A → result B) b :
  m ≫= f = Ok b → ∃ a, m = Ok a ∧ f a = Ok b.
Proof. destruct m as [a|e]; [by exists a|discriminate]. Qed.

Lemma set_item_Ok (v : list F) i x v' :
  set_item v i x = Ok v' → i < length v ∧ v' = <[i := x]> v.
Proof.
  unfold set_item. destruct (i <? length v) eqn:Hi; [|discriminate].
  apply Nat.ltb_lt in Hi. by intros [= <-].
Qed.

(** *** The row of an instance *)

Lemma store_params_length (a : instance F) j ks values values' :
  store_params a j ks values = Ok values' → length values' = length values.
Proof.
  revert j values. induction ks as [|key ks IH]; intros j values; simpl.
  - by intros [= <-].
  - intros (value & _ & (v1 & [_ ->]%set_item_Ok & Hrest)%bind_Ok)%bind_Ok.
    rewrite (IH _ _ Hrest). apply length_insert.
Qed.

Lemma store_metrics_spec offs ms (values values' : list F) :
  store_metrics offs ms values = Ok values' →
  length values' = length values ∧
  (∀ k, k < length ms → offs + k < length values) ∧
  (∀ k m, ms !! k = Some m → values' !! (offs + k) = Some m) ∧
  (∀ i, i < offs → values' !! i = values !! i).
Proof.
  revert offs values. induction ms as [|m ms IH]; intros offs values; simpl.
  - intros [= <-]. split; [done|]. split; [intros k Hk; simpl in Hk; lia|].
    split; [|done]. intros k m Hk. inversion Hk.
  - intros (v1 & [Hoffs ->]%set_item_Ok & Hrest)%bind_Ok.
    destruct (IH _ _ Hrest) as (Hlen & Hbound & Hget & Hframe).
    rewrite length_insert in Hlen, Hbound.
    split; [done|]. split; [|split].
    + intros [|k] Hk; [lia|]. specialize (Hbound k). lia.
    + intros [|k] m' Hk; simpl in Hk.
      * injection Hk as <-. rewrite Nat.add_0_r, Hframe by lia.
        by apply list_lookup_insert_eq.
      * replace (offs + S k) with (S offs + k) by lia. by apply Hget.
    + intros i Hi. rewrite Hframe by lia.
      apply list_lookup_insert_ne. lia.
Qed.

Lemma store_metrics_returns offs ms (values : list F) :
  offs + length ms ≤ length values →
  ∃ values', store_metrics offs ms values = Ok values'.
Proof.
  revert offs values. induction ms as [|m ms IH]; intros offs values; simpl.
  - by eexists.
  - intros Hlen. unfold set_item.
    destruct (offs <? length values) eqn:Hoffs;
      [|apply Nat.ltb_ge in Hoffs; lia].
    simpl. apply IH. rewrite length_insert. lia.
Qed.

Lemma metrics_length (a : instance F) x y z : length (metrics a x y z) = 12.
Proof.
  unfold metrics.
  by destruct (storage_capacity a), (max_storage_capacity a).
Qed.

Lemma ratio_zero (x d : F) : f_eqb d f_zero = true → ratio x d = f_zero.
Proof. unfold ratio. by intros ->. Qed.

(** When every latency equals [np.inf] none is kept. *)
Lemma latencies_valid_nil (a : instance F) :
  Forall (λ x, f_eqb x f_inf = true) (latencies a) → latencies_valid a = [].
Proof.
  unfold latencies_valid. induction 1 as [|x l Hx _ IH]; [done|].
  rewrite filter_cons_False; [done|]. by rewrite Hx.
Qed.

(** The cells [store_metrics] writes in the four edge cases. *)
Lemma metrics_edge_cases (a : instance F) ns nb no offs values values' :
  dict_get (data_params a) "n_samples" ≫= number = Ok ns →
  dict_get (data_params a) "n_bits_out" ≫= number = Ok nb →
  dict_get (data_params a) "n_ones_out" ≫= number = Ok no →
  store_metrics offs (metrics a ns nb no) values = Ok values' →
  edge_cases offs a values'.
Proof.
  intros Hns Hnb Hno Hstore. exists ns, nb, no.
  apply store_metrics_spec in Hstore as (_ & _ & Hget & _).
  unfold metrics, norm_fp, norm_fn in Hget.
  destruct (storage_capacity a) as [I_ errs],
           (max_storage_capacity a) as [I_ref errs_ref]; simpl.
  split; [done|]. split; [done|]. split; [done|].
  split; [|split; [|split]].
  - intros Hz. rewrite (Hget 1 _ eq_refl). by rewrite ratio_zero.
  - intros Hz. split.
    + rewrite (Hget 4 _ eq_refl). by rewrite ratio_zero.
    + rewrite (Hget 6 _ eq_refl). by rewrite ratio_zero.
  - intros Hz. rewrite (Hget 8 _ eq_refl). by rewrite ratio_zero.
  - intros Hinf%latencies_valid_nil. split; [|split].
    + rewrite (Hget 9 _ eq_refl). unfold latency_mean. by rewrite Hinf.
    + rewrite (Hget 10 _ eq_refl). unfold latency_std. by rewrite Hinf.
    + rewrite (Hget 11 _ eq_refl). unfold latencies_invalid_count.
      rewrite Hinf. simpl. by rewrite Nat.sub_0_r.
Qed.

Lemma instance_values_Ok (t : table F) (a : instance F) values :
  instance_values t a = Ok values →
  length values = length (keys t) ∧ dims t + 12 ≤ length values ∧
  edge_cases (dims t) a values.
Proof.
  unfold instance_values.
  intros (vals & Hvals & (ns & Hns & (nb & Hnb & (no & Hno & Hstore)%bind_Ok)
            %bind_Ok)%bind_Ok)%bind_Ok.
  pose proof (store_metrics_spec _ _ _ _ Hstore) as (Hlen & Hbound & _ & _).
  apply store_params_length in Hvals. unfold zeros1 in Hvals.
  rewrite length_replicate in Hvals.
  split; [congruence|]. split.
  - specialize (Hbound 11). rewrite metrics_length in Hbound. lia.
  - by eapply metrics_edge_cases.
Qed.

(** Once the parameters of an instance are found, computing and storing
    its metrics raises no exception, whatever their values. *)
Lemma instance_values_returns (t : table F) (a : instance F) vals ns nb no :
  store_params a 0 (meta_keys (meta a)) (zeros1 (length (keys t))) = Ok vals →
  dict_get (data_params a) "n_samples" ≫= number = Ok ns →
  dict_get (data_params a) "n_bits_out" ≫= number = Ok nb →
  dict_get (data_params a) "n_ones_out" ≫= number = Ok no →
  dims t + 12 ≤ length (keys t) →
  ∃ values, instance_values t a = Ok values.
Proof.
  intros Hvals Hns Hnb Hno Hwidth. unfold instance_values.
  rewrite Hvals. simpl. rewrite Hns. simpl. rewrite Hnb. simpl.
  rewrite Hno. simpl. apply store_metrics_returns.
  rewrite metrics_length. apply store_params_length in Hvals.
  unfold zeros1 in Hvals. rewrite length_replicate in Hvals. lia.
Qed.

(** *** One iteration of the loop *)

Lemma analyse_instance_Ok ts i (a : instance F) result result' :
  analyse_instance ts i a result = Ok result' →
  let name := experiment_name (meta a) in
  let t := default (new_table (meta a)) (result !! name) in
  ∃ tm values c rows,
    (if i =? 0 then add_times ts (time t) else Ok (time t)) = Ok tm ∧
    instance_values t a = Ok values ∧
    data t = Arr2 c rows ∧ idx t < length rows ∧
    result' = <[name := {| keys := keys t; dims := dims t;
                           simulator := simulator t; time := tm;
                           data := Arr2 c (<[idx t := values]> rows);
                           idx := idx t + 1 |}]> result.
Proof.
  unfold analyse_instance. simpl.
  set (t := default (new_table (meta a)) (result !! experiment_name (meta a))).
  intros (tm & Htm & (values & Hvalues & (d & Hd & Hres)%bind_Ok)%bind_Ok)
           %bind_Ok.
  injection Hres as <-.
  pose proof (instance_values_Ok t a values Hvalues) as (Hlen & Hwidth & _).
  unfold set_row in Hd. destruct (data t) as [v|c rows] eqn:Hdata;
    [discriminate|].
  destruct (idx t <? length rows) eqn:Hidx; [|discriminate].
  apply Nat.ltb_lt in Hidx.
  destruct (length values =? c) eqn:Hc.
  - injection Hd as <-. by exists tm, values, c, rows.
  - destruct values as [|x [|y values]]; try discriminate;
      simpl in Hwidth; lia.
Qed.

Lemma analyse_instance_extends ts i (a : instance F) result result' :
  analyse_instance ts i a result = Ok result' → extends result result'.
Proof.
  intros (tm & values & c & rows & _ & _ & Hdata & Hidx & ->)
           %analyse_instance_Ok.
  intros name t Ht.
  destruct (decide (experiment_name (meta a) = name)) as [<-|Hne].
  - rewrite Ht in *. simpl in *. rewrite lookup_insert_eq. eexists.
    split; [done|]. simpl. split; [done|]. split; [lia|].
    intros r Hr. rewrite Hdata. simpl. apply list_lookup_insert_ne. lia.
  - rewrite lookup_insert_ne by done. by exists t.
Qed.

Lemma extends_trans (r1 r2 r3 : gmap string (table F)) :
  extends r1 r2 → extends r2 r3 → extends r1 r3.
Proof.
  intros H12 H23 name t Ht.
  destruct (H12 name t Ht) as (t2 & Ht2 & Hd2 & Hi2 & Hr2).
  destruct (H23 name t2 Ht2) as (t3 & Ht3 & Hd3 & Hi3 & Hr3).
  exists t3. split; [done|]. split; [congruence|]. split; [lia|].
  intros r Hr. rewrite Hr3, Hr2 by lia. done.
Qed.

Lemma analyse_from_extends ts i (l : list (instance F)) result result' :
  analyse_from ts i l result = Ok result' → extends result result'.
Proof.
  revert i result. induction l as [|a l IH]; intros i result; simpl.
  - intros [= <-] name t Ht. by exists t.
  - intros (r1 & H1 & Hrest)%bind_Ok.
    eapply extends_trans; [by eapply analyse_instance_extends|by eapply IH].
Qed.

(** The row an iteration writes. *)
Lemma analyse_instance_row ts i (a : instance F) result result' :
  analyse_instance ts i a result = Ok result' →
  ∃ t r values,
    result' !! experiment_name (meta a) = Some t ∧
    rows_of (data t) !! r = Some values ∧ r < idx t ∧
    edge_cases (dims t) a values.
Proof.
  intros (tm & values & c & rows & _ & Hvalues & Hdata & Hidx & ->)
           %analyse_instance_Ok.
  set (t := default (new_table (meta a)) (result !! experiment_name (meta a)))
    in *.
  eexists _, (idx t), values. rewrite lookup_insert_eq.
  split; [done|]. simpl. split; [by apply list_lookup_insert_eq|].
  split; [lia|]. by apply instance_values_Ok.
Qed.

Lemma analyse_from_rows ts i (l : list (instance F)) result result' :
  analyse_from ts i l result = Ok result' →
  ∀ k a, l !! k = Some a →
    ∃ t r values,
      result' !! experiment_name (meta a) = Some t ∧
      rows_of (data t) !! r = Some values ∧ r < idx t ∧
      edge_cases (dims t) a values.
Proof.
  revert i result. induction l as [|a0 l IH]; intros i result; simpl.
  - intros _ k a Hk. inversion Hk.
  - intros (r1 & H1 & Hrest)%bind_Ok [|k] a Hk; simpl in Hk.
    + injection Hk as <-.
      destruct (analyse_instance_row _ _ _ _ _ H1)
        as (t1 & r & values & Ht1 & Hrow & Hr & Hedge).
      destruct (analyse_from_extends _ _ _ _ _ Hrest _ _ Ht1)
        as (t' & Ht' & Hdims & Hidx & Hrows).
      exists t', r, values. rewrite Hdims, Hrows by done.
      split; [done|]. split; [done|]. split; [lia|done].
    + by eapply IH.
Qed.

End Analyser.
End AnalyserFacts.

Module AnalyserClaims.
Import NumPy Analysis AnalysisAux AnalyserFacts.

Section Claims.
Context {F : Type} `{Number F}.

(** *** Timings *)

Lemma add_times_spec (ts acc : gmap string F) :
  match add_times ts acc with
  | Ok acc' =>
      ∀ key,
        match ts !! key with
        | Some dt =>
            ∃ old, acc !! key = Some old ∧ acc' !! key = Some (f_add old dt)
        | None => acc' !! key = acc !! key
        end
  | Raise _ => True
  end.
Proof.
  unfold add_times.
  apply (map_fold_weak_ind (λ r (m : gmap string F),
    match r with
    | Ok acc' =>
        ∀ key,
          match m !! key with
          | Some dt =>
              ∃ old, acc !! key = Some old ∧ acc' !! key = Some (f_add old dt)
          | None => acc' !! key = acc !! key
          end
    | Raise _ => True
    end)).
  - intros key. by rewrite lookup_empty.
  - intros i dt m [acc'|e] Hfresh IH; simpl; [|done].
    pose proof (IH i) as Hi. rewrite Hfresh in Hi.
    destruct (acc' !! i) as [old|] eqn:Hold; [|done].
    intros key. destruct (decide (key = i)) as [->|Hne].
    + rewrite !lookup_insert_eq. exists old. by rewrite <- Hi.
    + rewrite !lookup_insert_ne by done. apply IH.
Qed.

Lemma analyse_instance_time ts i (a : instance F) result result' :
  analyse_instance ts i a result = Ok result' →
  let name := experiment_name (meta a) in
  (∀ other, other ≠ name → result' !! other = result !! other) ∧
  ∃ t', result' !! name = Some t' ∧
        (if i =? 0 then add_times ts (time_before result name)
         else Ok (time_before result name)) = Ok (time t').
Proof.
  intros (tm & values & c & rows & Htm & _ & _ & _ & ->)%analyse_instance_Ok.
  simpl. split.
  - intros other Hne. by rewrite lookup_insert_ne.
  - rewrite lookup_insert_eq. eexists. split; [done|]. simpl.
    unfold time_before.
    by destruct (result !! experiment_name (meta a)).
Qed.

(** The iterations after the first leave every accumulator as it is. *)
Lemma analyse_from_time ts i (l : list (instance F)) result result' :
  0 < i → analyse_from ts i l result = Ok result' →
  ∀ name t', result' !! name = Some t' → time t' = time_before result name.
Proof.
  revert i result. induction l as [|a l IH]; intros i result Hi; simpl.
  - intros [= <-] name t' Ht'. unfold time_before. by rewrite Ht'.
  - intros (r1 & H1 & Hrest)%bind_Ok name t' Ht'.
    rewrite (IH (S i) r1 ltac:(lia) Hrest name t' Ht').
    apply analyse_instance_time in H1 as (Hother & t1 & Ht1 & Htm).
    destruct (i =? 0) eqn:Hi0; [apply Nat.eqb_eq in Hi0; lia|].
    injection Htm as Htm. unfold time_before at 1.
    destruct (decide (name = experiment_name (meta a))) as [->|Hne].
    + by rewrite Ht1.
    + rewrite Hother by done. done.
Qed.

(** C9. When a call of [analyse_output] on a job with at least one
    analysis instance returns, the job's timings have been added once to
    the accumulator of the experiment of the first instance: every
    measurement of the job is added to the value accumulated before, the
    other entries of that accumulator are unchanged, and the accumulator
    of every other experiment is what it was before the call (zeros for a
    table the call created), however many instances the job has. *)
Theorem timing_added_once (out : job_output F) result result' a0 rest :
  analysis_instances out = a0 :: rest →
  analyse_output out result = Ok result' →
  let name0 := experiment_name (meta a0) in
  (∃ t', result' !! name0 = Some t' ∧
     add_times (times out) (time_before result name0) = Ok (time t') ∧
     ∀ key,
       match times out !! key with
       | Some dt =>
           ∃ old, time_before result name0 !! key = Some old ∧
                  time t' !! key = Some (f_add old dt)
       | None => time t' !! key = time_before result name0 !! key
       end) ∧
  (∀ name t', name ≠ name0 → result' !! name = Some t' →
     time t' = time_before result name).
Proof.
  intros Hl. unfold analyse_output. rewrite Hl. simpl.
  intros (r1 & H1 & Hrest)%bind_Ok. cbv zeta.
  apply analyse_instance_time in H1 as (Hother & t1 & Ht1 & Htm).
  simpl in Htm.
  pose proof (analyse_from_time _ 1 _ _ _ ltac:(lia) Hrest) as Hframe.
  split.
  - destruct (analyse_from_extends _ _ _ _ _ Hrest _ _ Ht1)
      as (t' & Ht' & _).
    exists t'. split; [done|].
    assert (time t' = time t1) as ->.
    { rewrite (Hframe _ _ Ht'). unfold time_before. by rewrite Ht1. }
    split; [done|].
    pose proof (add_times_spec (times out)
                  (time_before result (experiment_name (meta a0)))) as Hs.
    by rewrite Htm in Hs.
  - intros name t' Hne Ht'. rewrite (Hframe _ _ Ht').
    unfold time_before at 1. by rewrite Hother.
Qed.

(** C8. Once the parameters of an instance are found, its row is computed
    without an exception, whatever the reference capacity, the normalisers
    and the latencies are; and when a call of [analyse_output] returns,
    the table of every instance of the job holds a row, below the cursor,
    in which: the normalised capacity [I_n] is 0 if the reference capacity
    [I_ref] is 0; the two normalised false-positive counts [fp_n] and
    [fp_ref_n] are 0 if [n_samples * (n_bits_out - n_ones_out)] is 0; the
    normalised false-negative count [fn_n] is 0 if
    [n_samples * n_ones_out] is 0; and, if no latency is finite, the mean
    latency is infinite, the deviation 0 and the number of invalid
    latencies the number of all latencies. A latency is a duration or
    [np.inf]: that none is finite says that every one equals [np.inf],
    which is the comparison the program makes. The premises are those of
    [edge_cases], on the parameters, capacities and latencies that the
    instance holds. *)
Theorem metric_edge_cases (out : job_output F)
    (result : gmap string (table F)) :
  (∀ (t : table F) a vals ns nb no,
     store_params a 0 (meta_keys (meta a)) (zeros1 (length (keys t)))
       = Ok vals →
     dict_get (data_params a) "n_samples" ≫= number = Ok ns →
     dict_get (data_params a) "n_bits_out" ≫= number = Ok nb →
     dict_get (data_params a) "n_ones_out" ≫= number = Ok no →
     dims t + 12 ≤ length (keys t) →
     ∃ values, instance_values t a = Ok values ∧
               edge_cases (dims t) a values) ∧
  (∀ result', analyse_output out result = Ok result' →
     ∀ k a, analysis_instances out !! k = Some a →
       ∃ t r values,
         result' !! experiment_name (meta a) = Some t ∧
         rows_of (data t) !! r = Some values ∧ r < idx t ∧
         edge_cases (dims t) a values).
Proof.
  split.
  - intros t a vals ns nb no Hvals Hns Hnb Hno Hwidth.
    destruct (instance_values_returns t a vals ns nb no) as [values Hv];
      try done.
    exists values. split; [done|]. by apply instance_values_Ok.
  - intros result' Hout k a Hk. by eapply analyse_from_rows.
Qed.

End Claims.

Import Exact DemoJobs.

(** Witness for C9: the two-instance job of [DemoJobs] analysed into the
    empty mapping. *)
Lemma timing_added_once_witness :
  ∃ result',
    analyse_output job ∅ = Ok result' ∧
    (∃ t', result' !! "exp" = Some t' ∧
       add_times (times job) (time_before ∅ "exp") = Ok (time t') ∧
       ∀ key,
         match times job !! key with
         | Some dt =>
             ∃ old, time_before (∅ : gmap string (table xnum)) "exp" !! key
                    = Some old ∧
                    time t' !! key = Some (f_add old dt)
         | None => time t' !! key
                   = time_before (∅ : gmap string (table xnum)) "exp" !! key
         end) ∧
    (∀ name t', name ≠ "exp" → result' !! name = Some t' →
       time t' = time_before ∅ name).
Proof.
  destruct (analyse_output job ∅) as [result'|e] eqn:Hout;
    [|vm_compute in Hout; discriminate].
  exists result'. split; [done|].
  apply (timing_added_once job ∅ result' (plain 3%Z) [degenerate 1%Z]);
    [reflexivity|exact Hout].
Defined.

(** Witness for C8: the second instance of the job of [DemoJobs], which is
    in all four edge cases. *)
Lemma metric_edge_cases_witness :
  ∃ result',
    analyse_output job ∅ = Ok result' ∧
    ∃ t r values,
      result' !! "exp" = Some t ∧
      rows_of (data t) !! r = Some values ∧ r < idx t ∧
      edge_cases (dims t) (degenerate 1%Z) values.
Proof.
  destruct (analyse_output job ∅) as [result'|e] eqn:Hout;
    [|vm_compute in Hout; discriminate].
  exists result'. split; [done|].
  exact (proj2 (metric_edge_cases job ∅) result' Hout 1 (degenerate 1%Z)
           eq_refl).
Defined.

(** The job has two instances and its timings are in the accumulator once
    (the total is 9, not 18); the row of the second instance is in all four
    edge cases. *)
Example analyse_output_demo :
  analyse_output job ∅
  = Ok {["exp" :=
          {| keys := "data.n_ones_in" :: metric_keys; dims := 1;
             simulator := "nest"; time := job_times;
             data := Arr2 13
               [[Fin 3; Fin 14; Fin 1; Fin 14; Fin 120; Fin 1; Fin 0; Fin 0;
                 Fin 40; Fin 1; Fin 3; Fin 1; Fin 1];
                [Fin 1; Fin 0; Fin 0; Fin 0; Fin 1; Fin 0; Fin 5; Fin 0;
                 Fin 2; Fin 0; Inf; Fin 0; Fin 2]];
             idx := 2 |}]}.
Proof. vm_compute. reflexivity. Qed.

End AnalyserClaims.

(** * Merging in any order *)

Module MergeOrderFacts.
Import NumPy Analysis AnalysisAux MergeAux SortFacts FinalizerFacts.
Import FinalizerClaims MergerFacts.

Section Tables.
Context {F : Type} `{Number F}.

(** *** Appending filled tables *)

Lemma ret_bind {A B} (a : A) (f : A → result B) : Ok a ≫= f = f a.
Proof. reflexivity. Qed.

Lemma broadcast_row_same c (r : list F) : broadcast_row c c r = r.
Proof. unfold broadcast_row. by rewrite Nat.eqb_refl. Qed.

Lemma assign_rows_fit c (rows pad src : list (list F)) :
  length src ≤ length pad →
  assign_rows (Arr2 c (rows ++ pad)) (length rows) (length rows + length src)
    (Arr2 c src)
  = Ok (Arr2 c (rows ++ src ++ drop (length src) pad)).
Proof.
  intros Hfit. unfold assign_rows. rewrite length_app.
  replace (length rows `min` (length rows + length pad))
    with (length rows) by lia.
  replace ((length rows + length src) `min` (length rows + length pad))
    with (length rows + length src) by lia.
  replace (length rows + length src - length rows) with (length src) by lia.
  rewrite !Nat.eqb_refl. simpl.
  rewrite take_app_length, drop_app_add.
  rewrite (map_ext _ id) by apply broadcast_row_same. by rewrite map_id.
Qed.

Lemma append_table_filled n c (t1 t2 : table F) rows1 rows2 :
  data t1 = Arr2 c (rows1 ++ replicate (n - length rows1) (zeros1 c)) →
  idx t1 = length rows1 →
  data t2 = Arr2 c (rows2 ++ replicate (n - length rows2) (zeros1 c)) →
  idx t2 = length rows2 →
  length rows1 + length rows2 ≤ n →
  append_table t1 t2
  = Ok {| keys := keys t1; dims := dims t1; simulator := simulator t1;
          time := time t1;
          data := Arr2 c ((rows1 ++ rows2) ++
                          replicate (n - length (rows1 ++ rows2)) (zeros1 c));
          idx := length (rows1 ++ rows2) |}.
Proof.
  intros Hd1 Hi1 Hd2 Hi2 Hn. unfold append_table.
  rewrite Hd1, Hd2, Hi1, Hi2. unfold slice_to.
  rewrite take_app_length, ret_bind.
  rewrite assign_rows_fit by (rewrite length_replicate; lia).
  rewrite ret_bind, drop_replicate, length_app, <- app_assoc.
  by rewrite Nat.sub_add_distr.
Qed.

Lemma valid_rows_filled n c (t : table F) :
  well_filled n c t →
  data t = Arr2 c (valid_rows t ++
                   replicate (n - length (valid_rows t)) (zeros1 c)) ∧
  idx t = length (valid_rows t) ∧ length (valid_rows t) ≤ n.
Proof.
  intros (rows & Hd & Hi & Hn). unfold valid_rows.
  rewrite Hd, Hi. simpl. by rewrite take_app_length.
Qed.

Lemma length_valid_rows (ts : list (table F)) n c :
  Forall (well_filled n c) ts →
  length (ts ≫= valid_rows) = sum_list_with idx ts.
Proof.
  induction 1 as [|t ts Ht _ IH]; [done|].
  rewrite bind_cons, length_app, IH. simpl.
  by destruct (valid_rows_filled n c t Ht) as (_ & -> & _).
Qed.

Lemma merged_single n c (t : table F) :
  well_filled n c t → merged n c [t] = Some t.
Proof.
  intros (Hd & Hi & _)%valid_rows_filled. unfold merged.
  rewrite bind_cons. simpl. rewrite app_nil_r, <- Hd, <- Hi. by destruct t.
Qed.

Lemma append_merged n c (tl tr : list (table F)) t1 t2 :
  Forall (well_filled n c) (tl ++ tr) →
  sum_list_with idx (tl ++ tr) ≤ n →
  merged n c tl = Some t1 → merged n c tr = Some t2 →
  ∃ t', append_table t1 t2 = Ok t' ∧ merged n c (tl ++ tr) = Some t'.
Proof.
  intros Hall Hsum H1 H2.
  destruct tl as [|a tl]; [discriminate|]. destruct tr as [|b tr]; [discriminate|].
  pose proof (length_valid_rows _ n c Hall) as Hlen.
  rewrite bind_app, length_app in Hlen.
  injection H1 as <-. injection H2 as <-.
  eexists. split.
  - apply (append_table_filled n c _ _ ((a :: tl) ≫= valid_rows)
             ((b :: tr) ≫= valid_rows)); try reflexivity.
    rewrite Hlen. exact Hsum.
  - pose proof (bind_app valid_rows (a :: tl) (b :: tr)) as Hb.
    cbn [app] in Hb. cbn [merged app]. by rewrite Hb.
Qed.

(** *** [join] name by name *)

Lemma join_spec (g : grouping F) :
  match join g with
  | Ok r => ∀ name, join_entry name g = Ok (r !! name)
  | Raise _ => ∃ name, raised (join_entry name g)
  end.
Proof.
  induction g as [m|l IHl r IHr]; simpl.
  - pose proof (append_analysis_spec ∅ m) as Hs.
    destruct (append_analysis ∅ m) as [r|e].
    + intros name. specialize (Hs name). by rewrite lookup_empty in Hs.
    + destruct Hs as [name Hs]. exists name. by rewrite lookup_empty in Hs.
  - destruct (join l) as [a|e]; simpl.
    + destruct (join r) as [b|e]; simpl.
      * pose proof (append_analysis_spec a b) as Hs.
        destruct (append_analysis a b) as [x|e].
        -- intros name. rewrite IHl, IHr. simpl. apply Hs.
        -- destruct Hs as [name Hs]. exists name. by rewrite IHl, IHr.
      * destruct IHr as (name & e' & He). exists name, e'.
        rewrite IHl. simpl. by rewrite He.
    + destruct IHl as (name & e' & He). exists name, e'. by rewrite He.
Qed.

Lemma tables_of_app name (ps1 ps2 : list (gmap string (table F))) :
  tables_of name (ps1 ++ ps2) = tables_of name ps1 ++ tables_of name ps2.
Proof.
  unfold tables_of. destruct (startswith name "__"); [done|]. apply omap_app.
Qed.

Lemma join_entry_merged name n c (g : grouping F) :
  Forall (well_filled n c) (tables_of name (parts_of g)) →
  sum_list_with idx (tables_of name (parts_of g)) ≤ n →
  join_entry name g = Ok (merged n c (tables_of name (parts_of g))).
Proof.
  induction g as [m|l IHl r IHr]; simpl.
  - unfold tables_of. simpl.
    destruct (m !! name) as [t|] eqn:Hm; simpl; [|by destruct (startswith _ _)].
    destruct (startswith name "__"); [done|].
    intros [Ht _]%Forall_cons _. by rewrite merged_single.
  - rewrite tables_of_app, sum_list_with_app.
    intros Hall Hsum. pose proof Hall as [Hl Hr]%Forall_app.
    rewrite IHl, IHr by (done || lia). rewrite !ret_bind. unfold merge_entry.
    destruct (merged n c (tables_of name (parts_of r))) as [t2|] eqn:H2.
    + assert (startswith name "__" = false) as Hres.
      { unfold tables_of in H2. by destruct (startswith name "__"). }
      rewrite Hres.
      destruct (merged n c (tables_of name (parts_of l))) as [t1|] eqn:H1.
      * destruct (append_merged n c _ _ t1 t2 Hall) as (t' & Happ & Hm);
          try done; [by rewrite sum_list_with_app|].
        by rewrite Happ, Hm.
      * destruct (tables_of name (parts_of l)); [|discriminate].
        cbn [app]. by rewrite H2.
    + destruct (tables_of name (parts_of r)); [|discriminate].
      by rewrite app_nil_r.
Qed.

(** With compatible tables under every name the merges raise nothing and
    arrive at [merged]. *)
Lemma join_compatible (g : grouping F) :
  (∀ name, compatible (tables_of name (parts_of g))) →
  ∃ m, join g = Ok m ∧
       ∀ name n c,
         Forall (well_filled n c) (tables_of name (parts_of g)) →
         sum_list_with idx (tables_of name (parts_of g)) ≤ n →
         m !! name = merged n c (tables_of name (parts_of g)).
Proof.
  intros Hcompat. pose proof (join_spec g) as Hspec.
  destruct (join g) as [m|e].
  - exists m. split; [done|]. intros name n c Hall Hsum.
    specialize (Hspec name). rewrite (join_entry_merged name n c) in Hspec
      by done. by injection Hspec.
  - destruct Hspec as (name & e' & He).
    destruct (Hcompat name) as (ks & d & n & c & _ & Hall & Hsum).
    rewrite (join_entry_merged name n c) in He; [discriminate| |done].
    eapply Forall_impl; [done|]. by intros t (_ & _ & ?).
Qed.

Lemma tables_of_perm name (ps1 ps2 : list (gmap string (table F))) :
  ps1 ≡ₚ ps2 → tables_of name ps1 ≡ₚ tables_of name ps2.
Proof.
  intros Hp. unfold tables_of. destruct (startswith name "__"); [done|].
  by apply omap_Permutation.
Qed.

Lemma sum_list_with_perm {A} (f : A → nat) (l1 l2 : list A) :
  l1 ≡ₚ l2 → sum_list_with f l1 = sum_list_with f l2.
Proof. induction 1; simpl; lia. Qed.

Lemma compatible_perm (ts1 ts2 : list (table F)) :
  ts1 ≡ₚ ts2 → compatible ts1 → compatible ts2.
Proof.
  intros Hp (ks & d & n & c & Hd & Hall & Hsum).
  exists ks, d, n, c. split; [done|]. split.
  - rewrite Forall_forall in Hall |- *. intros t Ht. apply Hall.
    by rewrite Hp.
  - by rewrite <- (sum_list_with_perm idx _ _ Hp).
Qed.

End Tables.

Section Final.
Context {F : Type} `{NumberOrder F}.

(** *** Sorted lists with the same elements *)

Lemma sorted_perm_eq {A} (R : relation A) (l1 l2 : list A) :
  StronglySorted R l1 → StronglySorted R l2 → l1 ≡ₚ l2 →
  (∀ x y, x ∈ l1 → y ∈ l1 → R x y → R y x → x = y) →
  l1 = l2.
Proof.
  revert l2. induction l1 as [|x l1 IH]; intros l2 H1 H2 Hp Hanti.
  - by apply Permutation_nil_l in Hp.
  - destruct l2 as [|y l2]; [by apply Permutation_nil_r in Hp|].
    apply StronglySorted_inv in H1 as [H1 Hx].
    apply StronglySorted_inv in H2 as [H2 Hy].
    rewrite Forall_forall in Hx, Hy.
    assert (x = y) as ->.
    { assert (x ∈ y :: l2) as Hin1 by (rewrite <- Hp; left).
      assert (y ∈ x :: l1) as Hin2 by (rewrite Hp; left).
      apply elem_of_cons in Hin1 as [?|Hin1]; [done|].
      apply elem_of_cons in Hin2 as [?|Hin2]; [done|].
      apply Hanti; [left|by right|by apply Hx|by apply Hy]. }
    f_equal. apply IH; [done|done|by eapply Permutation_cons_inv|].
    intros a b Ha Hb. apply Hanti; by right.
Qed.

Lemma key_le_same_key d (r r' : list F) :
  key_le d r r' → key_le d r' r → same_key d r r' = true.
Proof.
  induction d as [|d IH]; simpl; [done|].
  intros [H1 H1'] [H2 H2']. rewrite H1, H2. simpl. auto.
Qed.

(** *** Finalising a merged table *)

Lemma finalize_table_rows (t : table F) c rows :
  data t = Arr2 c rows → dims t ≤ c → (idx t = 1 → rows ≠ []) →
  finalize_table t
  = Ok {| final_keys := keys t; final_dims := dims t;
          final_simulator := simulator t; final_time := time t;
          final_data :=
            Arr2 c (foldl (λ rs j, sort_by_column j rs) rows
                          (seq 0 (dims t))) |}.
Proof.
  intros Hdata Hd Hrows. destruct (dims t) as [|d] eqn:Hdims.
  - unfold finalize_table. rewrite Hdims, Hdata. simpl.
    destruct (idx t =? 1) eqn:Hidx; [|done].
    apply Nat.eqb_eq in Hidx. destruct rows; [by destruct Hrows|done].
  - rewrite (finalize_table_sorted t c rows) by (done || lia).
    rewrite Hdims. by replace (S d `min` c) with (S d) by lia.
Qed.

Lemma merged_final n c ks d (ts1 ts2 : list (table F)) :
  ts1 ≡ₚ ts2 → d ≤ c →
  Forall (λ t, keys t = ks ∧ dims t = d ∧ well_filled n c t) ts1 →
  sum_list_with idx ts1 ≤ n →
  option_Forall2
    (λ t1 t2, ∃ f1 f2, finalize_table t1 = Ok f1 ∧
                       finalize_table t2 = Ok f2 ∧ same_final f1 f2)
    (merged n c ts1) (merged n c ts2).
Proof.
  intros Hp Hd Hall1 Hsum.
  assert (Forall (λ t, keys t = ks ∧ dims t = d ∧ well_filled n c t) ts2)
    as Hall2.
  { rewrite Forall_forall in Hall1 |- *. intros t Ht. apply Hall1.
    by rewrite Hp. }
  destruct ts1 as [|a ts1].
  { apply Permutation_nil_l in Hp as <-. constructor. }
  destruct ts2 as [|b ts2]; [by apply Permutation_nil_r in Hp|].
  cbn [merged]. constructor.
  set (rows1 := (a :: ts1) ≫= valid_rows). set (rows2 := (b :: ts2) ≫= valid_rows).
  assert (rows1 ≡ₚ rows2) as Hrows by (unfold rows1, rows2; by rewrite Hp).
  assert (length rows1 = length rows2) as Hlen by (by rewrite Hrows).
  apply Forall_cons in Hall1 as [(Hka & Hda & _) _].
  apply Forall_cons in Hall2 as [(Hkb & Hdb & _) _].
  set (pad := replicate (n - length rows1) (zeros1 c)).
  rewrite <- Hlen. fold pad.
  eexists _, _. split; [|split].
  - apply (finalize_table_rows _ c (rows1 ++ pad)); simpl; [done|lia|].
    intros Hone Hnil. apply app_eq_nil in Hnil as [Hnil _].
    rewrite Hnil in Hone. discriminate.
  - apply (finalize_table_rows _ c (rows2 ++ pad)); simpl; [done|lia|].
    intros Hone Hnil. apply app_eq_nil in Hnil as [Hnil _].
    rewrite Hnil in Hlen. simpl in Hlen. lia.
  - split; [simpl; congruence|]. split; [simpl; congruence|].
    eexists c, _, _. split; [done|]. split; [done|]. simpl.
    assert (foldl (λ rs j, sort_by_column j rs) (rows1 ++ pad) (seq 0 (dims a))
            ≡ₚ foldl (λ rs j, sort_by_column j rs) (rows2 ++ pad)
                 (seq 0 (dims b))) as Hperm.
    { by rewrite !passes_perm, Hrows. }
    split; [done|]. intros Huniq.
    apply (sorted_perm_eq (key_le d)); [| |done|].
    + rewrite Hda. apply passes_sorted.
    + rewrite Hdb. apply passes_sorted.
    + intros r r' Hr Hr' Hle Hle'. apply Huniq; [done|done|].
      rewrite Hda. by apply key_le_same_key.
Qed.

End Final.
End MergeOrderFacts.

Module MergeOrderClaims.
Import NumPy Analysis AnalysisAux MergeAux FinalizerFacts MergerFacts.
Import MergeOrderFacts.

Section Claims.
Context {F : Type} `{NumberOrder F}.

Lemma join_finalize_perm (g1 g2 : grouping F) :
  parts_of g1 ≡ₚ parts_of g2 →
  (∀ name, compatible (tables_of name (parts_of g1))) →
  ∃ m1 m2 final1 final2,
    join g1 = Ok m1 ∧ join g2 = Ok m2 ∧
    finalize_analysis m1 = Ok final1 ∧ finalize_analysis m2 = Ok final2 ∧
    ∀ name, option_Forall2 same_final (final1 !! name) (final2 !! name).
Proof.
  intros Hp Hc1.
  assert (∀ name, compatible (tables_of name (parts_of g2))) as Hc2.
  { intros name. eapply compatible_perm; [|apply Hc1]. by apply tables_of_perm. }
  destruct (join_compatible g1 Hc1) as (m1 & Hj1 & Hm1).
  destruct (join_compatible g2 Hc2) as (m2 & Hj2 & Hm2).
  assert (∀ name,
    option_Forall2
      (λ t1 t2, ∃ f1 f2, finalize_table t1 = Ok f1 ∧
                         finalize_table t2 = Ok f2 ∧ same_final f1 f2)
      (m1 !! name) (m2 !! name)) as Hkey.
  { intros name.
    destruct (Hc1 name) as (ks & d & n & c & Hd & Hall & Hsum).
    pose proof (tables_of_perm name _ _ Hp) as Hperm.
    assert (Forall (well_filled n c) (tables_of name (parts_of g1))) as Hw1.
    { eapply Forall_impl; [done|]. by intros t (_ & _ & ?). }
    assert (Forall (well_filled n c) (tables_of name (parts_of g2))) as Hw2.
    { rewrite Forall_forall in Hw1 |- *. intros t Ht. apply Hw1.
      by rewrite Hperm. }
    rewrite (Hm1 name n c), (Hm2 name n c); try done.
    - by apply (merged_final n c ks d).
    - by rewrite <- (sum_list_with_perm idx _ _ Hperm). }
  destruct (finalize_analysis_returns m1) as [final1 Hf1].
  { intros name res Hres. specialize (Hkey name). rewrite Hres in Hkey.
    inversion Hkey as [? t2 (f1 & f2 & ? & _)|]. by exists f1. }
  destruct (finalize_analysis_returns m2) as [final2 Hf2].
  { intros name res Hres. specialize (Hkey name). rewrite Hres in Hkey.
    inversion Hkey as [t1 ? (f1 & f2 & _ & ? & _)|]. by exists f2. }
  exists m1, m2, final1, final2. repeat (split; [done|]).
  intros name.
  pose proof (finalize_analysis_spec m1) as Hs1. rewrite Hf1 in Hs1.
  pose proof (finalize_analysis_spec m2) as Hs2. rewrite Hf2 in Hs2.
  specialize (Hs1 name). specialize (Hs2 name). specialize (Hkey name).
  destruct Hkey as [t1 t2 (f1 & f2 & Hft1 & Hft2 & Hsame)|].
  - destruct Hs1 as (f1' & Hf1' & ->). destruct Hs2 as (f2' & Hf2' & ->).
    constructor. congruence.
  - rewrite Hs1, Hs2. constructor.
Qed.

(** *** The order of the files *)

Lemma parts_of_left_deep (g : grouping F) ps :
  parts_of (left_deep g ps) = parts_of g ++ ps.
Proof.
  revert g. induction ps as [|m ps IH]; intros g; simpl.
  - by rewrite app_nil_r.
  - rewrite IH. simpl. by rewrite <- app_assoc.
Qed.

(** Taking a part up from the empty mapping first changes nothing. *)
Lemma append_analysis_taken_up (a m r : gmap string (table F)) :
  (b ← append_analysis ∅ m; append_analysis a b) = Ok r ↔
  append_analysis a m = Ok r.
Proof.
  destruct (append_analysis ∅ m) as [b|e] eqn:Hb.
  - rewrite ret_bind.
    pose proof (proj1 (append_analysis_Ok _ _ _) Hb) as Hb'.
    clear Hb. rename Hb' into Hb.
    rewrite !append_analysis_Ok.
    assert (∀ name, merge_entry name (a !! name) (b !! name)
                    = merge_entry name (a !! name) (m !! name)) as Heq.
    { intros name. specialize (Hb name). rewrite lookup_empty in Hb.
      unfold merge_entry in *.
      destruct (m !! name) as [t|]; [|by injection Hb as <-].
      destruct (startswith name "__"); injection Hb as <-; [done|].
      by destruct (startswith name "__"). }
    split; intros Hall name; [rewrite <- Heq|rewrite Heq]; apply Hall.
  - pose proof (append_analysis_spec ∅ m) as Hs. rewrite Hb in Hs.
    destruct Hs as (name & e' & He). rewrite lookup_empty in He.
    unfold merge_entry in He.
    destruct (m !! name); [destruct (startswith name "__")|]; discriminate.
Qed.

Lemma join_parts_left_deep (g : grouping F) acc ps :
  (∀ r, acc = Ok r ↔ join g = Ok r) →
  ∀ r, foldl (λ r part, analysis ← r; append_analysis analysis part) acc ps
       = Ok r ↔ join (left_deep g ps) = Ok r.
Proof.
  revert g acc. induction ps as [|m ps IH]; intros g acc Hacc; [done|].
  simpl. apply IH. intros r. simpl.
  destruct acc as [a|e]; simpl.
  - pose proof (proj1 (Hacc a) eq_refl) as ->. rewrite ret_bind.
    symmetry. apply append_analysis_taken_up.
  - destruct (join g) as [a|e'] eqn:Hg; [|done].
    by pose proof (proj2 (Hacc a) eq_refl).
Qed.

(** [join_parts] is the grouping that takes the parts from left to
    right. *)
Lemma join_parts_grouping (p : gmap string (table F)) ps r :
  join_parts (p :: ps) = Ok r ↔ join (left_deep (Part p) ps) = Ok r.
Proof. unfold join_parts. simpl. by apply join_parts_left_deep. Qed.

(** C2, as amended. Let the tables that the parts hold for each experiment
    name have the same keys and number of varied parameters and matrices
    of the same shape, with zero rows from the cursor on and together no
    more rows than declared. Then merging the parts in any order and
    grouping and finalising the result raises no exception, and two ways
    of merging the same parts give final tables for the same names with
    the same keys, the same dims and data matrices that hold the same rows;
    the matrices are identical when rows that agree on the varied
    parameters are equal rows, in particular when no two rows agree on
    them. (Rows that agree on the varied parameters stay in the order of
    the merge; nothing is said of the timing map.) *)
Theorem merge_order_independent (g1 g2 : grouping F) :
  parts_of g1 ≡ₚ parts_of g2 →
  (∀ name, compatible (tables_of name (parts_of g1))) →
  ∃ final1 final2,
    join g1 ≫= finalize_analysis = Ok final1 ∧
    join g2 ≫= finalize_analysis = Ok final2 ∧
    ∀ name, option_Forall2 same_final (final1 !! name) (final2 !! name).
Proof.
  intros Hp Hc.
  destruct (join_finalize_perm g1 g2 Hp Hc)
    as (m1 & m2 & final1 & final2 & -> & -> & Hf1 & Hf2 & Hsame).
  by exists final1, final2.
Qed.

(** The same for [analysis_join_output_files]: the files in two orders. *)
Corollary join_parts_order_independent (ps1 ps2 : list (gmap string (table F))) :
  ps1 ≡ₚ ps2 →
  (∀ name, compatible (tables_of name ps1)) →
  ∃ final1 final2,
    join_parts ps1 ≫= finalize_analysis = Ok final1 ∧
    join_parts ps2 ≫= finalize_analysis = Ok final2 ∧
    ∀ name, option_Forall2 same_final (final1 !! name) (final2 !! name).
Proof.
  intros Hp Hc. destruct ps1 as [|p1 ps1].
  { apply Permutation_nil_l in Hp as <-. exists ∅, ∅.
    repeat split; try done. intros name. rewrite lookup_empty. constructor. }
  destruct ps2 as [|p2 ps2]; [by apply Permutation_nil_r in Hp|].
  destruct (join_finalize_perm (left_deep (Part p1) ps1)
              (left_deep (Part p2) ps2))
    as (m1 & m2 & final1 & final2 & Hj1 & Hj2 & Hf1 & Hf2 & Hsame).
  { by rewrite !parts_of_left_deep. }
  { by rewrite parts_of_left_deep. }
  exists final1, final2.
  apply join_parts_grouping in Hj1. apply join_parts_grouping in Hj2.
  by rewrite Hj1, Hj2.
Qed.

End Claims.

Import Exact ExactFacts DemoTables.

(** Witness for the amended C2: two files with one row each for the same
    experiment, merged in both orders. *)
Lemma merge_order_independent_witness :
  ∃ final1 final2,
    join (Merge (Part file_two) (Part file_one)) ≫= finalize_analysis
    = Ok final1 ∧
    join (Merge (Part file_one) (Part file_two)) ≫= finalize_analysis
    = Ok final2 ∧
    ∀ name, option_Forall2 same_final (final1 !! name) (final2 !! name).
Proof.
  apply (merge_order_independent (Merge (Part file_two) (Part file_one))
           (Merge (Part file_one) (Part file_two))).
  - apply Permutation_swap.
  - intros name. unfold tables_of. simpl.
    destruct (startswith name "__"); [by exists [], 0, 0, 0|].
    destruct (decide (name = "exp")) as [->|Hne].
    + unfold file_two, file_one. rewrite !lookup_singleton_eq. simpl.
      exists (["data.n_ones_in"] ++ metric_keys), 1, 2, 13.
      split; [lia|]. split; [|simpl; lia].
      apply Forall_cons. split.
      { split; [done|]. split; [done|]. exists [row [2] 20].
        split; [reflexivity|]. split; [reflexivity|simpl; lia]. }
      apply Forall_cons. split; [|by apply Forall_nil].
      split; [done|]. split; [done|]. exists [row [1] 10].
      split; [reflexivity|]. split; [reflexivity|simpl; lia].
    + unfold file_two, file_one. rewrite !lookup_singleton_ne by done.
      by exists [], 0, 0, 0.
Defined.

(** Counterexample to C2 as stated: two files hold one row each for the
    same experiment and the same value of the varied parameter, with
    different metrics; their keys agree and so do their timing maps. The
    sort keeps rows with equal parameters in the order of the merge, so
    the two orders of merging give different data matrices. *)
Lemma merge_order_changes_ties :
  join_parts [repeat_ten; repeat_twenty] ≫= finalize_analysis
  = Ok {["exp" := final_of ["data.n_ones_in"] 5 [row [1] 10; row [1] 20]]} ∧
  join_parts [repeat_twenty; repeat_ten] ≫= finalize_analysis
  = Ok {["exp" := final_of ["data.n_ones_in"] 5 [row [1] 20; row [1] 10]]} ∧
  final_of ["data.n_ones_in"] 5 [row [1] 10; row [1] 20]
  ≠ final_of ["data.n_ones_in"] 5 [row [1] 20; row [1] 10].
Proof.
  split; [vm_compute; reflexivity|]. split; [vm_compute; reflexivity|].
  intros Heq. vm_compute in Heq. discriminate.
Qed.

(** The timing map of a merged table is the one of the file merged first:
    [append_analysis] copies rows and moves the cursor, and leaves the
    timings of the other files out. With different parameters the data
    matrices agree and the timing maps depend on the order. *)
Example join_parts_keeps_first_timing :
  join_parts [file_two; file_one] ≫= finalize_analysis
  = Ok {["exp" := final_of ["data.n_ones_in"] 5 [row [1] 10; row [2] 20]]} ∧
  join_parts [file_one; file_two] ≫= finalize_analysis
  = Ok {["exp" := final_of ["data.n_ones_in"] 7 [row [1] 10; row [2] 20]]}.
Proof. split; vm_compute; reflexivity. Qed.

End MergeOrderClaims.

(** * The command line *)

Module CliFacts.
Import Cli CliAux SchedulerFacts.

Lemma run_ret_bind {A B} (a : A) (f : A → run B) : mret a ≫= f = f a.
Proof.
  unfold mret, mbind, run_ret, run_bind. simpl. by destruct (f a).
Qed.

Lemma startswith_split (s pre : string) :
  startswith s pre = true →
  s = pre +:+ drop_first (String.length pre) s.
Proof.
  unfold startswith, drop_first. revert s.
  induction pre as [|a pre IH]; intros s; simpl.
  - intros _. rewrite Nat.sub_0_r. by rewrite substring_all.
  - destruct s as [|b s]; [done|]. simpl.
    destruct (ascii_dec a b) as [->|]; [|done].
    intros Hp. change (String b s = String b (pre +:+ String.substring
      (String.length pre) (String.length s - String.length pre) s)).
    f_equal. by apply IH.
Qed.

Lemma among_elem_of (mode : string) (l : list string) :
  among mode l = true ↔ mode ∈ l.
Proof.
  unfold among. induction l as [|x l IH]; simpl.
  - split; [done|]. by intros ?%elem_of_nil.
  - rewrite orb_true_iff, IH, elem_of_cons, String.eqb_eq. done.
Qed.

(** The decisions of [parse_parameters], one after the other. *)
Lemma parse_parameters_cases argv :
  parse_parameters argv =
  let n := length argv in
  if n =? 1 then fail "Error: At least one argument is required"
  else if (2 <=? n) && startswith (argv !!! 1) "--" then
    if String.eqb (argv !!! 1) "-h" || String.eqb (argv !!! 1) "--help"
    then (help_lines, SysExit 1)
    else fail "Error: Invalid arguments"
  else if n =? 2 then
    ([], Returns {[ "mode" := Str "process"; "simulator" := Str (argv !!! 1);
                    "experiment" := Str "experiment.json" ]})
  else if (n =? 3) && negb (startswith (argv !!! 2) "--") then
    ([], Returns {[ "mode" := Str "process"; "simulator" := Str (argv !!! 1);
                    "experiment" := Str (argv !!! 2) ]})
  else if (n <? 3) || negb (startswith (argv !!! 2) "--") then
    fail "Error: Invalid arguments"
  else
    let mode := drop_first 2 (argv !!! 2) in
    if negb (among mode modes) then
      fail ("Error: Processing mode must be one of " +:+ str_list modes
            +:+ ", but " +:+ dq +:+ mode +:+ dq +:+ " was given")
    else if n <? 4 then
      fail ("Error: At least one argument is required for mode " +:+ dq
            +:+ mode +:+ dq)
    else if among mode ["process"; "process-keep"; "create"] then
      if negb (n =? 4) then
        fail ("Error: Mode " +:+ dq +:+ mode +:+ dq
              +:+ " requires exactly one argument")
      else
        ([], Returns {[ "mode" := Str mode; "simulator" := Str (argv !!! 1);
                        "experiment" := Str (argv !!! 3) ]})
    else if among mode ["exec"; "analyse-exec"] then
      ([], Returns {[ "mode" := Str mode; "simulator" := Str (argv !!! 1);
                      "files" := Strs (drop 3 argv) ]})
    else if among mode ["analyse"; "analyse-join"] then
      ([], Returns {[ "mode" := Str mode; "target" := Str (argv !!! 1);
                      "files" := Strs (drop 3 argv) ]})
    else ([ShortHelp], SysExit 1).
Proof.
  unfold parse_parameters, when. cbv zeta.
  destruct (length argv =? 1); [done|].
  destruct ((2 <=? length argv) && startswith (argv !!! 1) "--").
  { by destruct (String.eqb (argv !!! 1) "-h"
                 || String.eqb (argv !!! 1) "--help"). }
  destruct (length argv =? 2); [done|].
  destruct ((length argv =? 3) && negb (startswith (argv !!! 2) "--"));
    [done|].
  destruct ((length argv <? 3) || negb (startswith (argv !!! 2) "--"));
    [done|].
  destruct (among (drop_first 2 (argv !!! 2)) modes); [|done].
  destruct (length argv <? 4); [done|].
  destruct (among (drop_first 2 (argv !!! 2))
              ["process"; "process-keep"; "create"]).
  { by destruct (length argv =? 4). }
  destruct (among (drop_first 2 (argv !!! 2)) ["exec"; "analyse-exec"]);
    [done|].
  by destruct (among (drop_first 2 (argv !!! 2)) ["analyse"; "analyse-join"]).
Qed.

Ltac parse_shape :=
  rewrite parse_parameters_cases; cbv zeta; unfold fail;
  cbn [length Nat.eqb Nat.leb Nat.ltb andb orb negb];
  repeat match goal with
  | |- context [(?x :: ?l) !!! 0] => change ((x :: l) !!! 0) with x
  | |- context [(?x :: ?l) !!! S ?n] =>
      change ((x :: l) !!! S n) with (l !!! n)
  end.

Lemma parse_parameters_accepted argv out p :
  parse_parameters argv = (out, Returns p) →
  out = [] ∧ accepted argv p ∧
  ∃ first, argv !! 1 = Some first ∧ startswith first "--" = false.
Proof.
  destruct argv as [|prog [|a1 [|a2 [|a3 rest]]]]; parse_shape;
    try discriminate.
  - destruct (startswith a1 "--") eqn:H1.
    { destruct (_ || _); discriminate. }
    intros [= <- <-]. split; [done|]. split; [constructor|eauto].
  - destruct (startswith a1 "--") eqn:H1.
    { destruct (_ || _); discriminate. }
    destruct (startswith a2 "--") eqn:H2; cbn [negb andb orb].
    { destruct (among _ modes); discriminate. }
    intros [= <- <-]. split; [done|]. split; [by constructor|eauto].
  - destruct (startswith a1 "--") eqn:H1.
    { destruct (_ || _); discriminate. }
    destruct (startswith a2 "--") eqn:H2; cbn [negb andb orb];
      [|discriminate].
    apply startswith_split in H2. cbn [String.length] in H2.
    set (mode := drop_first 2 a2) in *.
    destruct (among mode modes) eqn:Hm; cbn [negb]; [|discriminate].
    destruct (among mode ["process"; "process-keep"; "create"]) eqn:Hp.
    { destruct rest as [|a4 rest]; cbn [length Nat.eqb negb];
        [|discriminate].
      intros [= <- <-]. split; [done|]. rewrite H2.
      split; [|eauto]. constructor. by apply among_elem_of. }
    destruct (among mode ["exec"; "analyse-exec"]) eqn:He.
    { intros [= <- <-]. split; [done|]. rewrite H2.
      split; [|eauto]. constructor. by apply among_elem_of. }
    destruct (among mode ["analyse"; "analyse-join"]) eqn:Ha;
      [|discriminate].
    intros [= <- <-]. split; [done|]. rewrite H2.
    split; [|eauto]. constructor. by apply among_elem_of.
Qed.

Lemma accepted_parsed argv p first :
  accepted argv p → argv !! 1 = Some first → startswith first "--" = false →
  parse_parameters argv = ([], Returns p).
Proof.
  intros Hacc Hfirst Hdash.
  destruct Hacc as [prog sim|prog sim exp Hexp|prog sim mode exp Hmode
                   |prog sim mode f files Hmode|prog sim mode f files Hmode];
    injection Hfirst as ->; parse_shape; rewrite Hdash.
  - done.
  - by rewrite Hexp.
  - repeat (apply elem_of_cons in Hmode as [->|Hmode]; [done|]).
    by apply elem_of_nil in Hmode.
  - repeat (apply elem_of_cons in Hmode as [->|Hmode]; [done|]).
    by apply elem_of_nil in Hmode.
  - repeat (apply elem_of_cons in Hmode as [->|Hmode]; [done|]).
    by apply elem_of_nil in Hmode.
Qed.

(** [parse_parameters] returns, without a line of output, exactly on the
    documented command lines whose first argument does not start with two
    dashes, and what it returns is the dictionary of the form: the mode is
    one of the seven modes, the experiment is the one named (or
    [experiment.json]), and the list of files of the modes [exec],
    [analyse-exec], [analyse] and [analyse-join] is not empty. *)
Theorem parse_parameters_returns argv out p :
  parse_parameters argv = (out, Returns p) ↔
  out = [] ∧ accepted argv p ∧
  ∃ first, argv !! 1 = Some first ∧ startswith first "--" = false.
Proof.
  split; [apply parse_parameters_accepted|].
  intros (-> & Hacc & first & Hfirst & Hdash). by eapply accepted_parsed.
Qed.

(** The comparison with ["-h"] on line 129 is made only on arguments that
    start with two dashes, where it is false. *)
Lemma help_requested (a1 : string) :
  startswith a1 "--" && (String.eqb a1 "-h" || String.eqb a1 "--help")
  = String.eqb a1 "--help".
Proof.
  destruct (String.eqb_spec a1 "--help") as [->|_]; [done|].
  destruct (String.eqb_spec a1 "-h") as [->|_]; [done|].
  apply andb_false_r.
Qed.

(** [parse_parameters] never raises. When the first argument is [--help]
    it prints the usage text and the detected simulators and exits with
    status 1, whatever follows; in every other case it either returns
    without output or prints one error line and the hint of [short_help]
    and exits with status 1. So [-h] is not taken for a request for help,
    and the call of [short_help] on line 201 is never reached. *)
Theorem parse_parameters_exits argv :
  ∃ out c,
    parse_parameters argv = (out, c) ∧
    (argv !! 1 = Some "--help" → out = help_lines ∧ c = SysExit 1) ∧
    (argv !! 1 ≠ Some "--help" →
     (∃ p, out = [] ∧ c = Returns p) ∨
     (∃ msg, out = [Line msg; ShortHelp] ∧ c = SysExit 1)).
Proof.
  assert (∀ a1 (rest : list string) (m : run (gmap string value)),
    (startswith a1 "--" = false →
     ∃ out c, m = (out, c) ∧
       ((∃ p, out = [] ∧ c = Returns p) ∨
        (∃ msg, out = [Line msg; ShortHelp] ∧ c = SysExit 1))) →
    ∃ out c,
      (if startswith a1 "--"
       then if String.eqb a1 "-h" || String.eqb a1 "--help"
            then (help_lines, SysExit 1)
            else ([Line "Error: Invalid arguments"; ShortHelp], SysExit 1)
       else m) = (out, c) ∧
      (Some a1 = Some "--help" → out = help_lines ∧ c = SysExit 1) ∧
      (Some a1 ≠ Some "--help" →
       (∃ p, out = [] ∧ c = Returns p) ∨
       (∃ msg, out = [Line msg; ShortHelp] ∧ c = SysExit 1))) as Hfirst.
  { intros a1 rest m Hm. pose proof (help_requested a1) as Hh.
    destruct (startswith a1 "--") eqn:H1; simpl in Hh.
    - rewrite Hh. destruct (String.eqb_spec a1 "--help") as [->|Hne].
      + eexists _, _. split; [done|]. split; [done|]. by intros [].
      + eexists _, _. split; [done|]. split; [by intros [= ?]|].
        intros _. right. eauto.
    - destruct (Hm eq_refl) as (out & c & -> & Hc). exists out, c.
      split; [done|]. split; [|done].
      intros [= ->]. discriminate. }
  destruct argv as [|prog [|a1 [|a2 [|a3 rest]]]]; parse_shape.
  - eexists _, _. split; [done|]. split; [done|]. intros _. right. eauto.
  - eexists _, _. split; [done|]. split; [done|]. intros _. right. eauto.
  - apply (Hfirst a1 []). intros _. eexists _, _. split; [done|]. left. eauto.
  - apply (Hfirst a1 []). intros _.
    destruct (startswith a2 "--"); cbn [negb andb orb].
    + destruct (among _ modes); cbn [negb]; eexists _, _;
        (split; [done|]); right; eauto.
    + eexists _, _. split; [done|]. left. eauto.
  - change ((prog :: a1 :: a2 :: a3 :: rest) !! 1) with (Some a1).
    apply (Hfirst a1 []). intros _.
    destruct (startswith a2 "--"); cbn [negb andb orb];
      [|eexists _, _; (split; [done|]); right; eauto].
    set (mode := drop_first 2 a2).
    destruct (among mode modes) eqn:Hm; cbn [negb];
      [|eexists _, _; (split; [done|]); right; eauto].
    destruct (among mode ["process"; "process-keep"; "create"]) eqn:Hp.
    { destruct rest; cbn [length Nat.eqb negb]; eexists _, _;
        (split; [done|]); [left|right]; eauto. }
    destruct (among mode ["exec"; "analyse-exec"]) eqn:He;
      [eexists _, _; (split; [done|]); left; eauto|].
    destruct (among mode ["analyse"; "analyse-join"]) eqn:Ha;
      [eexists _, _; (split; [done|]); left; eauto|].
    exfalso. unfold among, modes in *. cbn [existsb] in *.
    repeat match goal with
    | H : _ || _ = false |- _ => apply orb_false_iff in H as [? ?]
    end.
    repeat match goal with
    | H : String.eqb mode ?s = false |- _ => rewrite H in Hm; clear H
    end.
    discriminate.
Qed.

(** *** Existence of the files *)

Lemma accepted_files argv p :
  accepted argv p →
  (∃ e, p !! "experiment" = Some (Str e) ∧ p !! "files" = None) ∨
  (∃ file files, p !! "experiment" = None ∧
                 p !! "files" = Some (Strs (file :: files)) ∧
                 drop 3 argv = file :: files).
Proof.
  intros [prog sim|prog sim exp Hexp|prog sim mode exp Hmode
         |prog sim mode f files Hmode|prog sim mode f files Hmode].
  - left. exists "experiment.json". split.
    + rewrite !lookup_insert_ne by done. apply lookup_singleton_eq.
    + rewrite !lookup_insert_ne by done. by apply lookup_singleton_ne.
  - left. exists exp. split.
    + rewrite !lookup_insert_ne by done. apply lookup_singleton_eq.
    + rewrite !lookup_insert_ne by done. by apply lookup_singleton_ne.
  - left. exists exp. split.
    + rewrite !lookup_insert_ne by done. apply lookup_singleton_eq.
    + rewrite !lookup_insert_ne by done. by apply lookup_singleton_ne.
  - right. exists f, files. split; [|split; [|done]].
    + rewrite !lookup_insert_ne by done. by apply lookup_singleton_ne.
    + rewrite !lookup_insert_ne by done. apply lookup_singleton_eq.
  - right. exists f, files. split; [|split; [|done]].
    + rewrite !lookup_insert_ne by done. by apply lookup_singleton_ne.
    + rewrite !lookup_insert_ne by done. apply lookup_singleton_eq.
Qed.

Lemma validate_parameters_accepted isfile argv p :
  accepted argv p →
  validate_parameters isfile p = check_files isfile (map Str (files_of p)).
Proof.
  intros Hacc. unfold validate_parameters, named_files, files_of.
  destruct (accepted_files argv p Hacc)
    as [(e & -> & ->)|(f & fs & -> & -> & _)]; apply run_ret_bind.
Qed.

Lemma check_files_all isfile (l : list string) :
  Forall (λ fn, isfile fn = true) l →
  check_files isfile (map Str l) = ([], Returns ()).
Proof.
  induction 1 as [|fn l Hfn _ IH]; [done|]. simpl.
  rewrite Hfn. simpl. by rewrite IH.
Qed.

Lemma check_files_missing isfile (pre : list string) fn post :
  Forall (λ fn, isfile fn = true) pre → isfile fn = false →
  check_files isfile (map Str (pre ++ fn :: post))
  = ([missing fn; ShortHelp], SysExit 1).
Proof.
  intros Hpre Hfn. induction Hpre as [|x pre Hx _ IH]; simpl.
  - by rewrite Hfn.
  - rewrite Hx. simpl. by rewrite IH.
Qed.

(** [validate_parameters], on a dictionary that [parse_parameters]
    returned, asks the file system about the experiment file or the files
    of the command line, in this order. It returns without output when
    all of them are files; otherwise it names the first one that is not,
    prints the hint of [short_help] and exits with status 1. *)
Theorem validate_parameters_checks (isfile : string → bool) argv out p :
  parse_parameters argv = (out, Returns p) →
  (Forall (λ fn, isfile fn = true) (files_of p) →
   validate_parameters isfile p = ([], Returns ())) ∧
  (∀ pre fn post,
     files_of p = pre ++ fn :: post →
     Forall (λ fn, isfile fn = true) pre → isfile fn = false →
     validate_parameters isfile p = ([missing fn; ShortHelp], SysExit 1)).
Proof.
  intros (_ & Hacc & _)%parse_parameters_accepted.
  rewrite (validate_parameters_accepted isfile argv p Hacc). split.
  - apply check_files_all.
  - intros pre fn post ->. apply check_files_missing.
Qed.

(** Witness: two job files of which the second is missing. *)
Lemma validate_parameters_checks_witness :
  parse_parameters DemoCli.exec_line = ([], Returns DemoCli.exec_params) ∧
  files_of DemoCli.exec_params = ["a.in.gz"; "b.in.gz"] ∧
  validate_parameters DemoCli.only_a DemoCli.exec_params
  = ([missing "b.in.gz"; ShortHelp], SysExit 1).
Proof.
  split; [reflexivity|]. split; [reflexivity|].
  apply (proj2 (validate_parameters_checks DemoCli.only_a DemoCli.exec_line
                  [] DemoCli.exec_params eq_refl)
               ["a.in.gz"] "b.in.gz" []).
  - reflexivity.
  - by constructor.
  - reflexivity.
Defined.

End CliFacts.

(** * The job files *)

Module CreatorFacts.
Import Scheduler Creator SchedulerFacts.

(** *** Strings *)

Lemma string_app_assoc (a b c : string) : (a +:+ b) +:+ c = a +:+ (b +:+ c).
Proof.
  induction a as [|x a IH]; [done|].
  change (String x ((a +:+ b) +:+ c) = String x (a +:+ (b +:+ c))).
  by rewrite IH.
Qed.

(** Two strings that end in suffixes of the same length agree in both
    parts. *)
Lemma string_app_inj_suffix (a b s t : string) :
  String.length s = String.length t → a +:+ s = b +:+ t → a = b ∧ s = t.
Proof.
  intros Hlen. revert b. induction a as [|x a IH]; intros [|y b] Heq.
  - done.
  - change (s = String y (b +:+ t)) in Heq. subst s.
    simpl in Hlen. rewrite string_length_app in Hlen. lia.
  - change (String x (a +:+ s) = t) in Heq. subst t.
    simpl in Hlen. rewrite string_length_app in Hlen. lia.
  - change (String x (a +:+ s) = String y (b +:+ t)) in Heq.
    injection Heq as -> Heq. destruct (IH b Heq) as [-> ->]. done.
Qed.

(** *** [os.path.join] *)

(** A name that starts with the experiment name and an underscore is
    joined to the path in the same way whatever follows. *)
Lemma join_uniform (path name : string) :
  ∃ stem, ∀ t, join path (name +:+ "_" +:+ t) = stem +:+ t.
Proof.
  unfold join.
  assert (∃ b, ∀ t, startswith (name +:+ "_" +:+ t) "/" = b) as [b Hb].
  { destruct name as [|c name].
    - exists false. intros t. reflexivity.
    - exists (if ascii_dec "/" c then true else false). intros t.
      unfold startswith.
      change (String c name +:+ "_" +:+ t)
        with (String c (name +:+ "_" +:+ t)).
      cbn [String.prefix]. destruct (ascii_dec "/" c); [|done].
      by destruct (name +:+ "_" +:+ t). }
  destruct b.
  - exists (name +:+ "_"). intros t. by rewrite Hb, string_app_assoc.
  - destruct (String.eqb path "" || endswith path "/").
    + exists (path +:+ name +:+ "_"). intros t.
      by rewrite Hb, !string_app_assoc.
    + exists (path +:+ "/" +:+ name +:+ "_"). intros t.
      by rewrite Hb, !string_app_assoc.
Qed.

(** *** The names of the files *)

Section Names.
Context {P : Type}.
Implicit Types (pools : list P).

Lemma store_pools_names path name analyse i pools :
  (store_pools path name analyse i pools).2
  = (in_filename path name <$> seq i (length pools),
     (λ k, out_filename path name k analyse) <$> seq i (length pools)).
Proof.
  revert i. induction pools as [|pool pools IH]; intros i; simpl; [done|].
  specialize (IH (S i)).
  destruct (store_pools path name analyse (S i) pools) as [tr [ins outs]].
  simpl in *. by injection IH as -> ->.
Qed.

Lemma create_networks_names (h : host P) experiment_file simulator path
    analyse :
  (create_networks h experiment_file simulator path analyse).2
  = let name := experiment_name experiment_file in
    let n := length (build h experiment_file simulator 1437243) in
    (in_filename path name <$> seq 0 n,
     (λ k, out_filename path name k analyse) <$> seq 0 n).
Proof.
  unfold create_networks. cbv zeta.
  rewrite <- store_pools_names.
  by destruct (store_pools _ _ _ _ _) as [tr files].
Qed.

Lemma out_filename_output_file path name i analyse :
  output_file (in_filename path name i) analyse
  = out_filename path name i analyse.
Proof.
  unfold in_filename, out_filename.
  destruct (join_uniform path name) as [stem Hstem]. rewrite !Hstem.
  rewrite <- !string_app_assoc, output_file_stem. by destruct analyse.
Qed.

Lemma in_filename_inj path name : Inj (=) (=) (in_filename path name).
Proof.
  intros i j. unfold in_filename.
  destruct (join_uniform path name) as [stem Hstem]. rewrite !Hstem.
  intros Heq%(inj (String.append stem)).
  apply string_app_inj_suffix in Heq as [Heq _]; [|done].
  by apply (inj pretty).
Qed.

Lemma out_filename_inj path name analyse :
  Inj (=) (=) (λ k, out_filename path name k analyse).
Proof.
  intros i j. unfold out_filename.
  destruct (join_uniform path name) as [stem Hstem]. rewrite !Hstem.
  intros Heq%(inj (String.append stem)).
  apply string_app_inj_suffix in Heq as [Heq _]; [|done].
  by apply (inj pretty).
Qed.

Lemma in_filename_out_filename path name analyse i j :
  in_filename path name i ≠ out_filename path name j analyse.
Proof.
  unfold in_filename, out_filename.
  destruct (join_uniform path name) as [stem Hstem]. rewrite !Hstem.
  intros Heq%(inj (String.append stem)).
  destruct analyse.
  - change ".out.mat" with (".o" +:+ "ut.mat") in Heq.
    rewrite <- (string_app_assoc (str j)) in Heq.
    by apply string_app_inj_suffix in Heq as [_ ?].
  - change ".out.gz" with ("." +:+ "out.gz") in Heq.
    rewrite <- (string_app_assoc (str j)) in Heq.
    by apply string_app_inj_suffix in Heq as [_ ?].
Qed.

(** The output files [create_networks] announces are the files that
    [execute_networks] writes: for every pool, the name of the output file
    is the one that the single-job path of [execute_networks], run with
    the same flag [analyse], derives from the name of the input file. *)
Theorem create_networks_output_files (h : host P) experiment_file simulator
    path analyse :
  let files :=
    (create_networks h experiment_file simulator path analyse).2 in
  files.2 = (λ input_file, output_file input_file analyse) <$> files.1.
Proof.
  cbv zeta. rewrite create_networks_names. cbv zeta. simpl.
  rewrite <- list_fmap_compose. apply list_fmap_ext.
  intros _ k _. simpl. by rewrite out_filename_output_file.
Qed.

(** No two of the files that [create_networks] names are the same file
    name: the input files differ from each other, the output files
    differ from each other, and no output file is an input file. *)
Theorem create_networks_distinct (h : host P) experiment_file simulator
    path analyse :
  let files :=
    (create_networks h experiment_file simulator path analyse).2 in
  NoDup (files.1 ++ files.2).
Proof.
  cbv zeta. rewrite create_networks_names. cbv zeta. simpl.
  apply NoDup_app. split; [|split].
  - apply (@NoDup_fmap_2 _ _ _ (in_filename_inj _ _)), NoDup_seq.
  - intros x (i & -> & _)%list_elem_of_fmap (j & Hj & _)%list_elem_of_fmap.
    by apply in_filename_out_filename in Hj.
  - apply (@NoDup_fmap_2 _ _ _ (out_filename_inj _ _ _)), NoDup_seq.
Qed.

End Names.

End CreatorFacts.

(** * The order of the launches *)

Module OrderFacts.
Import Scheduler SchedulerAux OrderAux SchedulerFacts.

Lemma launches_app tr1 tr2 : launches (tr1 ++ tr2) = launches tr1 ++ launches tr2.
Proof.
  induction tr1 as [|ev tr1 IH]; [done|].
  destruct ev; simpl; by rewrite ?IH.
Qed.

Lemma launches_none tr :
  (∀ p cmd t, Popen p cmd t ∉ tr) → launches tr = [].
Proof.
  induction tr as [|ev tr IH]; intros Hno; [done|].
  assert (launches tr = []) as Htr.
  { apply IH. intros p cmd t Hin. apply (Hno p cmd t). by right. }
  destruct ev; simpl; try done.
  exfalso. eapply Hno. left.
Qed.

Lemma numbered_snoc {A} (l : list A) x :
  numbered (l ++ [x]) = numbered l ++ [(length l, x)].
Proof.
  unfold numbered. rewrite length_app. simpl.
  rewrite seq_app. simpl. rewrite zip_with_app by by rewrite length_seq.
  done.
Qed.

Section Order.
Variables (h : host) (cs : list (list string)).

Lemma lifo_initial : lifo cs (initial cs).
Proof. by exists []. Qed.

Lemma lifo_spawn c s : lifo cs s → lifo cs (spawn h c s).
Proof.
  intros (done & Hcs & Htr & Hn).
  destruct (spawn_cases h c s) as [[-> _]|(cmd & rest & Hcmds & _ & _ & ->)].
  - by exists done.
  - exists (done ++ [cmd]). simpl. split; [|split].
    + rewrite Hcs, Hcmds, reverse_app. simpl. by rewrite <- app_assoc.
    + rewrite launches_app, Htr, numbered_snoc, Hn. done.
    + rewrite length_app. simpl. lia.
Qed.

Lemma lifo_check s : lifo cs s → lifo cs (check s).
Proof.
  intros (done & Hcs & Htr & Hn). exists done.
  rewrite check_cmds, check_trace, launches_app.
  rewrite (launches_none (poll_all _ _).2) by apply poll_all_no_popen.
  rewrite app_nil_r. split; [done|]. split; [done|].
  unfold check. by destruct (poll_all _ _) as [[? ?] ?].
Qed.

Lemma lifo_loop fuel c s s' :
  lifo cs s → loop fuel h c s = Some s' → lifo cs s'.
Proof.
  revert s. induction fuel as [|fuel IH]; intros s Hs; simpl;
    destruct (running s); try discriminate.
  - by intros [= <-].
  - apply IH. unfold iteration. by apply lifo_check, lifo_spawn.
  - by intros [= <-].
Qed.

End Order.

(** The workers of a batch are launched in the reverse order of the input
    files, each one at most once, and their handles are numbered from
    zero in the order of the launches: the launches are the first
    commands of the reversed command list. When the batch succeeds every
    input file was launched, exactly once. *)
Theorem launch_order `{Number F} h (jh : job_host F) input_files simulator
    (analyse : bool) :
  1 < length input_files → 1 ≤ cpu_count h →
  ∃ fuel b tr,
    execute_networks fuel h jh input_files simulator analyse
      = Some (Ok b, tr) ∧
    (∃ k, launches tr =
          numbered (take k (reverse
            (commands h input_files simulator analyse)))) ∧
    (b = true →
     launches tr =
     numbered (reverse (commands h input_files simulator analyse))).
Proof.
  intros Hlen Hcpu.
  set (cs := commands h input_files simulator analyse).
  set (c := concurrency h simulator).
  destruct (loop_terminates h c (remaining h (initial cs)) (initial cs))
    as [s Hs]; [by apply concurrency_pos|done|].
  destruct (inv_loop h cs _ c _ _ (inv_initial h cs) Hs) as [_ Hrun].
  destruct (lifo_loop h cs _ c _ _ (lifo_initial cs) Hs)
    as (done & Hcs & Htr & _).
  exists (remaining h (initial cs)), (negb (had_error s)), (trace s).
  split; [|split].
  - unfold execute_networks. apply Nat.ltb_lt in Hlen. rewrite Hlen.
    fold cs c. by rewrite Hs.
  - exists (length done). by rewrite Htr, Hcs, take_app_length.
  - intros Hb%negb_true_iff.
    rewrite (stopped_done s Hrun Hb) in Hcs. simpl in Hcs.
    rewrite app_nil_r in Hcs. by rewrite Htr, Hcs.
Qed.

(** Witness: the three-job batch of [Demo]; its job [b.in.gz] fails after
    all three were launched. *)
Lemma launch_order_witness :
  ∃ fuel b tr,
    execute_networks fuel Demo.host2 DemoHost.quiet Demo.batch "nest" false
      = Some (Ok b, tr) ∧
    (∃ k, launches tr =
          numbered (take k (reverse
            (commands Demo.host2 Demo.batch "nest" false)))) ∧
    (b = true →
     launches tr =
     numbered (reverse (commands Demo.host2 Demo.batch "nest" false))).
Proof.
  apply (launch_order Demo.host2 DemoHost.quiet Demo.batch "nest" false);
    simpl; lia.
Defined.

End OrderFacts.

(** * More on the analyser *)

Module AnalyserMore.
Import NumPy Analysis AnalysisAux AnalyserAux AnalyserFacts.

Section Cursor.
Context {F : Type} `{Number F}.

Lemma named_cons_eq (a : instance F) l :
  named (experiment_name (meta a)) (a :: l)
  = a :: named (experiment_name (meta a)) l.
Proof. unfold named. by rewrite filter_cons_True. Qed.

Lemma named_cons_ne name (a : instance F) l :
  experiment_name (meta a) ≠ name → named name (a :: l) = named name l.
Proof. intros. unfold named. by rewrite filter_cons_False. Qed.

(** *** The cursor counts the instances *)

Lemma analyse_from_cursor ts i (l : list (instance F)) result result' :
  analyse_from ts i l result = Ok result' →
  ∀ name,
    match start_table result name l with
    | Some t =>
        ∃ t', result' !! name = Some t' ∧
              keys t' = keys t ∧ dims t' = dims t ∧
              simulator t' = simulator t ∧ size t' = size t ∧
              idx t' = idx t + length (named name l) ∧
              (named name l ≠ [] → idx t' ≤ size t')
    | None => result' !! name = None
    end.
Proof.
  revert i result. induction l as [|a l IH]; intros i result; simpl.
  - intros [= <-] name. unfold start_table. simpl.
    destruct (result !! name) as [t|]; [|done].
    exists t. repeat split; try done; lia.
  - intros (r1 & H1 & Hrest)%bind_Ok name.
    specialize (IH _ _ Hrest name).
    apply analyse_instance_Ok in H1
      as (tm & values & c & rows & _ & _ & Hdata & Hidx & ->).
    destruct (decide (experiment_name (meta a) = name)) as [<-|Hne].
    + unfold start_table in IH. rewrite lookup_insert_eq in IH.
      destruct IH as (t' & Ht' & Hk & Hd & Hs & Hsize & Hcur & Hbound).
      simpl in *.
      assert (start_table result (experiment_name (meta a)) (a :: l)
              = Some (default (new_table (meta a))
                        (result !! experiment_name (meta a)))) as ->.
      { unfold start_table. rewrite named_cons_eq.
        by destruct (result !! experiment_name (meta a)). }
      exists t'. rewrite named_cons_eq. simpl.
      unfold size in *. simpl in Hsize. rewrite length_insert in Hsize.
      rewrite Hdata. simpl.
      repeat split; try done; [lia|].
      intros _. destruct (named (experiment_name (meta a)) l) eqn:Hn.
      * simpl in Hcur. rewrite Hsize. lia.
      * by apply Hbound.
    + unfold start_table in *. rewrite lookup_insert_ne in IH by done.
      by rewrite named_cons_ne.
Qed.

(** When [analyse_output] returns, the cursor of every table has advanced
    by the number of instances of its experiment in the job, and, if the
    job has such instances, it is not beyond the rows of the matrix. Keys,
    number of varied parameters, simulator and the number of rows of a
    table are those it had before the call or, for a table the call
    created, those declared by the first instance of the experiment; no
    other table appears, and none disappears. *)
Theorem analyse_output_cursor (out : job_output F) result result' :
  analyse_output out result = Ok result' →
  ∀ name,
    match start_table result name (analysis_instances out) with
    | Some t =>
        ∃ t', result' !! name = Some t' ∧
              keys t' = keys t ∧ dims t' = dims t ∧
              simulator t' = simulator t ∧ size t' = size t ∧
              idx t' = idx t + length (named name (analysis_instances out)) ∧
              (named name (analysis_instances out) ≠ [] → idx t' ≤ size t')
    | None => result' !! name = None
    end.
Proof. apply analyse_from_cursor. Qed.

(** [analyse_output] never writes a row beyond the matrix and never drops
    one: when the instances of a job for an experiment are more than the
    rows left in its table (the table of [result], or the table of the
    size declared by the first of these instances), the call raises. *)
Theorem analyse_output_overflow (out : job_output F) result name t :
  start_table result name (analysis_instances out) = Some t →
  named name (analysis_instances out) ≠ [] →
  size t < idx t + length (named name (analysis_instances out)) →
  raised (analyse_output out result).
Proof.
  intros Hstart Hsome Hfull.
  destruct (analyse_output out result) as [result'|e] eqn:Hout;
    [|by exists e].
  pose proof (analyse_from_cursor _ _ _ _ _ Hout name) as Hcur.
  rewrite Hstart in Hcur.
  destruct Hcur as (t' & _ & _ & _ & _ & Hsize & Hidx & Hbound).
  specialize (Hbound Hsome). lia.
Qed.

(** *** Timings under an unknown key *)

Lemma add_times_raises (ts acc : gmap string F) e :
  add_times ts acc = Raise e → e = KeyError.
Proof.
  unfold add_times.
  apply (map_fold_weak_ind (λ r (_ : gmap string F),
           r = Raise e → e = KeyError)); [done|].
  intros key dt m [acc'|e'] _ IH; simpl.
  - destruct (acc' !! key); [done|]. by intros [= <-].
  - intros [= ->]. by apply IH.
Qed.

Lemma add_times_missing (ts acc : gmap string F) key dt :
  ts !! key = Some dt → acc !! key = None →
  add_times ts acc = Raise KeyError.
Proof.
  intros Hts Hacc.
  pose proof (AnalyserClaims.add_times_spec ts acc) as Hspec.
  destruct (add_times ts acc) as [acc'|e] eqn:Hadd.
  - specialize (Hspec key). rewrite Hts in Hspec.
    destruct Hspec as (old & Hold & _). congruence.
  - by rewrite (add_times_raises _ _ _ Hadd).
Qed.

(** The timings of a job may only have keys that the accumulator of the
    experiment of its first instance has: the four keys [total], [sim],
    [initialize] and [finalize] for a table yet to be created. With any
    other key [analyse_output] raises [KeyError], before it computes a
    row. *)
Theorem analyse_output_unknown_timing (out : job_output F) result a0 rest
    key dt :
  analysis_instances out = a0 :: rest →
  times out !! key = Some dt →
  time_before result (experiment_name (meta a0)) !! key = None →
  analyse_output out result = Raise KeyError.
Proof.
  intros Hl Hts Hacc. unfold analyse_output. rewrite Hl. simpl.
  unfold analyse_instance. simpl.
  assert (time (default (new_table (meta a0))
                  (result !! experiment_name (meta a0)))
          = time_before result (experiment_name (meta a0))) as ->.
  { unfold time_before. by destruct (result !! _). }
  by rewrite (add_times_missing _ _ key dt).
Qed.

(** *** The result of the analyser can be finalised *)

(** What the analyser keeps of every table it touches or creates. *)
Lemma analyse_instance_finalizable ts i (a : instance F) result result' :
  (∀ name t, result !! name = Some t → finalizable t) →
  analyse_instance ts i a result = Ok result' →
  ∀ name t, result' !! name = Some t → finalizable t.
Proof.
  intros Hall Ha name t'.
  apply analyse_instance_Ok in Ha
    as (tm & values & c & rows & _ & Hv & Hdata & Hidx & ->).
  destruct (decide (name = experiment_name (meta a))) as [->|Hne].
  - rewrite lookup_insert_eq. intros [= <-]. unfold finalizable. simpl.
    split.
    + destruct (result !! experiment_name (meta a)) as [t|] eqn:Ht; simpl in *.
      * apply Hall in Ht. unfold finalizable in Ht. rewrite Hdata in Ht.
        tauto.
      * unfold zeros in Hdata. injection Hdata as <- _.
        rewrite length_app. simpl. lia.
    + intros _ Hnil. apply (f_equal length) in Hnil.
      rewrite length_insert in Hnil. simpl in Hnil. lia.
  - rewrite lookup_insert_ne by done. apply Hall.
Qed.

Lemma analyse_from_finalizable ts i (l : list (instance F)) result result' :
  (∀ name t, result !! name = Some t → finalizable t) →
  analyse_from ts i l result = Ok result' →
  ∀ name t, result' !! name = Some t → finalizable t.
Proof.
  revert i result. induction l as [|a l IH]; intros i result Hall; simpl.
  - by intros [= <-].
  - intros (r1 & H1 & Hrest)%bind_Ok. eapply IH; [|done].
    by eapply analyse_instance_finalizable.
Qed.

Lemma analyse_outputs_snoc (outs : list (job_output F)) out :
  analyse_outputs (outs ++ [out])
  = analyse_outputs outs ≫= analyse_output out.
Proof. unfold analyse_outputs. by rewrite foldl_app. Qed.

Lemma analyse_outputs_finalizable (outs : list (job_output F)) result :
  analyse_outputs outs = Ok result →
  ∀ name t, result !! name = Some t → finalizable t.
Proof.
  revert result. induction outs as [|out outs IH] using rev_ind;
    intros result.
  - intros [= <-] name t. by rewrite lookup_empty.
  - rewrite analyse_outputs_snoc. intros (r0 & H0 & Hout)%bind_Ok.
    eapply analyse_from_finalizable; [|done]. by apply IH.
Qed.

(** When the analysis of the job outputs of [analyse_output_files]
    returns, [finalize_analysis] returns on its result: the finaliser
    cannot fail on tables that the analyser made, and it returns a table
    for every experiment of the result and for no other name. *)
Theorem analyse_outputs_finalize (outs : list (job_output F)) result :
  analyse_outputs outs = Ok result →
  ∃ final,
    finalize_analysis result = Ok final ∧
    ∀ name, is_Some (final !! name) ↔ is_Some (result !! name).
Proof.
  intros Hres.
  destruct (FinalizerFacts.finalize_analysis_returns result) as [final Hf].
  { intros name t Ht. apply FinalizerClaims.finalizable_returns.
    by eapply analyse_outputs_finalizable. }
  exists final. split; [done|]. intros name.
  pose proof (FinalizerFacts.finalize_analysis_spec result) as Hspec.
  rewrite Hf in Hspec. specialize (Hspec name).
  destruct (result !! name) as [t|].
  - destruct Hspec as (f & _ & ->). split; eauto.
  - rewrite Hspec. done.
Qed.

End Cursor.

Import Exact DemoJobs DemoMore.

(** Witness: the two-instance job of [DemoJobs] analysed into the empty
    mapping. *)
Lemma analyse_output_cursor_witness :
  ∃ result',
    analyse_output job ∅ = Ok result' ∧
    ∀ name,
      match start_table ∅ name (analysis_instances job) with
      | Some t =>
          ∃ t', result' !! name = Some t' ∧
                keys t' = keys t ∧ dims t' = dims t ∧
                simulator t' = simulator t ∧ size t' = size t ∧
                idx t' = idx t + length (named name (analysis_instances job)) ∧
                (named name (analysis_instances job) ≠ [] → idx t' ≤ size t')
      | None => result' !! name = None
      end.
Proof.
  destruct (analyse_output job ∅) as [result'|e] eqn:Hout;
    [|vm_compute in Hout; discriminate].
  exists result'. split; [done|].
  exact (analyse_output_cursor job ∅ result' Hout).
Defined.

(** Witness: three instances for a table of two rows. *)
Lemma analyse_output_overflow_witness :
  start_table ∅ "exp" (analysis_instances crowded)
    = Some (new_table demo_meta) ∧
  size (new_table demo_meta) = 2 ∧
  length (named "exp" (analysis_instances crowded)) = 3 ∧
  raised (analyse_output crowded ∅).
Proof.
  split; [reflexivity|]. split; [reflexivity|]. split; [reflexivity|].
  apply (analyse_output_overflow crowded ∅ "exp" (new_table demo_meta)).
  - reflexivity.
  - discriminate.
  - vm_compute. lia.
Defined.

(** Witness: the job with the timing key [load]. *)
Lemma analyse_output_unknown_timing_witness :
  analyse_output odd_job ∅ = Raise KeyError.
Proof.
  apply (analyse_output_unknown_timing odd_job ∅ (plain 3%Z) [] "load"
           (Fin 1)); reflexivity.
Defined.

(** Witness: the two jobs of [DemoMore]. *)
Lemma analyse_outputs_finalize_witness :
  ∃ result final,
    analyse_outputs [first_job; second_job] = Ok result ∧
    finalize_analysis result = Ok final ∧
    ∀ name, is_Some (final !! name) ↔ is_Some (result !! name).
Proof.
  destruct (analyse_outputs [first_job; second_job]) as [result|e] eqn:Hout;
    [|vm_compute in Hout; discriminate].
  destruct (analyse_outputs_finalize [first_job; second_job] result Hout)
    as (final & Hf & Hdom).
  exists result, final. split; [reflexivity|]. split; [exact Hf|exact Hdom].
Defined.

End AnalyserMore.

(** * More on the merger *)

Module MergerMore.
Import NumPy Analysis AnalysisAux AnalyserFacts MergerFacts.

Section Frame.
Context {F : Type} `{Number F}.

Lemma append_table_fields (t1 t2 t : table F) :
  append_table t1 t2 = Ok t →
  keys t = keys t1 ∧ dims t = dims t1 ∧ simulator t = simulator t1 ∧
  time t = time t1 ∧ idx t = idx t1 + idx t2.
Proof.
  unfold append_table.
  intros (src & _ & (d & _ & [= <-])%bind_Ok)%bind_Ok. done.
Qed.

(** When [append_analysis] returns: an experiment whose name starts with
    two underscores, or that the part does not have, is in the result as
    it was in [analysis]; an experiment that only the part has is adopted
    as it is; for an experiment that both have, the result keeps keys,
    number of varied parameters, simulator and timings of the table in
    [analysis] (the timings of the part are not added) and its cursor is
    the sum of the two cursors. *)
Theorem append_analysis_frame (analysis part r : gmap string (table F)) :
  append_analysis analysis part = Ok r →
  ∀ name,
    (startswith name "__" = true ∨ part !! name = None →
     r !! name = analysis !! name) ∧
    (startswith name "__" = false → analysis !! name = None →
     r !! name = part !! name) ∧
    (startswith name "__" = false →
     ∀ t1 t2, analysis !! name = Some t1 → part !! name = Some t2 →
       ∃ t, r !! name = Some t ∧
            keys t = keys t1 ∧ dims t = dims t1 ∧
            simulator t = simulator t1 ∧ time t = time t1 ∧
            idx t = idx t1 + idx t2).
Proof.
  intros Hr name.
  pose proof (proj1 (append_analysis_Ok _ _ _) Hr name) as Hm.
  unfold merge_entry in Hm. split; [|split].
  - intros [Hres|Hnone].
    + rewrite Hres in Hm. destruct (part !! name); by injection Hm.
    + rewrite Hnone in Hm. by injection Hm.
  - intros Hres Hnone. rewrite Hres, Hnone in Hm.
    destruct (part !! name); by injection Hm.
  - intros Hres t1 t2 H1 H2. rewrite Hres, H1, H2 in Hm.
    destruct (append_table t1 t2) as [t|e] eqn:Ht; [|discriminate].
    simpl in Hm. injection Hm as Hm. exists t. split; [done|].
    by apply append_table_fields.
Qed.

(** Two mappings without a common experiment and without names that start
    with two underscores are merged into their union, in either order and
    without an exception. *)
Theorem append_analysis_disjoint (a p : gmap string (table F)) :
  a ##ₘ p →
  (∀ name, is_Some ((a ∪ p) !! name) → startswith name "__" = false) →
  append_analysis a p = Ok (a ∪ p) ∧ append_analysis p a = Ok (a ∪ p).
Proof.
  intros Hdisj Hnames.
  assert (∀ (x y : gmap string (table F)),
    x ##ₘ y →
    (∀ name, is_Some ((x ∪ y) !! name) → startswith name "__" = false) →
    append_analysis x y = Ok (x ∪ y)) as Hone.
  { intros x y Hxy Hn. apply append_analysis_Ok. intros name.
    unfold merge_entry.
    destruct (y !! name) as [t2|] eqn:Hy.
    - rewrite Hn.
      + pose proof (map_disjoint_Some_r _ _ _ _ Hxy Hy) as ->.
        by rewrite (lookup_union_Some_r _ _ _ _ Hxy Hy).
      + exists t2. by apply lookup_union_Some_r.
    - by rewrite lookup_union_l. }
  split; [by apply Hone|].
  rewrite (map_union_comm a p) by done. apply Hone; [done|].
  intros name. rewrite <- (map_union_comm a p) by done. apply Hnames.
Qed.

End Frame.

Import Exact DemoTables DemoMore.

(** Witness: the two one-row files of [DemoTables] for the same
    experiment. *)
Lemma append_analysis_frame_witness :
  ∃ r,
    append_analysis file_two file_one = Ok r ∧
    ∀ name,
      (startswith name "__" = true ∨ file_one !! name = None →
       r !! name = file_two !! name) ∧
      (startswith name "__" = false → file_two !! name = None →
       r !! name = file_one !! name) ∧
      (startswith name "__" = false →
       ∀ t1 t2, file_two !! name = Some t1 → file_one !! name = Some t2 →
         ∃ t, r !! name = Some t ∧
              keys t = keys t1 ∧ dims t = dims t1 ∧
              simulator t = simulator t1 ∧ time t = time t1 ∧
              idx t = idx t1 + idx t2).
Proof.
  destruct (append_analysis file_two file_one) as [r|e] eqn:Hr;
    [|vm_compute in Hr; discriminate].
  exists r. split; [reflexivity|].
  exact (append_analysis_frame file_two file_one r Hr).
Defined.

(** Witness: files for two different experiments. *)
Lemma append_analysis_disjoint_witness :
  append_analysis file_one other_file = Ok (file_one ∪ other_file) ∧
  append_analysis other_file file_one = Ok (file_one ∪ other_file).
Proof.
  apply (append_analysis_disjoint file_one other_file).
  - apply map_disjoint_singleton_l. reflexivity.
  - intros name Hsome.
    destruct (startswith name "__") eqn:Hres; [|reflexivity].
    exfalso. unfold file_one, other_file in Hsome.
    destruct (decide (name = "exp")) as [->|H1]; [discriminate|].
    destruct (decide (name = "other")) as [->|H2]; [discriminate|].
    rewrite lookup_union_r in Hsome by by apply lookup_singleton_ne.
    rewrite lookup_singleton_ne in Hsome by done. by destruct Hsome.
Defined.

End MergerMore.

(** * The command lines of the workers *)

Module WorkerFacts.
Import Scheduler Cli CliAux CliFacts.

(** The command line that [execute_networks] builds for a job file is read
    by [parse_parameters] in the worker, whose [sys.argv] is the command
    line without the interpreter. If the simulator name does not start
    with two dashes it is accepted, as the mode [exec] (or [analyse-exec]
    when the batch analyses), with the same simulator and the job file as
    the only file; so a worker is given one file, the case in which
    [execute_networks] launches nothing. If the simulator name starts with
    two dashes every worker exits with status 1 without running a job. *)
Theorem worker_command_line h input_files simulator (analyse : bool) cmd :
  cmd ∈ commands h input_files simulator analyse →
  ∃ x out c,
    x ∈ input_files ∧
    cmd = [sys_executable h; script h; simulator;
           if analyse then "--analyse-exec" else "--exec"; x] ∧
    parse_parameters (tail cmd) = (out, c) ∧
    (startswith simulator "--" = false →
     out = [] ∧
     c = Returns {[ "mode" := Str (if analyse then "analyse-exec"
                                   else "exec");
                    "simulator" := Str simulator;
                    "files" := Strs [x] ]}) ∧
    (startswith simulator "--" = true → c = SysExit 1).
Proof.
  unfold commands. intros Hin. apply list_elem_of_In, in_map_iff in Hin.
  destruct Hin as (x & <- & Hx%list_elem_of_In).
  destruct (parse_parameters
              (tail [sys_executable h; script h; simulator;
                     if analyse then "--analyse-exec" else "--exec"; x]))
    as [out c] eqn:Hparse.
  exists x, out, c. split; [done|]. split; [done|]. split; [done|].
  simpl in Hparse. split.
  - intros Hdash.
    rewrite (accepted_parsed _
               {[ "mode" := Str (if analyse then "analyse-exec" else "exec");
                  "simulator" := Str simulator; "files" := Strs [x] ]}
               simulator) in Hparse; [by injection Hparse as <- <-| |done|done].
    destruct analyse.
    + apply (accepted_exec _ _ "analyse-exec"). set_solver.
    + apply (accepted_exec _ _ "exec"). set_solver.
  - intros Hdash. revert Hparse. parse_shape. rewrite Hdash.
    destruct (_ || _); by intros [= <- <-].
Qed.

(** Witness: the batch of [Demo]. *)
Lemma worker_command_line_witness :
  ∃ x out c,
    x ∈ Demo.batch ∧
    ["python"; "run.py"; "nest"; "--exec"; "c.in.gz"]
    = [sys_executable Demo.host2; script Demo.host2; "nest"; "--exec"; x] ∧
    parse_parameters ["run.py"; "nest"; "--exec"; "c.in.gz"] = (out, c) ∧
    (startswith "nest" "--" = false →
     out = [] ∧
     c = Returns {[ "mode" := Str "exec"; "simulator" := Str "nest";
                    "files" := Strs [x] ]}) ∧
    (startswith "nest" "--" = true → c = SysExit 1).
Proof.
  apply (worker_command_line Demo.host2 Demo.batch "nest" false
           ["python"; "run.py"; "nest"; "--exec"; "c.in.gz"]).
  simpl. set_solver.
Defined.

End WorkerFacts.
